(** * Static-site generator [scripts/build.js]: a shallow embedding

    JavaScript strings are sequences of UTF-16 code units ([jsstr]);
    JavaScript objects used as maps are association lists in creation
    order, because the generator relies on key order. Library functions
    that are not part of the repository (Unicode normalisation and case
    mapping, markdown-it, the WHATWG URL parser, [Intl], [Date]) are
    collected in a [platform] record and passed explicitly. *)

From Stdlib Require Import String Ascii DecimalString.
From Stdlib Require Import ZArith List Bool Lia Sorted Permutation.
Import ListNotations.
Set Warnings "-register-all".
Open Scope Z_scope.

(* ------------------------------------------------------------------ *)
(** ** Strings *)

Definition jsstr := list Z.

(** ASCII literal to code units. *)
Fixpoint lit (s : string) : jsstr :=
  match s with
  | EmptyString => []
  | String c s' => Z.of_nat (nat_of_ascii c) :: lit s'
  end.

Definition is_empty {A} (l : list A) : bool :=
  match l with [] => true | _ => false end.

Definition dq : jsstr := [34].   (* the double quote character *)
Definition hyphen : Z := 45.

Definition str_eqb (a b : jsstr) : bool :=
  if list_eq_dec Z.eq_dec a b then true else false.

Fixpoint starts_with (p s : jsstr) : bool :=
  match p, s with
  | [], _ => true
  | c :: p', d :: s' => (c =? d) && starts_with p' s'
  | _ :: _, [] => false
  end.

Fixpoint is_infix (p s : jsstr) : bool :=
  starts_with p s || match s with [] => false | _ :: s' => is_infix p s' end.

Definition ends_with (p s : jsstr) : bool := starts_with (rev p) (rev s).

Fixpoint take_while (f : Z -> bool) (s : jsstr) : jsstr :=
  match s with
  | c :: s' => if f c then c :: take_while f s' else []
  | [] => []
  end.

(** [Array.prototype.join]. *)
Fixpoint join (sep : jsstr) (l : list jsstr) : jsstr :=
  match l with
  | [] => []
  | [x] => x
  | x :: l' => x ++ sep ++ join sep l'
  end.

(** WhiteSpace and LineTerminator code points: the set matched by [\s]
    and removed by [String.prototype.trim]. *)
Definition is_js_space (c : Z) : bool :=
  (c =? 9) || (c =? 10) || (c =? 11) || (c =? 12) || (c =? 13) || (c =? 32)
  || (c =? 160) || (c =? 5760) || ((8192 <=? c) && (c <=? 8202))
  || (c =? 8232) || (c =? 8233) || (c =? 8239) || (c =? 8287)
  || (c =? 12288) || (c =? 65279).

Fixpoint drop_spaces (s : jsstr) : jsstr :=
  match s with
  | c :: s' => if is_js_space c then drop_spaces s' else s
  | [] => []
  end.

(** [String.prototype.trim]. *)
Definition trim (s : jsstr) : jsstr := rev (drop_spaces (rev (drop_spaces s))).

(* ------------------------------------------------------------------ *)
(** ** [Array.prototype.sort] with a comparator

    The engine's sort is stable (ECMAScript 2019). For a comparator that
    is a consistent total preorder, every stable sort returns the same
    list, so a stable insertion sort is a faithful model. *)

Fixpoint insert_by {A} (cmp : A -> A -> Z) (x : A) (l : list A) : list A :=
  match l with
  | [] => [x]
  | y :: l' => if cmp x y <=? 0 then x :: y :: l' else y :: insert_by cmp x l'
  end.

Fixpoint sort_by {A} (cmp : A -> A -> Z) (l : list A) : list A :=
  match l with
  | [] => []
  | x :: l' => insert_by cmp x (sort_by cmp l')
  end.

(* ------------------------------------------------------------------ *)
(** ** Values, results and the platform *)

(** Values produced by the YAML front-matter parser (gray-matter). *)
Inductive yval :=
| YUndef
| YNull
| YBool (b : bool)
| YNum (z : Z)
| YStr (s : jsstr)
| YDate (t : Z)
| YList (l : list yval)
| YObj (l : list (jsstr * yval)).

Inductive result (A : Type) := Ok (a : A) | Err (e : jsstr).
Arguments Ok {A} a.
Arguments Err {A} e.

Definition bind {A B} (m : result A) (k : A -> result B) : result B :=
  match m with Ok a => k a | Err e => Err e end.
Notation "x <- m ;; k" := (bind m (fun x => k)) (at level 61, m at next level, right associativity).

(** Library behaviour the generator calls but does not define. *)
Record platform := {
  nfd : jsstr -> jsstr;                        (* s.normalize('NFD') *)
  to_lower : jsstr -> jsstr;                   (* s.toLowerCase() *)
  locale_compare : jsstr -> jsstr -> Z;        (* a.localeCompare(b, 'pt-BR') *)
  date_time : yval -> option Z;                (* new Date(v).getTime(); None for NaN *)
  date_string : Z -> jsstr;                    (* String(d) for a Date *)
  iso_string : Z -> jsstr;                     (* d.toISOString() *)
  format_date : Z -> jsstr;                    (* Intl.DateTimeFormat('pt-BR', ...).format(d) *)
  md_render : jsstr -> jsstr;                  (* md.render(src), the configured markdown-it *)
  url_href : jsstr -> jsstr -> option jsstr;
    (* new URL(p, base).toString(); None when the constructor throws *)
  url_origin : jsstr -> option jsstr -> option jsstr;
    (* new URL(v, base).origin; None when the constructor throws *)
  utc_string : jsstr -> jsstr;                 (* new Date(s).toUTCString() *)
  minify : jsstr -> result jsstr
    (* html-minifier-terser's minify(html, options) of writeHtml; Err is a rejection *)
}.

(** Site configuration, fixed at start-up ([SITE]). *)
Record site_config := { origin : jsstr; basePath : jsstr }.


Definition z_to_dec (z : Z) : jsstr := lit (NilEmpty.string_of_int (Z.to_int z)).

(** [String(v)]. *)
Fixpoint js_String (pf : platform) (v : yval) : jsstr :=
  match v with
  | YUndef => lit "undefined"
  | YNull => lit "null"
  | YBool b => if b then lit "true" else lit "false"
  | YNum z => z_to_dec z
  | YStr s => s
  | YDate t => date_string pf t
  | YList l =>
      join (lit ",") (map (fun x => match x with
                                    | YUndef | YNull => []
                                    | _ => js_String pf x
                                    end) l)
  | YObj _ => lit "[object Object]"
  end.

(** JavaScript truthiness of a front-matter value. *)
Definition truthy (v : yval) : bool :=
  match v with
  | YUndef | YNull => false
  | YBool b => b
  | YNum z => negb (z =? 0)
  | YStr s => negb (is_empty s)
  | _ => true
  end.

(* ------------------------------------------------------------------ *)
(** ** Ordinary objects

    An object is its own properties in creation order; reads that miss
    fall through to [Object.prototype]. *)

Definition obj (V : Type) := list (jsstr * V).

Fixpoint assoc {V} (k : jsstr) (o : obj V) : option V :=
  match o with
  | [] => None
  | (k', v) :: o' => if str_eqb k k' then Some v else assoc k o'
  end.

(** [o[k] = v]: an existing property keeps its place. *)
Fixpoint obj_set {V} (o : obj V) (k : jsstr) (v : V) : obj V :=
  match o with
  | [] => [(k, v)]
  | (k', v') :: o' => if str_eqb k k' then (k', v) :: o' else (k', v') :: obj_set o' k v
  end.

Definition object_prototype_keys : list jsstr :=
  [lit "constructor"; lit "__defineGetter__"; lit "__defineSetter__";
   lit "hasOwnProperty"; lit "__lookupGetter__"; lit "__lookupSetter__";
   lit "isPrototypeOf"; lit "propertyIsEnumerable"; lit "toString"; lit "valueOf";
   lit "__proto__"; lit "toLocaleString"].

Inductive prop {V} := Own (v : V) | Proto (k : jsstr) | Absent.
Arguments prop V : clear implicits.

(** [o[k]] for an object whose prototype is [Object.prototype]. *)
Definition obj_get {V} (o : obj V) (k : jsstr) : prop V :=
  match assoc k o with
  | Some v => Own v
  | None => if existsb (str_eqb k) object_prototype_keys then Proto k else Absent
  end.

(** [String(Object.prototype[k])]. *)
Definition proto_member_string (k : jsstr) : jsstr :=
  if str_eqb k (lit "__proto__") then lit "[object Object]"
  else if str_eqb k (lit "constructor") then lit "function Object() { [native code] }"
  else lit "function " ++ k ++ lit "() { [native code] }".

(** Array index keys: canonical decimal integers below 2^32 - 1. *)
Definition array_index (k : jsstr) : option Z :=
  let digits := forallb (fun c => (48 <=? c) && (c <=? 57)) k in
  let v := fold_left (fun acc c => acc * 10 + (c - 48)) k 0 in
  if digits && negb (is_empty k) && (str_eqb k (lit "0") || negb (starts_with (lit "0") k))
     && (v <? 4294967295)
  then Some v else None.

Definition index_cmp (a b : jsstr) : Z :=
  match array_index a, array_index b with
  | Some x, Some y => x - y
  | _, _ => 0
  end.

(** [OrdinaryOwnPropertyKeys], as seen by [Object.keys], [Object.entries]
    and [JSON.stringify]: array indices ascending, then the other keys in
    creation order. *)
Definition own_keys {V} (o : obj V) : list jsstr :=
  let ks := map fst o in
  sort_by index_cmp (filter (fun k => if array_index k then true else false) ks)
  ++ filter (fun k => if array_index k then false else true) ks.

(** [Object.fromEntries]. *)
Definition from_entries {V} (l : list (jsstr * V)) : obj V :=
  fold_left (fun o kv => obj_set o (fst kv) (snd kv)) l [].

(* ------------------------------------------------------------------ *)
(** ** [slugify]

    [String(text).normalize('NFD').replace(/[̀-ͯ]/g, '')
     .toLowerCase().replace(/[^a-z0-9]+/g, '-').replace(/(^-|-$)+/g, '')
     .slice(0, 80)] *)

Definition is_combining_mark (c : Z) : bool := (768 <=? c) && (c <=? 879).

Definition is_slug_char (c : Z) : bool :=
  ((97 <=? c) && (c <=? 122)) || ((48 <=? c) && (c <=? 57)).

(** [.replace(/[^a-z0-9]+/g, '-')]: each maximal run of other characters
    becomes one hyphen. [in_run] records that the previous character
    belonged to such a run. *)
Fixpoint collapse_non_slug (in_run : bool) (s : jsstr) : jsstr :=
  match s with
  | [] => []
  | c :: s' =>
      if is_slug_char c then c :: collapse_non_slug false s'
      else if in_run then collapse_non_slug true s'
      else hyphen :: collapse_non_slug true s'
  end.

(** [.replace(/(^-|-$)+/g, '')]: a hyphen is removed exactly when it is
    the first or the last character of the string ([at_start] holds at
    index 0). A match of two iterations ("--") removes the same two
    characters, so deleting character by character gives the same
    string. *)
Fixpoint strip_edge_hyphens (at_start : bool) (s : jsstr) : jsstr :=
  match s with
  | [] => []
  | c :: s' =>
      if (c =? hyphen) && (at_start || is_empty s')
      then strip_edge_hyphens false s'
      else c :: strip_edge_hyphens false s'
  end.

Definition slugify (pf : platform) (text : jsstr) : jsstr :=
  firstn 80
    (strip_edge_hyphens true
       (collapse_non_slug false
          (to_lower pf (filter (fun c => negb (is_combining_mark c)) (nfd pf text))))).

(** [path.basename(file, '.md')] for a directory entry ending in [.md]. *)
Definition basename_md (file : jsstr) : jsstr :=
  if str_eqb file (lit ".md") then []
  else if ends_with (lit ".md") file then firstn (length file - 3) file
  else file.

(* ------------------------------------------------------------------ *)
(** ** URLs *)

Definition lower_ascii (c : Z) : Z := if (65 <=? c) && (c <=? 90) then c + 32 else c.

(** Prefix test of a regular expression with the [i] flag: outside
    Unicode mode only ASCII letters fold onto ASCII letters. *)
Definition starts_with_ci (p s : jsstr) : bool :=
  starts_with p (map lower_ascii (firstn (length p) s)).

(** [/^https?:\/\//i.test(s)] *)
Definition http_prefix (s : jsstr) : bool :=
  starts_with_ci (lit "http://") s || starts_with_ci (lit "https://") s.

Definition normalizePath (pf : platform) (rawPath : yval) : jsstr :=
  let value := trim (if truthy rawPath then js_String pf rawPath else []) in
  if is_empty value || str_eqb value (lit "/") then lit "/"
  else if starts_with (lit "/") value then value
  else 47 :: value.

Definition toPublicUrl (pf : platform) (site : site_config) (rawPath : yval) : jsstr :=
  if http_prefix (js_String pf rawPath) then js_String pf rawPath
  else
    let pathWithBase := basePath site ++ normalizePath pf rawPath in
    if is_empty pathWithBase then lit "/" else pathWithBase.

(** The [TypeError] thrown by [new URL] for an input it cannot parse. *)
Definition msg_invalid_url : jsstr := lit "TypeError: Invalid URL".

Definition toAbsoluteUrl (pf : platform) (site : site_config) (rawPath : yval) : result jsstr :=
  if http_prefix (js_String pf rawPath) then Ok (js_String pf rawPath)
  else
    let pathWithBase := basePath site ++ normalizePath pf rawPath in
    match url_href pf (if is_empty pathWithBase then lit "/" else pathWithBase) (origin site) with
    | Some href => Ok href
    | None => Err msg_invalid_url
    end.

(* ------------------------------------------------------------------ *)
(** ** HTML post-processing

    Global [String.prototype.replace] scans left to right; a match is
    replaced and scanning resumes after it. Every step consumes at least
    one character, so [length s] steps of fuel suffice. *)

(** [/<img\s+/] at the start of [s]: the rest after the match. *)
Definition match_img (s : jsstr) : option jsstr :=
  match skipn 4 s with
  | c :: rest =>
      if starts_with (lit "<img") s && is_js_space c then Some (drop_spaces rest) else None
  | [] => None
  end.

Fixpoint lazy_go (fuel : nat) (s : jsstr) : jsstr :=
  match fuel with
  | O => s
  | S fuel' =>
      match s with
      | [] => []
      | c :: s' =>
          match match_img s with
          | Some rest => lit "<img loading=" ++ dq ++ lit "lazy" ++ dq ++ lit " " ++ lazy_go fuel' rest
          | None => c :: lazy_go fuel' s'
          end
      end
  end.

(** [html.replace(/<img\s+/g, '<img loading="lazy" ')] *)
Definition addLazyLoadingToImages (html : jsstr) : jsstr := lazy_go (length html) html.

(** [/<[^>]+>/] at the start of [s]: the rest after the match. *)
Fixpoint split_at_gt (s : jsstr) : option (nat * jsstr) :=
  match s with
  | [] => None
  | c :: s' =>
      if c =? 62 then Some (O, s')
      else match split_at_gt s' with Some (n, r) => Some (S n, r) | None => None end
  end.

Definition match_tag (s : jsstr) : option jsstr :=
  match s with
  | c :: s' =>
      if c =? 60 then
        match split_at_gt s' with Some (S _, rest) => Some rest | _ => None end
      else None
  | [] => None
  end.

Fixpoint tags_go (fuel : nat) (s : jsstr) : jsstr :=
  match fuel with
  | O => s
  | S fuel' =>
      match s with
      | [] => []
      | c :: s' =>
          match match_tag s with
          | Some rest => 32 :: tags_go fuel' rest
          | None => c :: tags_go fuel' s'
          end
      end
  end.

(** [.replace(/\s+/g, ' ')] *)
Fixpoint collapse_spaces (in_run : bool) (s : jsstr) : jsstr :=
  match s with
  | [] => []
  | c :: s' =>
      if is_js_space c then (if in_run then collapse_spaces true s' else 32 :: collapse_spaces true s')
      else c :: collapse_spaces false s'
  end.

Definition stripHtml (html : jsstr) : jsstr :=
  trim (collapse_spaces false (tags_go (length html) html)).

(* ------------------------------------------------------------------ *)
(** ** Posts and [loadPosts] *)

Record post := mkPost {
  slug : jsstr;
  title : jsstr;
  date : Z;                       (* time value of the [Date] *)
  isoDate : jsstr;
  formattedDate : jsstr;
  category : jsstr;
  summary : jsstr;
  readingTime : jsstr;
  tags : list jsstr;
  tagSlugs : obj jsstr;
  coverImage : jsstr;
  coverImageAbsolute : jsstr;
  url : jsstr;
  absoluteUrl : jsstr;
  htmlContent : jsstr;
  plainText : jsstr
}.

(** A directory entry read and split by gray-matter: the file name, the
    front-matter object ([parsed.data]) and the body ([parsed.content]). *)
Record source_file := { file_name : jsstr; fm_data : obj yval; fm_content : jsstr }.

Definition has_key (data : obj yval) (k : jsstr) : bool :=
  match assoc k data with Some _ => true | None => false end.

(** [data[k]]; none of the keys read here is a property of
    [Object.prototype]. *)
Definition fm_get (data : obj yval) (k : jsstr) : yval :=
  match assoc k data with Some v => v | None => YUndef end.

Definition REQUIRED_FRONTMATTER_FIELDS : list jsstr :=
  [lit "title"; lit "date"; lit "category"; lit "summary"; lit "readingTime";
   lit "tags"; lit "coverImage"].

Definition missing_fields (data : obj yval) : list jsstr :=
  filter (fun field => negb (has_key data field)) REQUIRED_FRONTMATTER_FIELDS.

(** ["está sem os campos obrigatórios: "] and the other messages. *)
Definition msg_missing : jsstr :=
  lit " est" ++ [225] ++ lit " sem os campos obrigat" ++ [243] ++ lit "rios: ".
Definition msg_no_tags : jsstr :=
  lit " deve ter ao menos uma tag em " ++ dq ++ lit "tags" ++ dq ++ lit ".".
Definition msg_bad_date : jsstr := lit "Data inv" ++ [225] ++ lit "lida em ".

Definition validateFrontmatter (filename : jsstr) (data : obj yval) : result unit :=
  let missing := missing_fields data in
  if Nat.ltb 0 (length missing) then
    Err (filename ++ msg_missing ++ join (lit ", ") missing)
  else
    match fm_get data (lit "tags") with
    | YList (_ :: _) => Ok tt
    | _ => Err (filename ++ msg_no_tags)
    end.

Definition yval_list (v : yval) : list yval :=
  match v with YList l => l | _ => [] end.

(** One iteration of the loop body of [loadPosts]. *)
Definition load_post (pf : platform) (site : site_config) (f : source_file) : result post :=
  let file := file_name f in
  let data := fm_data f in
  _ <- validateFrontmatter file data ;;
  let slug := slugify pf (basename_md file) in
  match date_time pf (fm_get data (lit "date")) with
  | None => Err (msg_bad_date ++ file ++ lit ": " ++ js_String pf (fm_get data (lit "date")))
  | Some d =>
      let tags := filter (fun t => negb (is_empty t))
                    (map (fun tag => trim (js_String pf tag)) (yval_list (fm_get data (lit "tags")))) in
      let tagSlugs := from_entries (map (fun tag => (tag, slugify pf tag)) tags) in
      let htmlContent := addLazyLoadingToImages (md_render pf (fm_content f)) in
      let post_path := YStr (lit "/posts/" ++ slug ++ lit ".html") in
      (* the fields of the object literal are evaluated in order; the two
         calls of [toAbsoluteUrl] are the ones that can throw *)
      coverImageAbsolute <- toAbsoluteUrl pf site (fm_get data (lit "coverImage")) ;;
      absoluteUrl <- toAbsoluteUrl pf site post_path ;;
      Ok {| slug := slug;
            title := trim (js_String pf (fm_get data (lit "title")));
            date := d;
            isoDate := iso_string pf d;
            formattedDate := format_date pf d;
            category := trim (js_String pf (fm_get data (lit "category")));
            summary := trim (js_String pf (fm_get data (lit "summary")));
            readingTime := trim (js_String pf (fm_get data (lit "readingTime")));
            tags := tags;
            tagSlugs := tagSlugs;
            coverImage := toPublicUrl pf site (fm_get data (lit "coverImage"));
            coverImageAbsolute := coverImageAbsolute;
            url := toPublicUrl pf site post_path;
            absoluteUrl := absoluteUrl;
            htmlContent := htmlContent;
            plainText := stripHtml htmlContent |}
  end.

Fixpoint load_all (pf : platform) (site : site_config) (files : list source_file)
  : result (list post) :=
  match files with
  | [] => Ok []
  | f :: fs =>
      p <- load_post pf site f ;;
      ps <- load_all pf site fs ;;
      Ok (p :: ps)
  end.

(** [(a, b) => b.date - a.date] *)
Definition date_desc (a b : post) : Z := date b - date a.

(** [loadPosts]: [files] is the directory listing in [readdir] order. *)
Definition loadPosts (pf : platform) (site : site_config) (files : list source_file)
  : result (list post) :=
  posts <- load_all pf site (filter (fun f => ends_with (lit ".md") (file_name f)) files) ;;
  Ok (sort_by date_desc posts).

(* ------------------------------------------------------------------ *)
(** ** [findRelatedPosts] *)

Definition includes (l : list jsstr) (x : jsstr) : bool := existsb (str_eqb x) l.

Definition score (current p : post) : Z :=
  let sharedTags := Z.of_nat (length (filter (fun tag => includes (tags current) tag) (tags p))) in
  let categoryBonus := if str_eqb (category p) (category current) then 2 else 0 in
  sharedTags + categoryBonus.

Fixpoint collect_scored (current : post) (posts : list post) : list (post * Z) :=
  match posts with
  | [] => []
  | p :: ps =>
      if str_eqb (slug p) (slug current) then collect_scored current ps
      else
        let s := score current p in
        if 0 <? s then (p, s) :: collect_scored current ps
        else collect_scored current ps
  end.

(** [(a, b) => (b.score !== a.score ? b.score - a.score : b.post.date - a.post.date)] *)
Definition related_cmp (a b : post * Z) : Z :=
  if negb (snd b =? snd a) then snd b - snd a else date (fst b) - date (fst a).

Definition findRelatedPosts (current : post) (posts : list post) : list post :=
  let ordered := firstn 3 (map fst (sort_by related_cmp (collect_scored current posts))) in
  if Nat.ltb 0 (length ordered) then ordered
  else firstn 3 (filter (fun p => negb (str_eqb (slug p) (slug current))) posts).

(* ------------------------------------------------------------------ *)
(** ** A concrete platform for the examples

    Exact for the inputs the examples use: ASCII text (which [NFD]
    leaves unchanged and [toLowerCase] maps letter by letter), YAML
    timestamps, and URLs with an [http]/[https] scheme, scheme-relative
    URLs and relative references. *)

Definition cmp_code_units (a b : jsstr) : Z :=
  (fix go (a b : jsstr) : Z :=
     match a, b with
     | [], [] => 0
     | [], _ :: _ => -1
     | _ :: _, [] => 1
     | x :: a', y :: b' => if x =? y then go a' b' else x - y
     end) a b.

Definition url_host (rest : jsstr) : jsstr :=
  map lower_ascii (take_while (fun c => negb ((c =? 47) || (c =? 63) || (c =? 35))) rest).

(** Origin of an absolute URL with an [http] or [https] scheme. *)
Definition http_origin (v : jsstr) : option jsstr :=
  if starts_with_ci (lit "https://") v then Some (lit "https://" ++ url_host (skipn 8 v))
  else if starts_with_ci (lit "http://") v then Some (lit "http://" ++ url_host (skipn 7 v))
  else None.

Definition test_url_origin (v : jsstr) (base : option jsstr) : option jsstr :=
  match http_origin v with
  | Some o => Some o
  | None =>
      match base with
      | None => None
      | Some b =>
          if starts_with (lit "//") v then
            if starts_with_ci (lit "https:") b then Some (lit "https:" ++ lit "//" ++ url_host (skipn 2 v))
            else Some (lit "http:" ++ lit "//" ++ url_host (skipn 2 v))
          else http_origin b
      end
  end.

Definition test_platform : platform := {|
  nfd := fun s => s;
  to_lower := map lower_ascii;
  locale_compare := cmp_code_units;
  date_time := fun v => match v with YDate t => Some t | YNum z => Some z | _ => None end;
  date_string := z_to_dec;
  iso_string := z_to_dec;
  format_date := z_to_dec;
  (* a source opening with a tag is an HTML block, passed through verbatim
     (markdown-it adds no newline when the source ends without one) *)
  md_render := fun s => if starts_with (lit "<") s then s else lit "<p>" ++ s ++ lit "</p>" ++ [10];
  url_href := fun p base => if http_prefix base then Some (base ++ p) else None;
  url_origin := test_url_origin;
  utc_string := fun s => s;
  minify := fun s => Ok s
|}.

Definition test_site : site_config :=
  {| origin := lit "https://miguel-br-dl.github.io"; basePath := [] |}.

Definition test_post (s : string) (tgs : list jsstr) (cat : string) (d : Z) : post :=
  {| slug := lit s; title := lit s; date := d; isoDate := []; formattedDate := [];
     category := lit cat; summary := []; readingTime := []; tags := tgs;
     tagSlugs := []; coverImage := []; coverImageAbsolute := []; url := [];
     absoluteUrl := []; htmlContent := []; plainText := [] |}.

(** The posts of the related-post example of the specification. *)
Definition post_A := test_post "a" [lit "x"; lit "y"] "Tech" 3.
Definition post_B := test_post "b" [lit "x"] "Tech" 2.
Definition post_C := test_post "c" [] "Other" 1.
Definition post_current := test_post "current" [lit "x"; lit "y"] "Tech" 4.

(** Vocabulary of the related-post statements. *)
Definition other_posts (current : post) (posts : list post) : list post :=
  filter (fun p => negb (str_eqb (slug p) (slug current))) posts.

Definition positive_posts (current : post) (posts : list post) : list post :=
  filter (fun p => 0 <? score current p) (other_posts current posts).

(** [p] ranks before [q]: higher score, or equal score and a publish
    date at least as recent. *)
Definition related_le (current p q : post) : Prop :=
  score current q < score current p
  \/ (score current q = score current p /\ date q <= date p).

(* ------------------------------------------------------------------ *)
(** ** [escapeHtml] *)

(** [.replace(/c/g, r)] for a one-character pattern and a replacement
    without [$] patterns. *)
Definition replace_char (c : Z) (r : jsstr) (s : jsstr) : jsstr :=
  flat_map (fun d => if d =? c then r else [d]) s.

Definition escapeHtml (value : jsstr) : jsstr :=
  replace_char 39 (lit "&#39;")
    (replace_char 34 (lit "&quot;")
       (replace_char 62 (lit "&gt;")
          (replace_char 60 (lit "&lt;")
             (replace_char 38 (lit "&amp;") value)))).

Definition escapeXml (value : jsstr) : jsstr := escapeHtml value.

(* ------------------------------------------------------------------ *)
(** ** [buildTagsMap] *)

Record tag_entry := {
  te_title : jsstr; te_summary : jsstr; te_category : jsstr;
  te_date : jsstr; te_url : jsstr; te_coverImage : jsstr
}.

Definition tag_entry_of (p : post) : tag_entry :=
  {| te_title := title p; te_summary := summary p; te_category := category p;
     te_date := formattedDate p; te_url := url p; te_coverImage := coverImage p |}.

(** The inner loop over [post.tags]. [None] is the [TypeError] thrown by
    [tagsMap[tag].push] when [tagsMap[tag]] is a member of
    [Object.prototype] (which has no [push]). *)
Fixpoint add_post_tags (m : obj (list tag_entry)) (p : post) (ts : list jsstr)
  : option (obj (list tag_entry)) :=
  match ts with
  | [] => Some m
  | tag :: ts' =>
      let m1 := match obj_get m tag with Absent => obj_set m tag [] | _ => m end in
      match obj_get m1 tag with
      | Own l => add_post_tags (obj_set m1 tag (l ++ [tag_entry_of p])) p ts'
      | _ => None
      end
  end.

Fixpoint tags_loop (m : obj (list tag_entry)) (posts : list post)
  : option (obj (list tag_entry)) :=
  match posts with
  | [] => Some m
  | p :: ps =>
      match add_post_tags m p (tags p) with
      | Some m' => tags_loop m' ps
      | None => None
      end
  end.

Definition buildTagsMap (pf : platform) (posts : list post) : option (obj (list tag_entry)) :=
  match tags_loop [] posts with
  | None => None
  | Some tagsMap =>
      let keys := sort_by (locale_compare pf) (own_keys tagsMap) in
      Some (fold_left (fun sorted tag =>
                         obj_set sorted tag (match assoc tag tagsMap with Some l => l | None => [] end))
                      keys [])
  end.

(* ------------------------------------------------------------------ *)
(** ** Pages and the sitemap *)

(** A page record; [lastmod] is the time value whose ISO string the
    code stores ([new Date(page.lastmod).toISOString()] gives it back). *)
Record page := { file : jsstr; lastmod : Z }.

Definition post_path (s : jsstr) : jsstr := lit "/posts/" ++ s ++ lit ".html".
Definition tag_path (s : jsstr) : jsstr := lit "/tags/" ++ s ++ lit ".html".

(** The four pages listed at the start of [main], stamped with the
    clock reading [now]. *)
Definition initial_pages (now : Z) : list page :=
  [ {| file := lit "/index.html"; lastmod := now |};
    {| file := lit "/blog.html"; lastmod := now |};
    {| file := lit "/projects.html"; lastmod := now |};
    {| file := lit "/about.html"; lastmod := now |} ].

(** The pushes of [buildPostPages]. *)
Definition post_pages (posts : list post) : list page :=
  map (fun p => {| file := post_path (slug p); lastmod := date p |}) posts.

(** The pushes of [buildTagPages], one per entry of the tag map; [clock]
    gives the reading of [new Date()] in the iteration of each tag. *)
Definition tag_pages (pf : platform) (clock : jsstr -> Z) (tagNames : list jsstr) : list page :=
  map (fun tagName => {| file := tag_path (slugify pf tagName); lastmod := clock tagName |})
      tagNames.

(** The loop of [writeSitemap] with its [seen] set. *)
Fixpoint unique_pages (seen : list jsstr) (pages : list page) : list page :=
  match pages with
  | [] => []
  | pg :: ps =>
      if includes seen (file pg) then unique_pages seen ps
      else pg :: unique_pages (file pg :: seen) ps
  end.

Definition nl : jsstr := [10].

Definition sitemap_url (pf : platform) (site : site_config) (pg : page) : result jsstr :=
  loc <- toAbsoluteUrl pf site (YStr (file pg)) ;;
  Ok (lit "  <url>" ++ nl ++ lit "    <loc>" ++ escapeXml loc
      ++ lit "</loc>" ++ nl ++ lit "    <lastmod>" ++ escapeXml (iso_string pf (lastmod pg))
      ++ lit "</lastmod>" ++ nl ++ lit "  </url>").

(** [Array.prototype.map] with a callback that may throw: the first
    throw, in order, is the one that propagates. *)
Fixpoint map_result {A B} (f : A -> result B) (l : list A) : result (list B) :=
  match l with
  | [] => Ok []
  | x :: xs => y <- f x ;; ys <- map_result f xs ;; Ok (y :: ys)
  end.

Definition sitemap_xml (pf : platform) (site : site_config) (pages : list page) : result jsstr :=
  urls <- map_result (sitemap_url pf site) (unique_pages [] pages) ;;
  Ok (lit "<?xml version=" ++ dq ++ lit "1.0" ++ dq ++ lit " encoding=" ++ dq ++ lit "UTF-8" ++ dq
      ++ lit "?>" ++ nl ++ lit "<urlset xmlns=" ++ dq
      ++ lit "http://www.sitemaps.org/schemas/sitemap/0.9" ++ dq ++ lit ">" ++ nl
      ++ join nl urls ++ nl ++ lit "</urlset>").

(* ------------------------------------------------------------------ *)
(** ** [loadTemplates] *)

Definition template_names : list jsstr :=
  [lit "base"; lit "index"; lit "blog"; lit "post"; lit "projects"; lit "about"; lit "tag"].

(** [loadTemplates]: [Promise.all] rejects when a read fails; the
    rejection reported is taken to be that of the first missing file. *)
Fixpoint read_templates (tmpl_fs : obj jsstr) (names : list jsstr) : result (obj jsstr) :=
  match names with
  | [] => Ok []
  | n :: ns =>
      match assoc (n ++ lit ".html") tmpl_fs with
      | None => Err (lit "ENOENT: no such file or directory, open '" ++ n ++ lit ".html'")
      | Some content =>
          rest <- read_templates tmpl_fs ns ;;
          Ok ((n, content) :: rest)
      end
  end.

Definition loadTemplates (tmpl_fs : obj jsstr) : result (obj jsstr) :=
  read_templates tmpl_fs template_names.

Definition msg_push_type_error : jsstr :=
  lit "TypeError: tagsMap[tag].push is not a function".

(** Files for the examples: a complete front matter dated [d]. *)
Definition full_data (d : Z) : obj yval :=
  [(lit "title", YStr (lit "Title")); (lit "date", YDate d);
   (lit "category", YStr (lit "Tech")); (lit "summary", YStr (lit "Summary"));
   (lit "readingTime", YStr (lit "5 min")); (lit "tags", YList [YStr (lit "Angular")]);
   (lit "coverImage", YStr (lit "/assets/images/cover.png"))].

Definition without (k : string) (data : obj yval) : obj yval :=
  filter (fun kv => negb (str_eqb (fst kv) (lit k))) data.

Definition test_templates : obj jsstr :=
  map (fun n => (n ++ lit ".html", lit "{{content}}")) template_names.

Definition same_day_files : list source_file :=
  [ {| file_name := lit "first.md"; fm_data := full_data 1771027200000; fm_content := lit "One" |};
    {| file_name := lit "second.md"; fm_data := full_data 1771027200000; fm_content := lit "Two" |} ].

Definition two_invalid_files : list source_file :=
  [ {| file_name := lit "a.md"; fm_data := without "title" (full_data 1); fm_content := [] |};
    {| file_name := lit "b.md"; fm_data := without "summary" (full_data 2); fm_content := [] |} ].

Definition loaded_same_day : list post :=
  match loadPosts test_platform test_site same_day_files with Ok ps => ps | Err _ => [] end.

(* ------------------------------------------------------------------ *)
(** ** [renderTemplate] *)

(** Values of the parameter objects (all strings at the call sites). *)
Inductive jsval := JUndefined | JNull | JString (s : jsstr).

Definition is_name_char (c : Z) : bool :=
  ((48 <=? c) && (c <=? 57)) || ((65 <=? c) && (c <=? 90))
  || ((97 <=? c) && (c <=? 122)) || (c =? 95).

(** [/{{\s*([a-zA-Z0-9_]+)\s*}}/] at the start of [s]: the captured
    name and the rest after the match. The classes [\s] and
    [[a-zA-Z0-9_]] are disjoint and the greedy loops never backtrack. *)
Definition match_placeholder (s : jsstr) : option (jsstr * jsstr) :=
  if starts_with (lit "{{") s then
    let r2 := drop_spaces (skipn 2 s) in
    let key := take_while is_name_char r2 in
    if is_empty key then None
    else
      let r4 := drop_spaces (skipn (length key) r2) in
      if starts_with (lit "}}") r4 then Some (key, skipn 2 r4) else None
  else None.

(** The replacer: [value === undefined || value === null ? '' : String(value)]
    with [value = params[key]]. *)
Definition param_string (params : obj jsval) (key : jsstr) : jsstr :=
  match obj_get params key with
  | Own (JString v) => v
  | Own _ => []
  | Proto k => proto_member_string k
  | Absent => []
  end.

Fixpoint render_go (params : obj jsval) (fuel : nat) (s : jsstr) : jsstr :=
  match fuel with
  | O => s
  | S fuel' =>
      match s with
      | [] => []
      | c :: s' =>
          match match_placeholder s with
          | Some (key, rest) => param_string params key ++ render_go params fuel' rest
          | None => c :: render_go params fuel' s'
          end
      end
  end.

Definition renderTemplate (template : jsstr) (params : obj jsval) : jsstr :=
  render_go params (length template) template.

(** Inputs of the slug and image examples. *)
Definition long_name : jsstr := repeat 97 79 ++ lit " b".
Definition upper_img_md : jsstr := lit "<IMG src=" ++ dq ++ lit "a.png" ++ dq ++ lit ">".

(* ------------------------------------------------------------------ *)
(** ** External links in rendered Markdown *)

(** [isExternalLink(href)]; [href] is [token.attrGet('href')], [None]
    standing for [null]. [new URL(value, SITE.origin).origin] and
    [new URL(SITE.origin).origin] are [url_origin]; [None] is a throw. *)
Definition isExternalLink (pf : platform) (site : site_config) (href : option jsstr) : bool :=
  match href with
  | None => false
  | Some h =>
      if is_empty h then false
      else
        let value := trim h in
        if is_empty value || starts_with (lit "#") value || starts_with (lit "/") value then false
        else if starts_with_ci (lit "mailto:") value || starts_with_ci (lit "tel:") value
                || starts_with_ci (lit "javascript:") value then false
        else
          match url_origin pf value (Some (origin site)), url_origin pf (origin site) None with
          | Some linkOrigin, Some siteOrigin => negb (str_eqb linkOrigin siteOrigin)
          | _, _ => false
          end
  end.

(** markdown-it's [Token#attrGet] and [Token#attrSet] on the attribute
    list [[name, value]]: the first entry with that name is read or
    overwritten in place; [attrSet] appends when there is none. *)
Definition attrGet (attrs : list (jsstr * jsstr)) (name : jsstr) : option jsstr :=
  match find (fun kv => str_eqb (fst kv) name) attrs with
  | Some (_, v) => Some v
  | None => None
  end.

Fixpoint attrSet (attrs : list (jsstr * jsstr)) (name value : jsstr) : list (jsstr * jsstr) :=
  match attrs with
  | [] => [(name, value)]
  | (k, v) :: rest =>
      if str_eqb k name then (name, value) :: rest else (k, v) :: attrSet rest name value
  end.

(** markdown-it's [escapeHtml]: ampersand, less-than, greater-than and
    the double quote become entities. *)
Definition md_escapeHtml (s : jsstr) : jsstr :=
  flat_map (fun c => if c =? 38 then lit "&amp;" else if c =? 60 then lit "&lt;"
                     else if c =? 62 then lit "&gt;" else if c =? 34 then lit "&quot;"
                     else [c]) s.

(** [Renderer#renderAttrs]. *)
Definition renderAttrs (attrs : list (jsstr * jsstr)) : jsstr :=
  flat_map (fun kv => lit " " ++ md_escapeHtml (fst kv) ++ lit "=" ++ dq
                      ++ md_escapeHtml (snd kv) ++ dq) attrs.

(** The attributes after the [link_open] rule of the configured renderer. *)
Definition link_open_attrs (pf : platform) (site : site_config) (attrs : list (jsstr * jsstr))
  : list (jsstr * jsstr) :=
  if isExternalLink pf site (attrGet attrs (lit "href"))
  then attrSet (attrSet attrs (lit "target") (lit "_blank")) (lit "rel") (lit "noopener noreferrer")
  else attrs.

(** [defaultLinkRenderer] is [renderToken] on the inline token [a]. *)
Definition render_link_open (pf : platform) (site : site_config) (attrs : list (jsstr * jsstr))
  : jsstr :=
  lit "<a" ++ renderAttrs (link_open_attrs pf site attrs) ++ lit ">".

(** The inline tokens involved in links: markdown-it parses a Markdown
    link into [link_open] / [link_close] around its text, and (with
    [html: true]) an inline HTML tag such as [<a href=...>] into an
    [html_inline] token output verbatim by its default rule. *)
Inductive md_token :=
| TLinkOpen (attrs : list (jsstr * jsstr))
| TLinkClose
| TText (content : jsstr)
| THtmlInline (content : jsstr).

Definition render_token (pf : platform) (site : site_config) (t : md_token) : jsstr :=
  match t with
  | TLinkOpen attrs => render_link_open pf site attrs
  | TLinkClose => lit "</a>"
  | TText s => md_escapeHtml s
  | THtmlInline s => s
  end.

(** [Renderer#renderInline]. *)
Definition renderInline (pf : platform) (site : site_config) (ts : list md_token) : jsstr :=
  flat_map (render_token pf site) ts.

(** The hrefs whose [link_open] token is rendered as it is. *)
Definition exempt_href (pf : platform) (site : site_config) (href : option jsstr) : Prop :=
  match href with
  | None => True
  | Some v =>
      trim v = []
      \/ starts_with (lit "#") (trim v) = true
      \/ (starts_with (lit "/") (trim v) = true /\ starts_with (lit "//") (trim v) = false)
      \/ starts_with_ci (lit "mailto:") (trim v) = true
      \/ starts_with_ci (lit "tel:") (trim v) = true
      \/ starts_with_ci (lit "javascript:") (trim v) = true
      \/ url_origin pf (trim v) (Some (origin site)) = None
      \/ url_origin pf (origin site) None = None
      \/ url_origin pf (trim v) (Some (origin site)) = url_origin pf (origin site) None
  end.

Definition external_token : list (jsstr * jsstr) := [(lit "href", lit "https://example.com/")].

(** Posts of the tag-map examples. *)
Definition post_numeric_tags : post := test_post "numeric" [lit "9"; lit "10"] "Tech" 0.
Definition post_proto_tag : post := test_post "proto" [lit "constructor"] "Tech" 0.

(** The page records of a build, in push order: the four static pages
    stamped at [now], then [buildPostPages], then [buildTagPages]. *)
Definition build_pages (pf : platform) (now : Z) (clock : jsstr -> Z)
  (posts : list post) (tagNames : list jsstr) : list page :=
  initial_pages now ++ post_pages posts ++ tag_pages pf clock tagNames.

(* ------------------------------------------------------------------ *)
(** ** Card, option and feed markup *)

(** [`${post.tagSlugs[tag]}`] *)
Definition slug_lookup (o : obj jsstr) (k : jsstr) : jsstr :=
  match obj_get o k with
  | Own v => v
  | Proto k' => proto_member_string k'
  | Absent => lit "undefined"
  end.

Definition tag_link (pf : platform) (site : site_config) (post : post) (tag : jsstr) : jsstr :=
      lit "<a class=" ++ dq ++ lit "tag-link" ++ dq ++ lit " href=" ++ dq ++
      toPublicUrl pf site (YStr (lit "/tags/" ++ slug_lookup (tagSlugs post) tag ++ lit ".html")) ++
      dq ++ lit ">#" ++ escapeHtml tag ++ lit "</a>".

Definition renderArticleCard (pf : platform) (site : site_config) (post : post) : jsstr :=
  let tags_html := join [] (map (tag_link pf site post) (tags post)) in
  nl ++ lit "    <article class=" ++ dq ++ lit "article-card" ++ dq ++ lit ">" ++ nl ++
  lit "      <img class=" ++ dq ++ lit "card-cover" ++ dq ++ lit " src=" ++ dq ++
  escapeHtml (coverImage post) ++ dq ++ lit " alt=" ++ dq ++ lit "Capa de " ++
  escapeHtml (title post) ++ dq ++ lit " loading=" ++ dq ++ lit "lazy" ++ dq ++ lit ">" ++
  nl ++ lit "      <div class=" ++ dq ++ lit "card-body" ++ dq ++ lit ">" ++ nl ++
  lit "        <p class=" ++ dq ++ lit "card-meta" ++ dq ++ lit ">" ++
  escapeHtml (category post) ++ lit " " ++ [183] ++ lit " " ++
  escapeHtml (formattedDate post) ++ lit "</p>" ++ nl ++ lit "        <h2 class=" ++ dq ++
  lit "card-title" ++ dq ++ lit "><a href=" ++ dq ++ escapeHtml (url post) ++ dq ++
  lit ">" ++ escapeHtml (title post) ++ lit "</a></h2>" ++ nl ++ lit "        <p class=" ++
  dq ++ lit "card-summary" ++ dq ++ lit ">" ++ escapeHtml (summary post) ++ lit "</p>" ++
  nl ++ lit "        <div class=" ++ dq ++ lit "tags-row" ++ dq ++ lit ">" ++ tags_html ++
  lit "</div>" ++ nl ++ lit "      </div>" ++ nl ++ lit "    </article>" ++ nl ++ lit "  ".

Definition renderRelatedCard (post : post) : jsstr :=
  nl ++ lit "    <article class=" ++ dq ++ lit "related-card" ++ dq ++ lit ">" ++ nl ++
  lit "      <p class=" ++ dq ++ lit "card-meta" ++ dq ++ lit ">" ++
  escapeHtml (category post) ++ lit "</p>" ++ nl ++ lit "      <h3><a href=" ++ dq ++
  escapeHtml (url post) ++ dq ++ lit ">" ++ escapeHtml (title post) ++ lit "</a></h3>" ++
  nl ++ lit "      <p>" ++ escapeHtml (summary post) ++ lit "</p>" ++ nl ++
  lit "    </article>" ++ nl ++ lit "  ".

(** The card of an entry on a tag page ([buildTagPages]). *)
Definition tag_card (entry : tag_entry) : jsstr :=
    nl ++ lit "        <article class=" ++ dq ++ lit "article-card" ++ dq ++ lit ">" ++
    nl ++ lit "          <img class=" ++ dq ++ lit "card-cover" ++ dq ++ lit " src=" ++
    dq ++ escapeHtml (te_coverImage entry) ++ dq ++ lit " alt=" ++ dq ++ lit "Capa de " ++
    escapeHtml (te_title entry) ++ dq ++ lit " loading=" ++ dq ++ lit "lazy" ++ dq ++
    lit ">" ++ nl ++ lit "          <div class=" ++ dq ++ lit "card-body" ++ dq ++
    lit ">" ++ nl ++ lit "            <p class=" ++ dq ++ lit "card-meta" ++ dq ++
    lit ">" ++ escapeHtml (te_category entry) ++ lit " " ++ [183] ++ lit " " ++
    escapeHtml (te_date entry) ++ lit "</p>" ++ nl ++ lit "            <h2 class=" ++ dq ++
    lit "card-title" ++ dq ++ lit "><a href=" ++ dq ++ escapeHtml (te_url entry) ++ dq ++
    lit ">" ++ escapeHtml (te_title entry) ++ lit "</a></h2>" ++ nl ++
    lit "            <p class=" ++ dq ++ lit "card-summary" ++ dq ++ lit ">" ++
    escapeHtml (te_summary entry) ++ lit "</p>" ++ nl ++ lit "          </div>" ++ nl ++
    lit "        </article>" ++ nl ++ lit "      ".

(** The options of the category and tag filters ([buildBlogPage]). *)
Definition category_option (category : jsstr) : jsstr :=
  lit "<option value=" ++ dq ++ escapeHtml category ++ dq ++ lit ">" ++
  escapeHtml category ++ lit "</option>".

Definition tag_option (tag : jsstr) : jsstr :=
  lit "<option value=" ++ dq ++ escapeHtml tag ++ dq ++ lit ">" ++ escapeHtml tag ++
  lit "</option>".

(** An item of the feed ([writeRss]). *)
Definition rss_item (pf : platform) (post : post) : jsstr :=
  nl ++ lit "    <item>" ++ nl ++ lit "      <title>" ++ escapeXml (title post) ++
  lit "</title>" ++ nl ++ lit "      <description>" ++ escapeXml (summary post) ++
  lit "</description>" ++ nl ++ lit "      <link>" ++ escapeXml (absoluteUrl post) ++
  lit "</link>" ++ nl ++ lit "      <guid>" ++ escapeXml (absoluteUrl post) ++
  lit "</guid>" ++ nl ++ lit "      <pubDate>" ++ utc_string pf (isoDate post) ++
  lit "</pubDate>" ++ nl ++ lit "      <category>" ++ escapeXml (category post) ++
  lit "</category>" ++ nl ++ lit "    </item>".

(** The characters that open or close tags and attribute values. *)
Definition is_markup (c : Z) : bool := (c =? 60) || (c =? 62) || (c =? 34) || (c =? 39).
Definition markup (s : jsstr) : jsstr := filter is_markup s.

(** The five entities produced by [escapeHtml], after their [&]. *)
Definition entities : list jsstr := [lit "amp;"; lit "lt;"; lit "gt;"; lit "quot;"; lit "#39;"].

(** Every own value of a post's [tagSlugs] is made of characters
    [a-z], [0-9] and [-]. *)
Definition safe_slugs (p : post) : Prop :=
  forall k v, assoc k (tagSlugs p) = Some v -> Forall (fun c => is_slug_char c = true \/ c = hyphen) v.

(** [escapeHtml] on one character. *)
Definition esc_char (c : Z) : jsstr :=
  if c =? 38 then lit "&amp;" else if c =? 60 then lit "&lt;" else if c =? 62 then lit "&gt;"
  else if c =? 34 then lit "&quot;" else if c =? 39 then lit "&#39;" else [c].

(** Every [&] of [s] is followed by one of the [entities]. *)
Fixpoint amp_ok (s : jsstr) : bool :=
  match s with
  | [] => true
  | c :: s' => (if c =? 38 then existsb (fun e => starts_with e s') entities else true) && amp_ok s'
  end.

(** Statement vocabulary of the lemmas. *)
Definition cmp_le {A} (cmp : A -> A -> Z) (x y : A) : Prop := cmp x y <= 0.

Definition related_key_cmp (current : post) (p q : post) : Z :=
  related_cmp (p, score current p) (q, score current q).

Definition is_md (f : source_file) : bool := ends_with (lit ".md") (file_name f).

Definition slug_or_hyphen (c : Z) : Prop := is_slug_char c = true \/ c = hyphen.

(* ------------------------------------------------------------------ *)
(** ** Site configuration ([SITE])

    The environment variables are strings; an unset one reads as [''],
    the value [process.env.X || ''] and [||] give it. *)

Fixpoint drop_leading (p : Z -> bool) (s : jsstr) : jsstr :=
  match s with
  | c :: s' => if p c then drop_leading p s' else s
  | [] => []
  end.

Definition is_slash (c : Z) : bool := c =? 47.

(** [.replace(/^\/+|\/+$/g, '')]: the leading run of slashes and then the
    trailing run of what is left (a string of slashes only is consumed by
    the first alternative). *)
Definition strip_edge_slashes (s : jsstr) : jsstr :=
  rev (drop_leading is_slash (rev (drop_leading is_slash s))).

Definition normalizeBasePath (basePath : jsstr) : jsstr :=
  if is_empty basePath || str_eqb basePath (lit "/") then []
  else
    let clean := 47 :: strip_edge_slashes (trim basePath) in
    if str_eqb clean (lit "/") then [] else clean.

Definition default_origin : jsstr := lit "https://miguel-br-dl.github.io".

(** [String(origin || '').replace(/\/+$/, '') || 'https://miguel-br-dl.github.io'] *)
Definition normalizeOrigin (origin : jsstr) : jsstr :=
  let stripped := rev (drop_leading is_slash (rev origin)) in
  if is_empty stripped then default_origin else stripped.

Definition inferDefaultOrigin (repositoryOwner : jsstr) : jsstr :=
  if is_empty repositoryOwner then default_origin
  else lit "https://" ++ repositoryOwner ++ lit ".github.io".

(** [String.prototype.split('/')]. *)
Fixpoint split_slash (s : jsstr) : list jsstr :=
  match s with
  | [] => [[]]
  | c :: s' =>
      let parts := split_slash s' in
      if c =? 47 then [] :: parts
      else match parts with
           | p :: ps => (c :: p) :: ps
           | [] => [[c]]
           end
  end.

(** [const [owner, repo] = String(repository).split('/')]; a missing
    element is [undefined], which [!repo] rejects like [''].  *)
Definition inferBasePathFromRepository (pf : platform) (repository : jsstr) : jsstr :=
  match split_slash repository with
  | owner :: repo :: _ =>
      if is_empty owner || is_empty repo then []
      else if str_eqb (to_lower pf repo) (to_lower pf owner ++ lit ".github.io") then []
      else 47 :: repo
  | _ => []
  end.

(** [SITE.origin] and [SITE.basePath] from [SITE_URL], [BASE_PATH],
    [GITHUB_REPOSITORY] and [GITHUB_REPOSITORY_OWNER]. *)
Definition site_of (pf : platform) (site_url base_path repository repository_owner : jsstr)
  : site_config :=
  {| origin := normalizeOrigin (if is_empty site_url then inferDefaultOrigin repository_owner
                                else site_url);
     basePath := normalizeBasePath (if is_empty base_path
                                    then inferBasePathFromRepository pf repository
                                    else base_path) |}.

(** The shape of a normalized base path: empty, or a slash followed by a
    non-empty text that neither starts nor ends with a slash. *)
Definition base_path_shape (b : jsstr) : Prop :=
  b = [] \/ exists c r, b = 47 :: c :: r /\ c <> 47 /\ last (c :: r) 0 <> 47.

(** No whitespace at either end. *)
Definition starts_ns (s : jsstr) : Prop :=
  match s with [] => True | c :: _ => is_js_space c = false end.

Definition not_starting (p : Z -> bool) (s : jsstr) : Prop :=
  match s with [] => True | c :: _ => p c = false end.

(** A whitespace character is a plain space. *)
Definition space_is_blank (c : Z) : Prop := is_js_space c = true -> c = 32.

(** Statement vocabulary of the tag-map lemmas: how often tag [t]
    occurs in a tag list, the entries [buildTagsMap] is expected to
    collect for [t], whether some post carries [t], and the names of the
    members of [Object.prototype]. *)
Definition tag_count (t : jsstr) (ts : list jsstr) : nat := length (filter (str_eqb t) ts).

Definition tag_entries (posts : list post) (t : jsstr) : list tag_entry :=
  flat_map (fun p => repeat (tag_entry_of p) (tag_count t (tags p))) posts.

Definition tagged (posts : list post) (t : jsstr) : bool :=
  existsb (fun p => includes (tags p) t) posts.

Definition is_proto_key (t : jsstr) : bool := existsb (str_eqb t) object_prototype_keys.

(** [tagsMap[tag]] as read after the loop. *)
Definition entries_or_nil (m : obj (list tag_entry)) (t : jsstr) : list tag_entry :=
  match assoc t m with Some l => l | None => [] end.

(** A hyphen, the separator of slugs. *)
Definition is_hyphen (c : Z) : bool := c =? hyphen.

(** ** [renderLayout] *)

Definition SITE_name : jsstr := lit "Miguel Angelo Moutinho".

Definition SITE_description : jsstr :=
  lit "Blog e portf" ++ [243] ++ lit "lio t" ++ [233] ++ lit "cnico sobre Java, Python e Intelig"
  ++ [234] ++ lit "ncia Artificial para desenvolvedores.".

Definition SITE_adsClient : jsstr := lit "ca-pub-2236242824534513".

(** [`${SITE.name} | Blog e Portfólio Técnico`] *)
Definition layout_title : jsstr :=
  SITE_name ++ lit " | Blog e Portf" ++ [243] ++ lit "lio T" ++ [233] ++ lit "cnico".

(** The object literal [defaultParams]; its two [toAbsoluteUrl] calls,
    evaluated in order, may throw. *)
Definition defaultParams (pf : platform) (site : site_config) : result (obj jsval) :=
  canonicalUrl <- toAbsoluteUrl pf site (YStr (lit "/index.html")) ;;
  ogImage <- toAbsoluteUrl pf site (YStr (lit "/assets/images/about-profile.png")) ;;
  Ok
  [(lit "metaTitle", JString layout_title);
   (lit "metaDescription", JString SITE_description);
   (lit "canonicalUrl", JString canonicalUrl);
   (lit "ogTitle", JString layout_title);
   (lit "ogDescription", JString SITE_description);
   (lit "ogImage", JString ogImage);
   (lit "ogType", JString (lit "website"));
   (lit "content", JString []);
   (lit "adsClient", JString SITE_adsClient);
   (lit "stylesUrl", JString (toPublicUrl pf site (YStr (lit "/assets/css/styles.css"))));
   (lit "highlightStylesUrl", JString (toPublicUrl pf site (YStr (lit "/assets/css/highlight.css"))));
   (lit "mainJsUrl", JString (toPublicUrl pf site (YStr (lit "/assets/js/main.js"))));
   (lit "pageScripts", JString []);
   (lit "headExtra", JString []);
   (lit "homeUrl", JString (toPublicUrl pf site (YStr (lit "/index.html"))));
   (lit "blogUrl", JString (toPublicUrl pf site (YStr (lit "/blog.html"))));
   (lit "projectsUrl", JString (toPublicUrl pf site (YStr (lit "/projects.html"))));
   (lit "aboutUrl", JString (toPublicUrl pf site (YStr (lit "/about.html"))));
   (lit "basePath", JString (basePath site))].

(** [{ ...target, ...source }] for the part [...source]: the own
    properties of [source], in [OrdinaryOwnPropertyKeys] order, are
    created on the target ([CreateDataProperty]: an existing key keeps
    its place and takes the new value). *)
Definition spread {V} (target source : obj V) : obj V :=
  fold_left (fun acc k => match assoc k source with Some v => obj_set acc k v | None => acc end)
    (own_keys source) target.

(** [{ ...defaultParams, ...params }] *)
Definition layout_params (defaults : obj jsval) (params : obj jsval) : obj jsval :=
  spread (spread [] defaults) params.

Definition renderLayout (pf : platform) (site : site_config) (baseTemplate : jsstr)
  (params : obj jsval) : result jsstr :=
  defaults <- defaultParams pf site ;;
  Ok (renderTemplate baseTemplate (layout_params defaults params)).


(* ------------------------------------------------------------------ *)
(** ** [main]

    A run of [main] is modelled in a writer-error monad: a stage either
    throws, which rejects [main()] with that error and ends the run, or
    succeeds, after appending the paths (relative to [build/]) of the
    files it wrote to the log. The log keeps paths, not contents:
    [fs.writeFile], [fs.mkdir] and [fs.copyFile] into the freshly
    recreated output directory are taken to succeed. *)

Definition build (A : Type) : Type := list jsstr -> result A * list jsstr.

Definition ret {A} (a : A) : build A := fun out => (Ok a, out).

Definition bindB {A B} (m : build A) (k : A -> build B) : build B :=
  fun out => match m out with
             | (Ok a, out') => k a out'
             | (Err e, out') => (Err e, out')
             end.

Definition throw {A} (e : jsstr) : build A := fun out => (Err e, out).

Definition liftR {A} (r : result A) : build A :=
  match r with Ok a => ret a | Err e => throw e end.

(** The file [filepath] is written (or copied). *)
Definition write (filepath : jsstr) : build unit := fun out => (Ok tt, out ++ [filepath]).

Notation "'let!' x ':=' m 'in' k" := (bindB m (fun x => k))
  (at level 200, x name, m at level 100, k at level 200).

(** [fs.writeFile(filepath, content, 'utf8')] *)
Definition writeFile (filepath : jsstr) (content : jsstr) : build unit := write filepath.

(** [writeHtml]: the promise returned by [minify] is awaited first. *)
Definition writeHtml (pf : platform) (filepath html : jsstr) : build unit :=
  let! minified := liftR (minify pf html) in
  writeFile filepath minified.

(** [writeJson]: [JSON.stringify] of the plain data given here does not throw. *)
Definition writeJson (filepath : jsstr) : build unit := write filepath.

(** [fs.cp(ASSETS_DIR, build/assets, { recursive: true })] rejects when
    [src/assets] does not exist ([assets = false]); Node's message
    carries the absolute path of the directory. *)
Definition msg_no_assets : jsstr :=
  (lit "ENOENT: no such file or directory, lstat 'src/assets'").

Definition copyAssets (assets : bool) : build unit :=
  if assets then write (lit "assets") else throw msg_no_assets.

(** [copyAdsFile]: a missing [ads.txt] is ignored. *)
Definition copyAdsFile (ads : bool) : build unit :=
  if ads then write (lit "ads.txt") else ret tt.

(** [templates.<name>] *)
Definition tmpl (templates : obj jsstr) (name : string) : jsstr :=
  match assoc (lit name) templates with Some t => t | None => [] end.

(** [Array.from(new Set(values))]: first occurrences, in order. *)
Fixpoint set_values (seen : list jsstr) (values : list jsstr) : list jsstr :=
  match values with
  | [] => []
  | v :: vs => if includes seen v then set_values seen vs else v :: set_values (v :: seen) vs
  end.

Definition categories_of (pf : platform) (posts : list post) : list jsstr :=
  sort_by (locale_compare pf) (set_values [] (map category posts)).

(** A [buildTagsMap] that throws, as a result. *)
Definition tags_map_result (pf : platform) (posts : list post) : result (obj (list tag_entry)) :=
  match buildTagsMap pf posts with Some m => Ok m | None => Err msg_push_type_error end.

Definition buildHomePage (pf : platform) (site : site_config) (templates : obj jsstr)
  (posts : list post) : build unit :=
  let latestPosts := join [] (map (renderArticleCard pf site) (firstn 3 posts)) in
  let content := renderTemplate (tmpl templates "index")
    [(lit "latestPosts", JString latestPosts);
     (lit "blogUrl", JString (toPublicUrl pf site (YStr (lit "/blog.html"))));
     (lit "projectsUrl", JString (toPublicUrl pf site (YStr (lit "/projects.html"))));
     (lit "adsClient", JString SITE_adsClient)] in
  let! canonicalUrl := liftR (toAbsoluteUrl pf site (YStr (lit "/index.html"))) in
  let! ogImage := liftR (toAbsoluteUrl pf site (YStr (lit "/assets/images/about-profile.png"))) in
  let! html := liftR (renderLayout pf site (tmpl templates "base")
    [(lit "content", JString content);
     (lit "metaTitle", JString layout_title);
     (lit "metaDescription", JString SITE_description);
     (lit "canonicalUrl", JString canonicalUrl);
     (lit "ogTitle", JString layout_title);
     (lit "ogDescription", JString SITE_description);
     (lit "ogImage", JString ogImage);
     (lit "ogType", JString (lit "website"))]) in
  writeHtml pf (lit "index.html") html.

Definition blog_pageScripts (pf : platform) (site : site_config) : jsstr :=
  (nl ++ lit "  <script src=" ++ dq ++
    lit "https://cdn.jsdelivr.net/npm/fuse.js@7.0.0/dist/fuse.min.js" ++ dq ++
    lit " defer></script>" ++ nl ++ lit "  <script src=" ++ dq ++
    (toPublicUrl pf site (YStr (lit "/assets/js/search.js"))) ++ dq ++
    lit " defer></script>").

Definition buildBlogPage (pf : platform) (site : site_config) (templates : obj jsstr)
  (posts : list post) (categories : list jsstr) (tagsMap : obj (list tag_entry)) : build unit :=
  let categoryOptions := join [] (map category_option categories) in
  let tagOptions := join [] (map tag_option (own_keys tagsMap)) in
  let blogCards := join [] (map (renderArticleCard pf site) posts) in
  let content := renderTemplate (tmpl templates "blog")
    [(lit "categoryOptions", JString categoryOptions);
     (lit "tagOptions", JString tagOptions);
     (lit "blogCards", JString blogCards);
     (lit "postsCount", JString (z_to_dec (Z.of_nat (length posts))))] in
  let! canonicalUrl := liftR (toAbsoluteUrl pf site (YStr (lit "/blog.html"))) in
  let! ogImage := liftR (toAbsoluteUrl pf site (YStr (lit "/assets/images/front-end-news.png"))) in
  let! html := liftR (renderLayout pf site (tmpl templates "base")
    [(lit "content", JString content);
     (lit "metaTitle", JString ((lit "Blog | ") ++ SITE_name));
     (lit "metaDescription", JString (lit "Artigos sobre backend, frontend e IA com aplica" ++ [231; 227] ++ lit "o pr" ++
    [225] ++ lit "tica."));
     (lit "canonicalUrl", JString canonicalUrl);
     (lit "ogTitle", JString ((lit "Blog T" ++ [233] ++ lit "cnico | ") ++ SITE_name));
     (lit "ogDescription", JString (lit "Busca local por t" ++ [237] ++ lit "tulo, resumo, tags e categoria."));
     (lit "ogImage", JString ogImage);
     (lit "ogType", JString (lit "website"));
     (lit "pageScripts", JString (blog_pageScripts pf site))]) in
  writeHtml pf (lit "blog.html") html.

Record project := { p_title : jsstr; p_stack : jsstr; p_description : jsstr;
                    p_url : jsstr; p_github : jsstr }.

Definition projects (pf : platform) (site : site_config) : list project :=
  [ {| p_title := (lit "Meme Generator Receita");
       p_stack := (lit "HTML " ++ [183] ++ lit " CSS " ++ [183] ++ lit " JavaScript");
       p_description :=
         (lit "Gerador de memes com templates customiz" ++ [225] ++
    lit "veis e interface otimizada para cria" ++ [231; 227] ++ lit "o r" ++ [225] ++
    lit "pida.");
       p_url := (lit "https://miguel-br-dl.github.io/meme_generator_receita/");
       p_github := (lit "https://github.com/miguel-br-dl/meme_generator_receita") |};
    {| p_title := (lit "Pipeline de Conte" ++ [250] ++ lit "do Est" ++ [225] ++ lit "tico");
       p_stack := (lit "Node.js " ++ [183] ++ lit " Markdown " ++ [183] ++ lit " CI/CD");
       p_description :=
         (lit "Automa" ++ [231; 227] ++ lit "o de build para transformar Markdown em p" ++ [225] ++
    lit "ginas HTML com SEO e distribui" ++ [231; 227] ++ lit "o cont" ++ [237] ++
    lit "nua.");
       p_url := toPublicUrl pf site (YStr (lit "/blog.html"));
       p_github := (lit "https://github.com/miguel-br-dl") |};
    {| p_title := (lit "Laborat" ++ [243] ++ lit "rio de IA Aplicada");
       p_stack := (lit "Python " ++ [183] ++ lit " APIs " ++ [183] ++ lit " Automa" ++ [231; 227] ++
    lit "o");
       p_description :=
         (lit "Experimentos de produtividade para engenharia de software com integra" ++
    [231; 227] ++ lit "o de IA em fluxos reais.");
       p_url := toPublicUrl pf site (YStr (lit "/about.html"));
       p_github := (lit "https://github.com/miguel-br-dl") |} ].

Definition project_card (project : project) : jsstr :=
  (nl ++ lit "      <article class=" ++ dq ++ lit "project-card" ++ dq ++ lit ">" ++ nl ++
    lit "        <h2>" ++ (escapeHtml (p_title project)) ++ lit "</h2>" ++ nl ++
    lit "        <p class=" ++ dq ++ lit "project-stack" ++ dq ++ lit ">" ++
    (escapeHtml (p_stack project)) ++ lit "</p>" ++ nl ++ lit "        <p>" ++
    (escapeHtml (p_description project)) ++ lit "</p>" ++ nl ++ lit "        <p><a href=" ++
    dq ++ (escapeHtml (p_url project)) ++ dq ++ lit " target=" ++ dq ++ lit "_blank" ++ dq ++
    lit " rel=" ++ dq ++ lit "noopener noreferrer" ++ dq ++ lit ">Abrir projeto</a> " ++
    [183] ++ lit " <a href=" ++ dq ++ (escapeHtml (p_github project)) ++ dq ++
    lit " target=" ++ dq ++ lit "_blank" ++ dq ++ lit " rel=" ++ dq ++
    lit "noopener noreferrer" ++ dq ++ lit ">GitHub</a></p>" ++ nl ++ lit "      </article>" ++
    nl ++ lit "    ").

Definition buildProjectsPage (pf : platform) (site : site_config) (templates : obj jsstr)
  : build unit :=
  let projectCards := join [] (map project_card (projects pf site)) in
  let content := renderTemplate (tmpl templates "projects")
    [(lit "projectCards", JString projectCards)] in
  let! canonicalUrl := liftR (toAbsoluteUrl pf site (YStr (lit "/projects.html"))) in
  let! ogImage := liftR (toAbsoluteUrl pf site (YStr (lit "/assets/images/front-end-news.png"))) in
  let! html := liftR (renderLayout pf site (tmpl templates "base")
    [(lit "content", JString content);
     (lit "metaTitle", JString ((lit "Projetos | ") ++ SITE_name));
     (lit "metaDescription",
      JString (lit "Projetos t" ++ [233] ++
    lit "cnicos com foco em engenharia de software e entregas profissionais."));
     (lit "canonicalUrl", JString canonicalUrl);
     (lit "ogTitle", JString ((lit "Projetos T" ++ [233] ++ lit "cnicos | ") ++ SITE_name));
     (lit "ogDescription", JString (lit "Cards de projetos com stack e links de c" ++ [243] ++ lit "digo."));
     (lit "ogImage", JString ogImage);
     (lit "ogType", JString (lit "website"))]) in
  writeHtml pf (lit "projects.html") html.

Definition buildAboutPage (pf : platform) (site : site_config) (templates : obj jsstr)
  : build unit :=
  let content := renderTemplate (tmpl templates "about") [] in
  let! canonicalUrl := liftR (toAbsoluteUrl pf site (YStr (lit "/about.html"))) in
  let! ogImage := liftR (toAbsoluteUrl pf site (YStr (lit "/assets/images/about-profile.png"))) in
  let! html := liftR (renderLayout pf site (tmpl templates "base")
    [(lit "content", JString content);
     (lit "metaTitle", JString ((lit "Sobre | ") ++ SITE_name));
     (lit "metaDescription",
      JString (lit "Perfil t" ++ [233] ++
    lit "cnico de Miguel Angelo Moutinho com foco em arquitetura, backend, frontend e IA."));
     (lit "canonicalUrl", JString canonicalUrl);
     (lit "ogTitle", JString (lit "Sobre Miguel Angelo Moutinho"));
     (lit "ogDescription", JString (lit "Trajet" ++ [243] ++ lit "ria t" ++ [233] ++ lit "cnica e vis" ++ [227] ++
    lit "o de engenharia aplicada."));
     (lit "ogImage", JString ogImage);
     (lit "ogType", JString (lit "profile"))]) in
  writeHtml pf (lit "about.html") html.

(** [JSON.stringify] of a string ([QuoteJSONString]): the short escapes,
    [\u00XX] for the other control characters and [\uXXXX] (lowercase
    hex) for a lone surrogate. *)
Definition hex_digit (n : Z) : Z := if n <? 10 then 48 + n else 87 + n.

Definition unicode_escape (c : Z) : jsstr :=
  [92; 117; hex_digit (c / 4096 mod 16); hex_digit (c / 256 mod 16);
   hex_digit (c / 16 mod 16); hex_digit (c mod 16)].

Definition is_high_surrogate (c : Z) : bool := (55296 <=? c) && (c <=? 56319).
Definition is_low_surrogate (c : Z) : bool := (56320 <=? c) && (c <=? 57343).

Definition json_char (c : Z) : jsstr :=
  if c =? 8 then lit "\b"
  else if c =? 9 then lit "\t"
  else if c =? 10 then lit "\n"
  else if c =? 12 then lit "\f"
  else if c =? 13 then lit "\r"
  else if c =? 34 then [92; 34]
  else if c =? 92 then [92; 92]
  else if c <? 32 then unicode_escape c
  else [c].

Fixpoint json_quote_go (s : jsstr) : jsstr :=
  match s with
  | [] => []
  | c :: rest =>
      if is_high_surrogate c then
        match rest with
        | d :: rest' =>
            if is_low_surrogate d then c :: d :: json_quote_go rest'
            else unicode_escape c ++ json_quote_go rest
        | [] => unicode_escape c
        end
      else if is_low_surrogate c then unicode_escape c ++ json_quote_go rest
      else json_char c ++ json_quote_go rest
  end.

Definition json_string (s : jsstr) : jsstr := dq ++ json_quote_go s ++ dq.

(** [JSON.stringify] of an object whose members are already serialized. *)
Definition json_object (members : list (jsstr * jsstr)) : jsstr :=
  lit "{" ++ join (lit ",") (map (fun kv => json_string (fst kv) ++ lit ":" ++ snd kv) members)
  ++ lit "}".

Definition buildPostStructuredData (post : post) : jsstr :=
  let payload :=
    json_object
      [(lit "@context", json_string (lit "https://schema.org"));
       (lit "@type", json_string (lit "BlogPosting"));
       (lit "headline", json_string (title post));
       (lit "description", json_string (summary post));
       (lit "image", json_string (coverImageAbsolute post));
       (lit "author", json_object [(lit "@type", json_string (lit "Person"));
                                   (lit "name", json_string SITE_name)]);
       (lit "publisher", json_object [(lit "@type", json_string (lit "Organization"));
                                      (lit "name", json_string SITE_name)]);
       (lit "mainEntityOfPage", json_string (absoluteUrl post));
       (lit "datePublished", json_string (isoDate post));
       (lit "dateModified", json_string (isoDate post))] in
  (lit "<script type=" ++ dq ++ lit "application/ld+json" ++ dq ++ lit ">" ++ payload ++
    lit "</script>").

Definition msg_no_related : jsstr :=
  (lit "<p class=" ++ dq ++ lit "empty-state" ++ dq ++
    lit ">Em breve mais artigos relacionados para esta categoria.</p>").

Definition post_headExtra (post : post) (structuredData : jsstr) : jsstr :=
  (nl ++ lit "  <meta property=" ++ dq ++ lit "article:published_time" ++ dq ++
    lit " content=" ++ dq ++ (isoDate post) ++ dq ++ lit ">" ++ nl ++
    lit "  <meta property=" ++ dq ++ lit "article:section" ++ dq ++ lit " content=" ++ dq ++
    (escapeHtml (category post)) ++ dq ++ lit ">" ++ nl ++ lit "  " ++ structuredData).

(** One iteration of the loop of [buildPostPages]; it returns the page
    it pushes on [pages]. *)
Definition buildPostPage (pf : platform) (site : site_config) (templates : obj jsstr)
  (posts : list post) (post : post) : build page :=
  let relatedPosts := join [] (map renderRelatedCard (findRelatedPosts post posts)) in
  let tagLinks := join [] (map (tag_link pf site post) (tags post)) in
  let structuredData := buildPostStructuredData post in
  let content := renderTemplate (tmpl templates "post")
    [(lit "homeUrl", JString (toPublicUrl pf site (YStr (lit "/index.html"))));
     (lit "blogUrl", JString (toPublicUrl pf site (YStr (lit "/blog.html"))));
     (lit "postTitle", JString (escapeHtml (title post)));
     (lit "postCategory", JString (escapeHtml (category post)));
     (lit "postDate", JString (escapeHtml (formattedDate post)));
     (lit "readingTime", JString (escapeHtml (readingTime post)));
     (lit "postSummary", JString (escapeHtml (summary post)));
     (lit "postCoverImage", JString (escapeHtml (coverImage post)));
     (lit "tagLinks", JString tagLinks);
     (lit "postContent", JString (htmlContent post));
     (lit "relatedPosts", JString (if is_empty relatedPosts then msg_no_related else relatedPosts));
     (lit "adsClient", JString SITE_adsClient)] in
  let! html := liftR (renderLayout pf site (tmpl templates "base")
    [(lit "content", JString content);
     (lit "metaTitle", JString (title post ++ lit " | " ++ SITE_name));
     (lit "metaDescription", JString (summary post));
     (lit "canonicalUrl", JString (absoluteUrl post));
     (lit "ogTitle", JString (title post ++ lit " | " ++ SITE_name));
     (lit "ogDescription", JString (summary post));
     (lit "ogImage", JString (coverImageAbsolute post));
     (lit "ogType", JString (lit "article"));
     (lit "headExtra", JString (post_headExtra post structuredData))]) in
  let! _ := writeHtml pf (lit "posts/" ++ slug post ++ lit ".html") html in
  ret {| file := post_path (slug post); lastmod := date post |}.

(** A loop of [await]ed iterations, collecting what each one returns. *)
Fixpoint for_each {A B} (body : A -> build B) (l : list A) : build (list B) :=
  match l with
  | [] => ret []
  | x :: xs => let! b := body x in let! bs := for_each body xs in ret (b :: bs)
  end.

Definition buildPostPages (pf : platform) (site : site_config) (templates : obj jsstr)
  (posts : list post) : build (list page) :=
  for_each (buildPostPage pf site templates posts) posts.

(** One iteration of the loop of [buildTagPages]; [now] is the reading
    of [new Date()]. *)
Definition buildTagPage (pf : platform) (site : site_config) (templates : obj jsstr)
  (now : Z) (tagName : jsstr) (entries : list tag_entry) : build page :=
  let slug := slugify pf tagName in
  let cards := join [] (map tag_card entries) in
  let content := renderTemplate (tmpl templates "tag")
    [(lit "tagName", JString (lit "#" ++ escapeHtml tagName));
     (lit "tagCount", JString (z_to_dec (Z.of_nat (length entries))));
     (lit "tagCards", JString cards)] in
  let! canonicalUrl := liftR (toAbsoluteUrl pf site (YStr (lit "/tags/" ++ slug ++ lit ".html"))) in
  let! ogImage := liftR (toAbsoluteUrl pf site (YStr (lit "/assets/images/front-end-news.png"))) in
  let! html := liftR (renderLayout pf site (tmpl templates "base")
    [(lit "content", JString content);
     (lit "metaTitle", JString (lit "Tag: " ++ tagName ++ lit " | " ++ SITE_name));
     (lit "metaDescription", JString (lit "Artigos marcados com a tag " ++ tagName ++ lit "."));
     (lit "canonicalUrl", JString canonicalUrl);
     (lit "ogTitle", JString (lit "Tag " ++ tagName ++ lit " | " ++ SITE_name));
     (lit "ogDescription", JString (z_to_dec (Z.of_nat (length entries)) ++
                                    lit " artigo(s) relacionado(s) com " ++ tagName ++ lit "."));
     (lit "ogImage", JString ogImage);
     (lit "ogType", JString (lit "website"))]) in
  let! _ := writeHtml pf (lit "tags/" ++ slug ++ lit ".html") html in
  ret {| file := tag_path slug; lastmod := now |}.

(** [Object.entries(tagsMap)]: the own keys in order, with their values. *)
Definition buildTagPages (pf : platform) (site : site_config) (templates : obj jsstr)
  (now : Z) (tagsMap : obj (list tag_entry)) : build (list page) :=
  for_each (fun tagName => buildTagPage pf site templates now tagName (entries_or_nil tagsMap tagName))
    (own_keys tagsMap).

Definition writeSitemap (pf : platform) (site : site_config) (pages : list page) : build unit :=
  let! content := liftR (sitemap_xml pf site pages) in
  writeFile (lit "sitemap.xml") content.

Definition writeRobots (pf : platform) (site : site_config) : build unit :=
  let! sitemapUrl := liftR (toAbsoluteUrl pf site (YStr (lit "/sitemap.xml"))) in
  let content := (lit "User-agent: *" ++ nl ++ lit "Allow: /" ++ nl ++ lit "Sitemap: " ++ sitemapUrl ++ nl) in
  writeFile (lit "robots.txt") content.

Definition writeRss (pf : platform) (site : site_config) (now : Z) (posts : list post) : build unit :=
  let items := join [] (map (rss_item pf) (firstn 20 posts)) in
  let! link := liftR (toAbsoluteUrl pf site (YStr (lit "/index.html"))) in
  let content := (lit "<?xml version=" ++ dq ++ lit "1.0" ++ dq ++ lit " encoding=" ++ dq ++ lit "UTF-8" ++
    dq ++ lit "?>" ++ nl ++ lit "<rss version=" ++ dq ++ lit "2.0" ++ dq ++ lit ">" ++ nl ++
    lit "  <channel>" ++ nl ++ lit "    <title>" ++ (escapeXml SITE_name) ++ lit "</title>" ++
    nl ++ lit "    <description>" ++ (escapeXml SITE_description) ++ lit "</description>" ++
    nl ++ lit "    <link>" ++ (escapeXml link) ++ lit "</link>" ++ nl ++
    lit "    <language>pt-BR</language>" ++ nl ++ lit "    <lastBuildDate>" ++
    (utc_string pf (iso_string pf now)) ++ lit "</lastBuildDate>" ++ items ++ nl ++
    lit "  </channel>" ++ nl ++ lit "</rss>") in
  writeFile (lit "rss.xml") content.

(** [main]: [tmpl_fs] holds the files of [src/templates], [assets] tells
    whether [src/assets] exists, [ads] whether [ads.txt] exists, and
    [now] is the reading of every [new Date()] of the run. The result is
    the outcome of the promise and the files written, in order;
    [cleanBuildDir] leaves the output directory empty. *)
Definition main (pf : platform) (site : site_config) (tmpl_fs : obj jsstr) (assets ads : bool)
  (now : Z) (files : list source_file) : result unit * list jsstr :=
  (let! templates := liftR (loadTemplates tmpl_fs) in
   let! posts := liftR (loadPosts pf site files) in
   let pages := initial_pages now in
   let! _ := copyAssets assets in
   let! _ := copyAdsFile ads in
   let! tagsMap := liftR (tags_map_result pf posts) in
   let categories := categories_of pf posts in
   let! _ := buildHomePage pf site templates posts in
   let! _ := buildBlogPage pf site templates posts categories tagsMap in
   let! _ := buildProjectsPage pf site templates in
   let! _ := buildAboutPage pf site templates in
   let! postPages := buildPostPages pf site templates posts in
   let! tagPages := buildTagPages pf site templates now tagsMap in
   let! _ := writeJson (lit "search-index.json") in
   let! _ := writeJson (lit "tags.json") in
   let! _ := writeSitemap pf site (pages ++ postPages ++ tagPages) in
   let! _ := writeRobots pf site in
   writeRss pf site now posts) [].

(* ================================================================== *)
(** * Lemmas *)

Lemma str_eqb_eq a b : str_eqb a b = true <-> a = b.
Proof. unfold str_eqb; destruct (list_eq_dec Z.eq_dec a b); split; congruence. Qed.

Lemma str_eqb_refl a : str_eqb a a = true.
Proof. apply str_eqb_eq; reflexivity. Qed.

Section SortLemmas.
Context {A : Type} (cmp : A -> A -> Z).

Hypothesis cmp_total : forall x y, 0 < cmp x y -> cmp y x <= 0.

Lemma insert_by_sorted x l :
  Sorted (cmp_le cmp) l -> Sorted (cmp_le cmp) (insert_by cmp x l).
Proof.
  induction 1 as [| y l Hl IH Hhd]; simpl.
  - repeat constructor.
  - destruct (Z.leb_spec (cmp x y) 0) as [Hle | Hgt].
    + constructor; [constructor; assumption | constructor; exact Hle].
    + constructor; [exact IH |].
      destruct l as [| z l']; simpl.
      * constructor. apply cmp_total. exact Hgt.
      * inversion Hhd; subst.
        destruct (cmp x z <=? 0); constructor;
          [apply cmp_total; exact Hgt | assumption].
Qed.

Lemma sort_by_sorted l : Sorted (cmp_le cmp) (sort_by cmp l).
Proof. induction l; simpl; [constructor | apply insert_by_sorted; assumption]. Qed.

End SortLemmas.

Lemma insert_by_perm {A} (cmp : A -> A -> Z) x l :
  Permutation (insert_by cmp x l) (x :: l).
Proof.
  induction l as [| y l IH]; simpl; [reflexivity |].
  destruct (cmp x y <=? 0); [reflexivity |].
  rewrite IH. apply perm_swap.
Qed.

Lemma sort_by_perm {A} (cmp : A -> A -> Z) l : Permutation (sort_by cmp l) l.
Proof.
  induction l as [| x l IH]; simpl; [reflexivity |].
  rewrite insert_by_perm. constructor. exact IH.
Qed.


Example related_example_scores :
  score post_current post_A = 4 /\ score post_current post_B = 3 /\ score post_current post_C = 0.
Proof. vm_compute. auto. Qed.

Example related_example_result :
  findRelatedPosts post_current [post_current; post_A; post_B; post_C] = [post_A; post_B].
Proof. vm_compute. reflexivity. Qed.

Lemma in_firstn {A} n (l : list A) x : In x (firstn n l) -> In x l.
Proof.
  intro H. rewrite <- (firstn_skipn n l). apply in_or_app. left. exact H.
Qed.

Lemma Sorted_weaken {A} (R R' : A -> A -> Prop) l :
  (forall x y, R x y -> R' x y) -> Sorted R l -> Sorted R' l.
Proof.
  intros HRR. induction 1 as [| x l Hl IH Hhd]; constructor; [exact IH |].
  destruct Hhd; constructor. apply HRR. assumption.
Qed.

Lemma insert_by_map {A B} (cmp : B -> B -> Z) (f : A -> B) x l :
  insert_by cmp (f x) (map f l) = map f (insert_by (fun a b => cmp (f a) (f b)) x l).
Proof.
  induction l as [| y l IH]; simpl; [reflexivity |].
  destruct (cmp (f x) (f y) <=? 0); simpl; [reflexivity | rewrite IH; reflexivity].
Qed.

Lemma sort_by_map {A B} (cmp : B -> B -> Z) (f : A -> B) l :
  sort_by cmp (map f l) = map f (sort_by (fun a b => cmp (f a) (f b)) l).
Proof.
  induction l as [| x l IH]; simpl; [reflexivity |].
  rewrite IH. apply insert_by_map.
Qed.

(** ** Related posts *)

Lemma collect_scored_eq current posts :
  collect_scored current posts
  = map (fun p => (p, score current p)) (positive_posts current posts).
Proof.
  unfold positive_posts, other_posts.
  induction posts as [| p ps IH]; simpl; [reflexivity |].
  destruct (str_eqb (slug p) (slug current)); simpl; [exact IH |].
  destruct (0 <? score current p); simpl; rewrite IH; reflexivity.
Qed.

Lemma related_key_total current p q :
  0 < related_key_cmp current p q -> related_key_cmp current q p <= 0.
Proof.
  unfold related_key_cmp, related_cmp; simpl.
  destruct (Z.eqb_spec (score current q) (score current p));
  destruct (Z.eqb_spec (score current p) (score current q)); simpl; lia.
Qed.

Lemma related_key_le current p q :
  cmp_le (related_key_cmp current) p q -> related_le current p q.
Proof.
  unfold cmp_le, related_key_cmp, related_cmp, related_le; simpl.
  destruct (Z.eqb_spec (score current q) (score current p)); simpl; lia.
Qed.

Lemma findRelatedPosts_ordered current posts :
  firstn 3 (map fst (sort_by related_cmp (collect_scored current posts)))
  = firstn 3 (sort_by (related_key_cmp current) (positive_posts current posts)).
Proof.
  rewrite collect_scored_eq, sort_by_map, map_map. simpl. rewrite map_id. reflexivity.
Qed.

(** C1 (amended). For a post [current] and a collection [posts]: the
    other posts are those whose slug differs from [current]'s, and each
    is scored by the number of its tag entries occurring in [current]'s
    tags plus 2 for the same category. When some other post has a positive
    score, the selection is the first three of the positive-score posts
    ordered by descending score, ties by descending publish date; when
    none has, it is the first three other posts of the collection. A
    post of score zero is selected only when no other post scores above
    zero. *)
Theorem findRelatedPosts_selection (current : post) (posts : list post) :
  (positive_posts current posts <> [] ->
     exists l, Permutation l (positive_posts current posts)
               /\ Sorted (related_le current) l
               /\ findRelatedPosts current posts = firstn 3 l)
  /\ (positive_posts current posts = [] ->
        findRelatedPosts current posts = firstn 3 (other_posts current posts))
  /\ (forall p, In p (findRelatedPosts current posts) -> score current p <= 0 ->
        positive_posts current posts = []).
Proof.
  set (l := sort_by (related_key_cmp current) (positive_posts current posts)).
  assert (Hperm : Permutation l (positive_posts current posts)) by apply sort_by_perm.
  assert (Hsort : Sorted (related_le current) l).
  { eapply Sorted_weaken; [apply related_key_le |].
    apply sort_by_sorted. apply related_key_total. }
  assert (Hsel : positive_posts current posts <> [] -> findRelatedPosts current posts = firstn 3 l).
  { intro Hne. unfold findRelatedPosts. rewrite findRelatedPosts_ordered. fold l.
    destruct l as [| x l'] eqn:El.
    - apply Permutation_nil in Hperm. contradiction.
    - reflexivity. }
  split; [| split].
  - intro Hne. exists l. auto.
  - intro He. unfold findRelatedPosts. rewrite findRelatedPosts_ordered, He. reflexivity.
  - intros p Hin Hz.
    destruct (positive_posts current posts) as [| q qs] eqn:Epos; [reflexivity | exfalso].
    rewrite Hsel in Hin by discriminate.
    apply in_firstn in Hin. apply (Permutation_in _ Hperm) in Hin.
    rewrite <- Epos in Hin. unfold positive_posts in Hin.
    apply filter_In in Hin. destruct Hin as [_ Hpos]. apply Z.ltb_lt in Hpos. lia.
Qed.

(** C1. On the specification's own example (A: tags x, y, category Tech;
    B: tag x, Tech; C: no tags, Other; current post: x, y, Tech) only two
    posts score above zero, yet the zero-score post C is not selected:
    the fallback applies only when no post scores above zero. *)
Lemma findRelatedPosts_fallback_counterexample :
  length (positive_posts post_current [post_current; post_A; post_B; post_C]) = 2%nat
  /\ score post_current post_C = 0
  /\ ~ In post_C (findRelatedPosts post_current [post_current; post_A; post_B; post_C]).
Proof.
  split; [vm_compute; reflexivity | split; [vm_compute; reflexivity |]].
  rewrite related_example_result. simpl. intros [H | [H | H]]; try discriminate; try contradiction.
Qed.

Example same_day_files_load :
  match loadPosts test_platform test_site same_day_files with
  | Ok [p; q] => slug p = lit "first" /\ slug q = lit "second" /\ date p = date q
  | _ => False
  end.
Proof. vm_compute. auto. Qed.

Example two_invalid_files_main :
  main test_platform test_site test_templates true false 0 two_invalid_files
  = (Err (lit "a.md" ++ msg_missing ++ lit "title"), []).
Proof. vm_compute. reflexivity. Qed.

(** ** Loading and sorting *)

Lemma date_desc_total x y : 0 < date_desc x y -> date_desc y x <= 0.
Proof. unfold date_desc. lia. Qed.

Lemma load_all_forall2 pf site fs ps :
  load_all pf site fs = Ok ps -> Forall2 (fun f p => load_post pf site f = Ok p) fs ps.
Proof.
  revert ps. induction fs as [| f fs IH]; intros ps H; simpl in H.
  - injection H as <-. constructor.
  - destruct (load_post pf site f) as [p | e] eqn:Ep; simpl in H; [| discriminate].
    destruct (load_all pf site fs) as [qs | e] eqn:Eq; simpl in H; [| discriminate].
    injection H as <-. constructor; [exact Ep | apply IH; reflexivity].
Qed.

(** C2 (amended). A successful [loadPosts] returns the posts in
    non-increasing publish-date order: of two adjacent posts the first
    has a publish date greater than or equal to the second's. No post is
    dropped, in particular none of equal date: the result is a
    permutation of the posts loaded one by one from the [.md] files. *)
Theorem loadPosts_sorted_desc (pf : platform) (site : site_config)
  (files : list source_file) (posts : list post) :
  loadPosts pf site files = Ok posts ->
  Sorted (fun a b => date b <= date a) posts
  /\ exists loaded, Forall2 (fun f p => load_post pf site f = Ok p) (filter is_md files) loaded
                   /\ Permutation posts loaded.
Proof.
  unfold loadPosts, bind. fold is_md.
  destruct (load_all pf site _) as [loaded | e] eqn:El; intro H; inversion H; subst.
  split.
  - eapply Sorted_weaken; [| apply sort_by_sorted; apply date_desc_total].
    unfold cmp_le, date_desc. intros. lia.
  - exists loaded. split; [exact (load_all_forall2 _ _ _ _ El) | apply sort_by_perm].
Qed.

Lemma loadPosts_sorted_desc_witness :
  loadPosts test_platform test_site same_day_files = Ok loaded_same_day
  /\ Sorted (fun a b => date b <= date a) loaded_same_day.
Proof.
  assert (H : loadPosts test_platform test_site same_day_files = Ok loaded_same_day)
    by (vm_compute; reflexivity).
  split; [exact H | exact (proj1 (loadPosts_sorted_desc test_platform test_site same_day_files loaded_same_day H))].
Defined.

(** C2. Two valid files with the same publish date both load, adjacent
    and with equal dates: the order is not strictly descending. *)
Lemma loadPosts_not_strict_counterexample :
  exists p q, loadPosts test_platform test_site same_day_files = Ok [p; q]
              /\ ~ (date q < date p).
Proof.
  assert (H : loadPosts test_platform test_site same_day_files = Ok loaded_same_day)
    by (vm_compute; reflexivity).
  vm_compute in H.
  eexists; eexists; split; [exact H |]. simpl. lia.
Qed.

(** ** Substrings *)

Lemma starts_with_app p s : starts_with p (p ++ s) = true.
Proof. induction p as [| c p IH]; simpl; [reflexivity | rewrite Z.eqb_refl; exact IH]. Qed.

Lemma is_infix_prefix p s : is_infix p (p ++ s) = true.
Proof. destruct p; simpl; [destruct s; reflexivity |]. rewrite Z.eqb_refl, starts_with_app. reflexivity. Qed.

Lemma is_infix_app_r p a s : is_infix p s = true -> is_infix p (a ++ s) = true.
Proof.
  intro H. induction a as [| c a IH]; simpl; [exact H |].
  rewrite IH. apply orb_true_r.
Qed.

Lemma is_infix_app_l p a s : is_infix p a = true -> is_infix p (a ++ s) = true.
Proof.
  induction a as [| c a IH]; intro H.
  - destruct p; [destruct s; reflexivity | discriminate].
  - simpl in *. apply orb_true_iff in H. destruct H as [H | H].
    + destruct p as [| d p]; [reflexivity |]. simpl in H |- *.
      apply andb_true_iff in H. destruct H as [Hc Hs].
      rewrite Hc. simpl.
      assert (Hp : forall q t u, starts_with q t = true -> starts_with q (t ++ u) = true).
      { induction q as [| e q IHq]; intros [| f t] u Ht; simpl in *; try reflexivity; try discriminate.
        apply andb_true_iff in Ht. destruct Ht as [He Ht]. rewrite He, (IHq t u Ht). reflexivity. }
      rewrite (Hp p a s Hs). reflexivity.
    + rewrite (IH H). apply orb_true_r.
Qed.

Lemma is_infix_join sep x l : In x l -> is_infix x (join sep l) = true.
Proof.
  induction l as [| y l IH]; intro Hin; [destruct Hin |].
  destruct Hin as [<- | Hin].
  - destruct l; simpl;
      [pose proof (is_infix_prefix y []) as H; rewrite app_nil_r in H; exact H | apply is_infix_prefix].
  - destruct l as [| z l']; [destruct Hin |].
    change (join sep (y :: z :: l')) with (y ++ sep ++ join sep (z :: l')).
    apply is_infix_app_r, is_infix_app_r, IH, Hin.
Qed.

(** ** Front-matter validation *)

Lemma validate_err_names file data e :
  validateFrontmatter file data = Err e ->
  is_infix file e = true /\ (forall fld, In fld (missing_fields data) -> is_infix fld e = true).
Proof.
  unfold validateFrontmatter.
  destruct (Nat.ltb 0 (length (missing_fields data))) eqn:Hlen.
  - intro H. injection H as <-. split; [apply is_infix_prefix |].
    intros fld Hin. apply (is_infix_app_r fld file), (is_infix_app_r fld msg_missing).
    apply is_infix_join, Hin.
  - assert (Hnil : missing_fields data = []).
    { destruct (missing_fields data); [reflexivity | discriminate]. }
    rewrite Hnil.
    destruct (fm_get data (lit "tags")) as [| | | | | | [|] |]; intro H; try discriminate H;
      injection H as <-;
      (split; [apply is_infix_prefix | intros fld []]).
Qed.

(** Takes a [load_post pf site f = Ok p] apart: the validation, the
    date and the two absolute URLs succeed, and [p] is the record. *)
Ltac invert_load_post H :=
  unfold load_post in H; cbv zeta in H;
  destruct (validateFrontmatter _ _) as [[] | ?] eqn:?; cbn [bind] in H; [| discriminate H];
  destruct (date_time _ _) as [?d |] eqn:?; [| discriminate H];
  destruct (toAbsoluteUrl _ _ (fm_get _ (lit "coverImage"))) as [?cover | ?] eqn:?;
    cbn [bind] in H; [| discriminate H];
  destruct (toAbsoluteUrl _ _ (YStr (lit "/posts/" ++ _))) as [?abs | ?] eqn:?;
    cbn [bind] in H; [| discriminate H];
  injection H as <-.

Lemma load_post_validate_err pf site f e :
  validateFrontmatter (file_name f) (fm_data f) = Err e -> load_post pf site f = Err e.
Proof. intro H. unfold load_post. rewrite H. reflexivity. Qed.

Lemma load_all_err_somewhere pf site pre f rest e :
  load_post pf site f = Err e -> exists e', load_all pf site (pre ++ f :: rest) = Err e'.
Proof.
  intro Hf. induction pre as [| g pre IH]; simpl.
  - rewrite Hf. eexists; reflexivity.
  - destruct (load_post pf site g); simpl; [| eexists; reflexivity].
    destruct IH as [e' He']. rewrite He'. eexists; reflexivity.
Qed.

Lemma load_all_err_first pf site pre f rest e :
  Forall (fun g => exists p, load_post pf site g = Ok p) pre ->
  load_post pf site f = Err e -> load_all pf site (pre ++ f :: rest) = Err e.
Proof.
  intros Hpre Hf. induction Hpre as [| g pre [p Hp] Hpre IH]; simpl.
  - rewrite Hf. reflexivity.
  - rewrite Hp. simpl. rewrite IH. reflexivity.
Qed.

(** C3 (amended). A post file whose front matter lacks a required field
    or whose [tags] is not a non-empty list makes the build fail with no
    output file written. When the templates load and every post file
    before it in directory order loads, the error is that file's
    validation error, which names the file and each missing field. *)
Theorem main_aborts_on_invalid_front_matter (pf : platform) (site : site_config)
  (tmpl_fs : obj jsstr) (assets ads : bool) (now : Z) (pre : list source_file) (f : source_file)
  (rest : list source_file) (e0 : jsstr) :
  is_md f = true ->
  validateFrontmatter (file_name f) (fm_data f) = Err e0 ->
  (exists e, main pf site tmpl_fs assets ads now (pre ++ f :: rest) = (Err e, []))
  /\ ((exists t, loadTemplates tmpl_fs = Ok t) ->
      Forall (fun g => is_md g = true -> exists p, load_post pf site g = Ok p) pre ->
      main pf site tmpl_fs assets ads now (pre ++ f :: rest) = (Err e0, [])
      /\ is_infix (file_name f) e0 = true
      /\ (forall fld, In fld (missing_fields (fm_data f)) -> is_infix fld e0 = true)).
Proof.
  intros Hmd Hval.
  pose proof (load_post_validate_err pf site f e0 Hval) as Hf.
  assert (Hfilter : filter is_md (pre ++ f :: rest) = filter is_md pre ++ f :: filter is_md rest).
  { rewrite filter_app. simpl. rewrite Hmd. reflexivity. }
  split.
  - unfold main. destruct (loadTemplates tmpl_fs) as [t | e]; [| eexists; reflexivity].
    unfold loadPosts. fold is_md. rewrite Hfilter.
    destruct (load_all_err_somewhere pf site (filter is_md pre) f (filter is_md rest) e0 Hf) as [e' He'].
    rewrite He'. eexists; reflexivity.
  - intros [t Ht] Hpre.
    assert (Hpre' : Forall (fun g => exists p, load_post pf site g = Ok p) (filter is_md pre)).
    { apply Forall_forall. intros g Hg. apply filter_In in Hg. destruct Hg as [Hg Hgmd].
      rewrite Forall_forall in Hpre. exact (Hpre g Hg Hgmd). }
    split; [| apply (validate_err_names _ _ _ Hval)].
    unfold main. rewrite Ht. unfold loadPosts. fold is_md. rewrite Hfilter.
    rewrite (load_all_err_first pf site _ f _ e0 Hpre' Hf). reflexivity.
Qed.

Lemma main_aborts_on_invalid_front_matter_witness :
  is_md {| file_name := lit "b.md"; fm_data := without "summary" (full_data 2); fm_content := [] |} = true
  /\ main test_platform test_site test_templates true false 0
       ([ {| file_name := lit "a.md"; fm_data := full_data 1; fm_content := [] |} ]
        ++ {| file_name := lit "b.md"; fm_data := without "summary" (full_data 2); fm_content := [] |} :: [])
     = (Err (lit "b.md" ++ msg_missing ++ lit "summary"), []).
Proof.
  assert (Hmd : is_md {| file_name := lit "b.md"; fm_data := without "summary" (full_data 2); fm_content := [] |} = true)
    by reflexivity.
  split; [exact Hmd |].
  refine (proj1 (proj2 (main_aborts_on_invalid_front_matter test_platform test_site test_templates true false 0
            [ {| file_name := lit "a.md"; fm_data := full_data 1; fm_content := [] |} ]
            {| file_name := lit "b.md"; fm_data := without "summary" (full_data 2); fm_content := [] |}
            [] (lit "b.md" ++ msg_missing ++ lit "summary") Hmd _) _ _)).
  - vm_compute. reflexivity.
  - eexists. vm_compute. reflexivity.
  - constructor; [| constructor]. intros _. eexists. vm_compute. reflexivity.
Defined.

(** C3. With two files that both lack a field ([a.md] without [title],
    [b.md] without [summary]) the build stops at the first: the error
    names neither [b.md] nor [summary]. *)
Lemma main_names_only_first_invalid_counterexample :
  exists e, main test_platform test_site test_templates true false 0 two_invalid_files = (Err e, [])
            /\ is_infix (lit "b.md") e = false /\ is_infix (lit "summary") e = false.
Proof.
  eexists. split; [apply two_invalid_files_main |]. split; vm_compute; reflexivity.
Qed.

Example renderTemplate_basic :
  renderTemplate (lit "<h1>{{ title }}</h1>{{missing}}{{ bad-name }}")
                 [(lit "title", JString (lit "Hi"))]
  = lit "<h1>Hi</h1>{{ bad-name }}".
Proof. vm_compute. reflexivity. Qed.

(** C4. A placeholder whose name is absent from the mapping but is a
    property of [Object.prototype] is not replaced by the empty string:
    the lookup [params[key]] finds the inherited member. *)
Theorem renderTemplate_inherited_key_bug :
  renderTemplate (lit "{{constructor}}") [] = lit "function Object() { [native code] }"
  /\ renderTemplate (lit "{{ __proto__ }}") [] = lit "[object Object]".
Proof. split; vm_compute; reflexivity. Qed.

(** ** Slugs *)

(** C6. For a file name of 79 letters, a space and a letter, the slug
    ends with a hyphen: the cut to 80 characters comes after the edge
    hyphens are stripped. The hypotheses are what [normalize('NFD')] and
    [toLowerCase] do on this lowercase ASCII name. *)
Theorem slugify_truncation_trailing_hyphen (pf : platform) :
  nfd pf long_name = long_name -> to_lower pf long_name = long_name ->
  slugify pf long_name = repeat 97 79 ++ [hyphen]
  /\ (forall site f p, file_name f = long_name ++ lit ".md" ->
        load_post pf site f = Ok p -> slug p = repeat 97 79 ++ [hyphen]).
Proof.
  intros Hn Hl.
  assert (Hs : slugify pf long_name = repeat 97 79 ++ [hyphen]).
  { unfold slugify. rewrite Hn.
    assert (Hf : filter (fun c => negb (is_combining_mark c)) long_name = long_name)
      by (vm_compute; reflexivity).
    rewrite Hf, Hl. vm_compute. reflexivity. }
  split; [exact Hs |].
  intros site f p Hname H. invert_load_post H. cbn [slug]. rewrite Hname.
  assert (Hb : basename_md (long_name ++ lit ".md") = long_name) by (vm_compute; reflexivity).
  change (slugify pf (basename_md (long_name ++ lit ".md")) = repeat 97 79 ++ [hyphen]).
  rewrite Hb. exact Hs.
Qed.

Lemma slugify_truncation_trailing_hyphen_witness :
  nfd test_platform long_name = long_name
  /\ to_lower test_platform long_name = long_name
  /\ slugify test_platform long_name = repeat 97 79 ++ [hyphen].
Proof.
  assert (Hn : nfd test_platform long_name = long_name) by reflexivity.
  assert (Hl : to_lower test_platform long_name = long_name) by (vm_compute; reflexivity).
  split; [exact Hn | split; [exact Hl |]].
  exact (proj1 (slugify_truncation_trailing_hyphen test_platform Hn Hl)).
Defined.

(** ** Lazy images *)

(** C9. A raw HTML image tag written in upper case, which markdown-it
    (with [html: true]) passes through as an HTML block, gets no
    [loading] attribute: the pattern [/<img\s+/g] is case-sensitive. *)
Theorem lazy_loading_misses_uppercase_img (pf : platform) :
  md_render pf upper_img_md = upper_img_md ->
  addLazyLoadingToImages (md_render pf upper_img_md) = upper_img_md
  /\ (forall site f p, fm_content f = upper_img_md -> load_post pf site f = Ok p ->
        is_infix (lit "loading=") (htmlContent p) = false).
Proof.
  intro Hr.
  assert (Hz : addLazyLoadingToImages (md_render pf upper_img_md) = upper_img_md).
  { rewrite Hr. vm_compute. reflexivity. }
  split; [exact Hz |].
  intros site f p Hc H. invert_load_post H. cbn [htmlContent]. rewrite Hc, Hz.
  vm_compute. reflexivity.
Qed.

Lemma lazy_loading_misses_uppercase_img_witness :
  md_render test_platform upper_img_md = upper_img_md
  /\ addLazyLoadingToImages (md_render test_platform upper_img_md) = upper_img_md.
Proof.
  assert (Hr : md_render test_platform upper_img_md = upper_img_md) by reflexivity.
  split; [exact Hr | exact (proj1 (lazy_loading_misses_uppercase_img test_platform Hr))].
Defined.

(** ** External links *)

Lemma attrGet_attrSet_same attrs name value :
  attrGet (attrSet attrs name value) name = Some value.
Proof.
  induction attrs as [| [k v] rest IH]; simpl.
  - unfold attrGet. simpl. rewrite str_eqb_refl. reflexivity.
  - destruct (str_eqb k name) eqn:E.
    + unfold attrGet. simpl. rewrite str_eqb_refl. reflexivity.
    + unfold attrGet in *. simpl. rewrite E. exact IH.
Qed.

Lemma attrGet_attrSet_other attrs name value name' :
  name' <> name -> attrGet (attrSet attrs name value) name' = attrGet attrs name'.
Proof.
  intro Hne.
  assert (Hf : str_eqb name name' = false).
  { destruct (str_eqb name name') eqn:E; [apply str_eqb_eq in E; congruence | reflexivity]. }
  induction attrs as [| [k v] rest IH]; unfold attrGet in *; simpl.
  - rewrite Hf. reflexivity.
  - destruct (str_eqb k name) eqn:E; simpl.
    + apply str_eqb_eq in E. subst k. rewrite Hf. reflexivity.
    + destruct (str_eqb k name'); [reflexivity | exact IH].
Qed.

Lemma trim_nil : trim [] = [].
Proof. reflexivity. Qed.

(** C5 (amended). For the opening tag of a Markdown link: when the
    trimmed href is non-empty, is not a fragment, does not start with a
    slash, has none of the schemes mailto:, tel: or javascript: (in any
    letter case), and resolves against the site origin to an origin
    different from the site's, the tag carries target=_blank and
    rel=noopener noreferrer (the other attributes kept in place); when
    the href is missing or empty, a fragment, a root-relative path (a
    slash not followed by a second one), a mailto:, tel: or javascript:
    link, unparseable, or resolves to the site origin, the tag is
    rendered with its attributes unchanged. *)
Theorem link_open_rule (pf : platform) (site : site_config) (attrs : list (jsstr * jsstr)) :
  (forall v o1 o2,
     attrGet attrs (lit "href") = Some v ->
     trim v <> [] ->
     starts_with (lit "#") (trim v) = false ->
     starts_with (lit "/") (trim v) = false ->
     starts_with_ci (lit "mailto:") (trim v) = false ->
     starts_with_ci (lit "tel:") (trim v) = false ->
     starts_with_ci (lit "javascript:") (trim v) = false ->
     url_origin pf (trim v) (Some (origin site)) = Some o1 ->
     url_origin pf (origin site) None = Some o2 ->
     o1 <> o2 ->
     render_link_open pf site attrs
       = lit "<a" ++ renderAttrs (attrSet (attrSet attrs (lit "target") (lit "_blank"))
                                          (lit "rel") (lit "noopener noreferrer")) ++ lit ">"
     /\ attrGet (link_open_attrs pf site attrs) (lit "target") = Some (lit "_blank")
     /\ attrGet (link_open_attrs pf site attrs) (lit "rel") = Some (lit "noopener noreferrer")
     /\ attrGet (link_open_attrs pf site attrs) (lit "href") = Some v)
  /\ (exempt_href pf site (attrGet attrs (lit "href")) ->
      render_link_open pf site attrs = lit "<a" ++ renderAttrs attrs ++ lit ">").
Proof.
  split.
  - intros v o1 o2 Hget Hne H1 H2 H3 H4 H5 Ho1 Ho2 Hdiff.
    assert (Hext : isExternalLink pf site (attrGet attrs (lit "href")) = true).
    { rewrite Hget. unfold isExternalLink.
      destruct v as [| c v']; [exfalso; apply Hne; reflexivity |]. cbv zeta.
      destruct (trim (c :: v')) as [| d w] eqn:Ht; [exfalso; apply Hne; reflexivity |].
      simpl is_empty. rewrite H1, H2, H3, H4, H5. simpl. rewrite Ho1, Ho2.
      destruct (str_eqb o1 o2) eqn:E; [apply str_eqb_eq in E; contradiction | reflexivity]. }
    unfold render_link_open, link_open_attrs. rewrite Hext.
    split; [reflexivity |].
    split; [rewrite attrGet_attrSet_other by (vm_compute; discriminate);
            apply attrGet_attrSet_same |].
    split; [apply attrGet_attrSet_same |].
    rewrite !attrGet_attrSet_other by (vm_compute; discriminate). exact Hget.
  - intro Hex.
    assert (Hext : isExternalLink pf site (attrGet attrs (lit "href")) = false).
    { destruct (attrGet attrs (lit "href")) as [v |]; [| reflexivity].
      unfold isExternalLink. destruct (is_empty v) eqn:Hv; [reflexivity |]. cbv zeta.
      unfold exempt_href in Hex.
      destruct Hex as [H | [H | [[H _] | [H | [H | [H | [H | [H | H]]]]]]]].
      + rewrite H. reflexivity.
      + rewrite H, orb_true_r. reflexivity.
      + rewrite H, orb_true_r. reflexivity.
      + destruct (is_empty (trim v) || starts_with (lit "#") (trim v)
                  || starts_with (lit "/") (trim v)); [reflexivity |].
        rewrite H. reflexivity.
      + destruct (is_empty (trim v) || starts_with (lit "#") (trim v)
                  || starts_with (lit "/") (trim v)); [reflexivity |].
        rewrite H, orb_true_r. reflexivity.
      + destruct (is_empty (trim v) || starts_with (lit "#") (trim v)
                  || starts_with (lit "/") (trim v)); [reflexivity |].
        rewrite H, orb_true_r. reflexivity.
      + destruct (is_empty (trim v) || starts_with (lit "#") (trim v)
                  || starts_with (lit "/") (trim v)); [reflexivity |].
        destruct (starts_with_ci (lit "mailto:") (trim v) || starts_with_ci (lit "tel:") (trim v)
                  || starts_with_ci (lit "javascript:") (trim v)); [reflexivity |].
        rewrite H. destruct (url_origin pf (origin site) None); reflexivity.
      + destruct (is_empty (trim v) || starts_with (lit "#") (trim v)
                  || starts_with (lit "/") (trim v)); [reflexivity |].
        destruct (starts_with_ci (lit "mailto:") (trim v) || starts_with_ci (lit "tel:") (trim v)
                  || starts_with_ci (lit "javascript:") (trim v)); [reflexivity |].
        rewrite H. destruct (url_origin pf (trim v) (Some (origin site))); reflexivity.
      + destruct (is_empty (trim v) || starts_with (lit "#") (trim v)
                  || starts_with (lit "/") (trim v)); [reflexivity |].
        destruct (starts_with_ci (lit "mailto:") (trim v) || starts_with_ci (lit "tel:") (trim v)
                  || starts_with_ci (lit "javascript:") (trim v)); [reflexivity |].
        rewrite H. destruct (url_origin pf (origin site) None); [| reflexivity].
        rewrite str_eqb_refl. reflexivity. }
    unfold render_link_open, link_open_attrs. rewrite Hext. reflexivity.
Qed.

Lemma link_open_rule_witness :
  render_link_open test_platform test_site external_token
  = lit "<a href=" ++ dq ++ lit "https://example.com/" ++ dq
    ++ lit " target=" ++ dq ++ lit "_blank" ++ dq
    ++ lit " rel=" ++ dq ++ lit "noopener noreferrer" ++ dq ++ lit ">".
Proof.
  pose proof (proj1 (link_open_rule test_platform test_site external_token)
                (lit "https://example.com/") (lit "https://example.com")
                (lit "https://miguel-br-dl.github.io")) as Hr.
  refine (eq_trans (proj1 (Hr _ _ _ _ _ _ _ _ _ _)) _).
  all: vm_compute; first [reflexivity | discriminate].
Defined.

(** C5 fails in two ways. A Markdown link with the scheme-relative href
    [//example.com/x] resolves to [https://example.com], another origin,
    yet its tag is left as it is; and an anchor written as inline HTML in
    the Markdown is output verbatim, with no target or rel. *)
Lemma external_link_counterexample :
  url_origin test_platform (lit "//example.com/x") (Some (origin test_site))
    = Some (lit "https://example.com")
  /\ renderInline test_platform test_site
       [TLinkOpen [(lit "href", lit "//example.com/x")]; TText (lit "x"); TLinkClose]
     = lit "<a href=" ++ dq ++ lit "//example.com/x" ++ dq ++ lit ">x</a>"
  /\ url_origin test_platform (lit "https://example.com/") (Some (origin test_site))
    = Some (lit "https://example.com")
  /\ renderInline test_platform test_site
       [THtmlInline (lit "<a href=" ++ dq ++ lit "https://example.com/" ++ dq ++ lit ">");
        TText (lit "x"); THtmlInline (lit "</a>")]
     = lit "<a href=" ++ dq ++ lit "https://example.com/" ++ dq ++ lit ">x</a>".
Proof. repeat split; vm_compute; reflexivity. Qed.

(** ** Tag map *)

(** C7. When the locale collation puts "10" before "9", the keys of the
    tag map built from a post tagged "9" and "10" are still enumerated
    as "9", "10": keys that are array indices are listed in numeric
    order whatever the insertion order. A tag named like a member of
    [Object.prototype] makes the construction throw. *)
Theorem buildTagsMap_key_order_bug (pf : platform) :
  0 < locale_compare pf (lit "9") (lit "10") ->
  (exists m, buildTagsMap pf [post_numeric_tags] = Some m
             /\ own_keys m = [lit "9"; lit "10"])
  /\ buildTagsMap pf [post_proto_tag] = None.
Proof.
  intro Hc. split.
  - unfold buildTagsMap. simpl tags_loop. cbv beta iota zeta.
    simpl own_keys. simpl sort_by.
    assert (Hle : (locale_compare pf [57] [49; 48] <=? 0) = false)
      by (apply Z.leb_gt; exact Hc).
    rewrite Hle.
    eexists. split; [reflexivity | vm_compute; reflexivity].
  - reflexivity.
Qed.

Lemma buildTagsMap_key_order_bug_witness :
  0 < locale_compare test_platform (lit "9") (lit "10")
  /\ exists m, buildTagsMap test_platform [post_numeric_tags] = Some m
               /\ own_keys m = [lit "9"; lit "10"].
Proof.
  assert (Hc : 0 < locale_compare test_platform (lit "9") (lit "10")) by (vm_compute; reflexivity).
  split; [exact Hc | exact (proj1 (buildTagsMap_key_order_bug test_platform Hc))].
Defined.

(** ** Sitemap *)

Lemma includes_In l x : includes l x = true <-> In x l.
Proof.
  unfold includes. rewrite existsb_exists. split.
  - intros [y [Hy He]]. apply str_eqb_eq in He. subst. exact Hy.
  - intro H. exists x. split; [exact H | apply str_eqb_refl].
Qed.

Lemma unique_pages_sub seen pages pg :
  In pg (unique_pages seen pages) ->
  ~ In (file pg) seen
  /\ exists pre suf, pages = pre ++ pg :: suf /\ ~ In (file pg) (map file pre).
Proof.
  revert seen. induction pages as [| q ps IH]; intros seen Hin; simpl in Hin; [contradiction |].
  destruct (includes seen (file q)) eqn:Hq.
  - destruct (IH seen Hin) as [Hs [pre [suf [Heq Hpre]]]].
    split; [exact Hs |]. exists (q :: pre), suf. split; [simpl; congruence |].
    simpl. intros [He | Hp]; [| contradiction].
    apply Hs. rewrite <- He. apply includes_In. exact Hq.
  - destruct Hin as [<- | Hin].
    + split; [intro H; apply includes_In in H; congruence |].
      exists [], ps. split; [reflexivity | simpl; tauto].
    + destruct (IH (file q :: seen) Hin) as [Hs [pre [suf [Heq Hpre]]]].
      split; [intro H; apply Hs; right; exact H |].
      exists (q :: pre), suf. split; [simpl; congruence |].
      simpl. intros [He | Hp]; [apply Hs; left; exact He | contradiction].
Qed.

Lemma unique_pages_nodup seen pages : NoDup (map file (unique_pages seen pages)).
Proof.
  revert seen. induction pages as [| q ps IH]; intro seen; simpl; [constructor |].
  destruct (includes seen (file q)) eqn:Hq; [apply IH |].
  simpl. constructor; [| apply IH].
  intro H. apply in_map_iff in H as [pg [Hf Hin]].
  destruct (unique_pages_sub _ _ _ Hin) as [Hs _]. apply Hs. left. symmetry. exact Hf.
Qed.

Lemma unique_pages_files seen pages f :
  In f (map file (unique_pages seen pages)) <-> In f (map file pages) /\ ~ In f seen.
Proof.
  revert seen. induction pages as [| q ps IH]; intro seen; simpl; [tauto |].
  destruct (includes seen (file q)) eqn:Hq.
  - rewrite IH. split; [tauto |].
    intros [[<- | H] Hs]; [| tauto]. exfalso. apply Hs, includes_In, Hq.
  - simpl. rewrite IH. simpl. split.
    + intros [<- | [H Hs]]; [split; [left; reflexivity | intro H; apply includes_In in H; congruence] |].
      split; [right; exact H | tauto].
    + intros [[<- | H] Hs]; [left; reflexivity |].
      destruct (list_eq_dec Z.eq_dec (file q) f) as [<- | Hne]; [left; reflexivity |].
      right. split; [exact H |]. intros [He | He]; [contradiction | exact (Hs He)].
Qed.

Lemma tag_path_not_post_path t s : tag_path t <> post_path s.
Proof. intro H. apply (f_equal (firstn 2)) in H. vm_compute in H. discriminate. Qed.

Lemma initial_file_not_post_path now pg s :
  In pg (initial_pages now) -> file pg <> post_path s.
Proof.
  intros Hin H. simpl in Hin.
  destruct Hin as [<- | [<- | [<- | [<- | []]]]]; apply (f_equal (firstn 3)) in H;
    vm_compute in H; discriminate.
Qed.

(** C8. The entries of the sitemap are [unique_pages [] pages]: no page
    path occurs twice among them, every path of the list occurs, each
    entry is the first record of the list with its path, and its
    lastmod is the publish time of a post with that page path, or, for
    any page that is not a post page, the time read at the start of
    [main] or in the iteration of one of the tags. *)
Theorem sitemap_unique_pages (pf : platform) (now : Z) (clock : jsstr -> Z)
  (posts : list post) (tagNames : list jsstr) :
  NoDup (map file (unique_pages [] (build_pages pf now clock posts tagNames)))
  /\ (forall f, In f (map file (unique_pages [] (build_pages pf now clock posts tagNames)))
                <-> In f (map file (build_pages pf now clock posts tagNames)))
  /\ (forall pg, In pg (unique_pages [] (build_pages pf now clock posts tagNames)) ->
        (exists pre suf, build_pages pf now clock posts tagNames = pre ++ pg :: suf
                         /\ ~ In (file pg) (map file pre))
        /\ ((exists p, In p posts /\ file pg = post_path (slug p) /\ lastmod pg = date p)
            \/ ((forall s, file pg <> post_path s)
                /\ (lastmod pg = now \/ exists t, In t tagNames /\ lastmod pg = clock t)))).
Proof.
  split; [apply unique_pages_nodup |].
  split; [intro f; rewrite unique_pages_files; simpl; tauto |].
  intros pg Hin.
  destruct (unique_pages_sub _ _ _ Hin) as [_ [pre [suf [Heq Hpre]]]].
  split; [exists pre, suf; split; assumption |].
  assert (Hpg : In pg (build_pages pf now clock posts tagNames))
    by (rewrite Heq; apply in_elt).
  unfold build_pages in Hpg. apply in_app_or in Hpg as [Hi | Hpg]; [| apply in_app_or in Hpg as [Hp | Ht]].
  - right. split; [intro s; apply (initial_file_not_post_path now); exact Hi |].
    left. simpl in Hi. destruct Hi as [<- | [<- | [<- | [<- | []]]]]; reflexivity.
  - left. unfold post_pages in Hp. apply in_map_iff in Hp as [p [<- Hp]].
    exists p. split; [exact Hp | split; reflexivity].
  - right. unfold tag_pages in Ht. apply in_map_iff in Ht as [t [<- Ht]].
    split; [intro s; apply tag_path_not_post_path |].
    right. exists t. split; [exact Ht | reflexivity].
Qed.

(** ** Escaping *)

Lemma replace_char_app c r a b :
  replace_char c r (a ++ b) = replace_char c r a ++ replace_char c r b.
Proof. unfold replace_char. apply flat_map_app. Qed.

Lemma escapeHtml_flat_map s : escapeHtml s = flat_map esc_char s.
Proof.
  induction s as [| d s IH]; [reflexivity |].
  change (d :: s) with ([d] ++ s). unfold escapeHtml in *.
  rewrite !replace_char_app, IH, flat_map_app. f_equal.
  simpl flat_map. rewrite app_nil_r. unfold esc_char.
  destruct (Z.eqb_spec d 38) as [-> | H38]; [reflexivity |].
  destruct (Z.eqb_spec d 60) as [-> | H60]; [reflexivity |].
  destruct (Z.eqb_spec d 62) as [-> | H62]; [reflexivity |].
  destruct (Z.eqb_spec d 34) as [-> | H34]; [reflexivity |].
  destruct (Z.eqb_spec d 39) as [-> | H39]; [reflexivity |].
  apply Z.eqb_neq in H38, H60, H62, H34, H39.
  unfold replace_char. simpl. rewrite H38. simpl. rewrite H60. simpl. rewrite H62. simpl.
  rewrite H34. simpl. rewrite H39. reflexivity.
Qed.

Lemma amp_ok_esc_char d r : amp_ok (esc_char d ++ r) = amp_ok r.
Proof.
  unfold esc_char.
  destruct (Z.eqb_spec d 38) as [-> | H38]; [reflexivity |].
  destruct (Z.eqb_spec d 60) as [-> | H60]; [reflexivity |].
  destruct (Z.eqb_spec d 62) as [-> | H62]; [reflexivity |].
  destruct (Z.eqb_spec d 34) as [-> | H34]; [reflexivity |].
  destruct (Z.eqb_spec d 39) as [-> | H39]; [reflexivity |].
  apply Z.eqb_neq in H38. simpl. rewrite H38. reflexivity.
Qed.

Lemma amp_ok_flat_map s : amp_ok (flat_map esc_char s) = true.
Proof.
  induction s as [| d s IH]; [reflexivity |]. simpl. rewrite amp_ok_esc_char. exact IH.
Qed.

Lemma amp_ok_spec s pre suf :
  amp_ok s = true -> s = pre ++ 38 :: suf -> exists e, In e entities /\ starts_with e suf = true.
Proof.
  revert s. induction pre as [| c pre IH]; intros s Hok ->; cbn [app amp_ok] in Hok.
  - rewrite Z.eqb_refl in Hok.
    apply andb_true_iff in Hok as [He _]. apply existsb_exists in He. exact He.
  - apply andb_true_iff in Hok as [_ Hok]. exact (IH _ Hok eq_refl).
Qed.

Lemma esc_char_no_markup d c : In c (esc_char d) -> is_markup c = false.
Proof.
  unfold esc_char.
  destruct (Z.eqb_spec d 38) as [-> | H38];
    [simpl; intros H; repeat (destruct H as [<- | H]; [reflexivity |]); contradiction |].
  destruct (Z.eqb_spec d 60) as [-> | H60];
    [simpl; intros H; repeat (destruct H as [<- | H]; [reflexivity |]); contradiction |].
  destruct (Z.eqb_spec d 62) as [-> | H62];
    [simpl; intros H; repeat (destruct H as [<- | H]; [reflexivity |]); contradiction |].
  destruct (Z.eqb_spec d 34) as [-> | H34];
    [simpl; intros H; repeat (destruct H as [<- | H]; [reflexivity |]); contradiction |].
  destruct (Z.eqb_spec d 39) as [-> | H39];
    [simpl; intros H; repeat (destruct H as [<- | H]; [reflexivity |]); contradiction |].
  intros [<- | []]. unfold is_markup.
  apply Z.eqb_neq in H60, H62, H34, H39. rewrite H60, H62, H34, H39. reflexivity.
Qed.

Lemma markup_app a b : markup (a ++ b) = markup a ++ markup b.
Proof. apply filter_app. Qed.

Lemma markup_nil_iff s : markup s = [] <-> forall c, In c s -> is_markup c = false.
Proof.
  unfold markup. induction s as [| c s IH]; simpl; [tauto |].
  destruct (is_markup c) eqn:Hc; split.
  - discriminate.
  - intro H. rewrite (H c (or_introl eq_refl)) in Hc. discriminate.
  - intros Hs d [<- | Hd]; [exact Hc | apply IH; assumption].
  - intro H. apply IH. intros d Hd. apply H. right. exact Hd.
Qed.

Lemma markup_escapeHtml s : markup (escapeHtml s) = [].
Proof.
  apply markup_nil_iff. intros c Hc. rewrite escapeHtml_flat_map in Hc.
  apply in_flat_map in Hc as [d [_ Hd]]. exact (esc_char_no_markup d c Hd).
Qed.

(** ** Slug characters *)

Lemma collapse_non_slug_chars b s : Forall slug_or_hyphen (collapse_non_slug b s).
Proof.
  revert b. induction s as [| c s IH]; intro b; simpl; [constructor |].
  destruct (is_slug_char c) eqn:Hc; [constructor; [left; exact Hc | apply IH] |].
  destruct b; [apply IH | constructor; [right; reflexivity | apply IH]].
Qed.

Lemma strip_edge_hyphens_chars P b s : Forall P s -> Forall P (strip_edge_hyphens b s).
Proof.
  revert b. induction s as [| c s IH]; intros b H; simpl; [constructor |].
  inversion H; subst.
  destruct ((c =? hyphen) && (b || is_empty s)); [| constructor; [assumption |]]; apply IH; assumption.
Qed.

Lemma slugify_chars pf text : Forall slug_or_hyphen (slugify pf text).
Proof.
  unfold slugify. apply Forall_forall. intros c Hc. apply in_firstn in Hc.
  revert c Hc. apply Forall_forall. apply strip_edge_hyphens_chars, collapse_non_slug_chars.
Qed.

Lemma assoc_obj_set {V} (o : obj V) k k' v v' :
  assoc k (obj_set o k' v') = Some v -> v = v' \/ assoc k o = Some v.
Proof.
  induction o as [| [kk vv] o IH]; simpl.
  - destruct (str_eqb k k'); [intro H; injection H; auto | discriminate].
  - destruct (str_eqb k' kk) eqn:E1; simpl.
    + apply str_eqb_eq in E1. subst kk.
      destruct (str_eqb k k'); [intro H; injection H; auto | auto].
    + destruct (str_eqb k kk); [auto | exact IH].
Qed.

Lemma assoc_from_entries {V} (l : list (jsstr * V)) k v :
  assoc k (from_entries l) = Some v -> In v (map snd l).
Proof.
  unfold from_entries.
  assert (G : forall o, assoc k (fold_left (fun o kv => obj_set o (fst kv) (snd kv)) l o) = Some v ->
                        assoc k o = Some v \/ In v (map snd l)).
  { induction l as [| [k1 v1] l IH]; intros o H; simpl in *; [auto |].
    destruct (IH _ H) as [H1 | H1]; [| auto].
    destruct (assoc_obj_set _ _ _ _ _ H1) as [-> | H2]; auto. }
  intro H. destruct (G [] H) as [H1 | H1]; [discriminate | exact H1].
Qed.

(** Posts as [loadPosts] builds them have slug-shaped [tagSlugs]. *)
Lemma load_post_safe_slugs pf site f p : load_post pf site f = Ok p -> safe_slugs p.
Proof.
  intro H. invert_load_post H. intros k v Hk. cbn [tagSlugs] in Hk.
  apply assoc_from_entries in Hk. rewrite map_map in Hk. simpl in Hk.
  apply in_map_iff in Hk as [t [<- _]]. apply slugify_chars.
Qed.

(** ** Markup of the cards *)

Lemma slug_char_no_markup c : slug_or_hyphen c -> is_markup c = false.
Proof.
  unfold slug_or_hyphen, is_slug_char, is_markup. intros [H | ->]; [| reflexivity].
  apply orb_true_iff in H as [H | H]; apply andb_true_iff in H as [H1 H2];
    apply Z.leb_le in H1, H2;
    repeat (apply orb_false_iff; split); apply Z.eqb_neq; lia.
Qed.

Lemma markup_slug_lookup p t : safe_slugs p -> markup (slug_lookup (tagSlugs p) t) = [].
Proof.
  intro Hs. unfold slug_lookup, obj_get.
  destruct (assoc t (tagSlugs p)) as [v |] eqn:Ha.
  - apply markup_nil_iff. intros c Hc.
    apply slug_char_no_markup. exact (proj1 (Forall_forall _ _) (Hs t v Ha) c Hc).
  - destruct (existsb (str_eqb t) object_prototype_keys) eqn:Hp; [| reflexivity].
    apply existsb_exists in Hp as [k [Hk Heq]]. apply str_eqb_eq in Heq. subst k.
    unfold object_prototype_keys in Hk.
    repeat (destruct Hk as [<- | Hk]; [vm_compute; reflexivity |]). contradiction.
Qed.

Lemma trim_tag_path v : trim (lit "/tags/" ++ v ++ lit ".html") = lit "/tags/" ++ v ++ lit ".html".
Proof.
  unfold trim.
  assert (H1 : drop_spaces (lit "/tags/" ++ v ++ lit ".html") = lit "/tags/" ++ v ++ lit ".html")
    by reflexivity.
  rewrite H1, app_assoc, rev_app_distr.
  assert (H2 : forall r, drop_spaces (rev (lit ".html") ++ r) = rev (lit ".html") ++ r)
    by reflexivity.
  rewrite H2, rev_app_distr, !rev_involutive, <- app_assoc. reflexivity.
Qed.

Lemma toPublicUrl_tag_path pf site v :
  toPublicUrl pf site (YStr (lit "/tags/" ++ v ++ lit ".html"))
  = basePath site ++ lit "/tags/" ++ v ++ lit ".html".
Proof.
  unfold toPublicUrl, normalizePath. cbn [js_String truthy]. cbv zeta.
  assert (Hh : http_prefix (lit "/tags/" ++ v ++ lit ".html") = false) by reflexivity.
  assert (Hn : is_empty (lit "/tags/" ++ v ++ lit ".html") = false) by reflexivity.
  rewrite Hh, Hn. cbn [negb]. rewrite trim_tag_path.
  assert (He : str_eqb (lit "/tags/" ++ v ++ lit ".html") (lit "/") = false).
  { destruct (str_eqb _ _) eqn:E; [apply str_eqb_eq in E; discriminate E | reflexivity]. }
  rewrite He. simpl is_empty. simpl starts_with. cbv iota.
  destruct (basePath site ++ _) eqn:E; [| reflexivity].
  apply app_eq_nil in E as [_ E]. discriminate E.
Qed.

Lemma join_nil_concat (l : list jsstr) : join [] l = concat l.
Proof.
  induction l as [| x l IH]; [reflexivity |].
  destruct l as [| y l]; simpl; [rewrite app_nil_r; reflexivity |].
  simpl in IH. rewrite IH. reflexivity.
Qed.

Lemma markup_concat (l : list jsstr) : markup (concat l) = concat (map markup l).
Proof. induction l as [| x l IH]; [reflexivity |]. simpl. rewrite markup_app, IH. reflexivity. Qed.

(** The markup of one tag link: that of [basePath] and of the template. *)
Lemma markup_tag_link pf site p t :
  safe_slugs p ->
  markup (tag_link pf site p t)
  = markup (lit "<a class=" ++ dq ++ lit "tag-link" ++ dq ++ lit " href=" ++ dq)
    ++ markup (basePath site) ++ markup (dq ++ lit ">#" ++ lit "</a>").
Proof.
  intro Hs. unfold tag_link. rewrite toPublicUrl_tag_path.
  rewrite !markup_app, markup_escapeHtml, (markup_slug_lookup p t Hs).
  simpl. rewrite app_nil_r. reflexivity.
Qed.

Lemma markup_tags_html pf site p :
  safe_slugs p ->
  markup (join [] (map (tag_link pf site p) (tags p)))
  = concat (repeat (markup (lit "<a class=" ++ dq ++ lit "tag-link" ++ dq ++ lit " href=" ++ dq)
                    ++ markup (basePath site) ++ markup (dq ++ lit ">#" ++ lit "</a>"))
                   (length (tags p))).
Proof.
  intro Hs. rewrite join_nil_concat, markup_concat, map_map.
  induction (tags p) as [| t ts IH]; [reflexivity |].
  cbn [map concat repeat length]. rewrite IH, (markup_tag_link pf site p t Hs). reflexivity.
Qed.

(** C10. [escapeHtml] (and [escapeXml], the same function) leaves no
    raw less-than, greater-than, double quote or single quote, and every
    ampersand of its result starts one of the entities [&amp;], [&lt;],
    [&gt;], [&quot;], [&#39;]. The post fields interpolated into article
    cards, related cards, tag-page cards, filter options and feed items
    all go through it: the markup characters of each of these strings do
    not depend on the fields' contents. For article cards this needs the
    tag-link hrefs, built from [post.tagSlugs] without escaping, to be
    slug-shaped, which they are for every loaded post; feed items also
    carry the publication date string, so two items are compared at the
    same [isoDate]. *)
Theorem escapeHtml_safe_and_applied (pf : platform) (site : site_config) :
  (forall s c, In c (escapeHtml s) -> c <> 60 /\ c <> 62 /\ c <> 34 /\ c <> 39)
  /\ (forall s pre suf, escapeHtml s = pre ++ 38 :: suf ->
        exists e, In e entities /\ starts_with e suf = true)
  /\ (forall s, escapeXml s = escapeHtml s)
  /\ (forall p q, safe_slugs p -> safe_slugs q -> length (tags p) = length (tags q) ->
        markup (renderArticleCard pf site p) = markup (renderArticleCard pf site q))
  /\ (forall p q, markup (renderRelatedCard p) = markup (renderRelatedCard q))
  /\ (forall e1 e2, markup (tag_card e1) = markup (tag_card e2))
  /\ (forall a b, markup (category_option a) = markup (category_option b)
                  /\ markup (tag_option a) = markup (tag_option b))
  /\ (forall p q, isoDate p = isoDate q -> markup (rss_item pf p) = markup (rss_item pf q))
  /\ (forall f p, load_post pf site f = Ok p -> safe_slugs p).
Proof.
  split.
  { intros s c Hc. rewrite escapeHtml_flat_map in Hc.
    apply in_flat_map in Hc as [d [_ Hd]]. apply esc_char_no_markup in Hd.
    unfold is_markup in Hd. repeat rewrite orb_false_iff in Hd.
    destruct Hd as [[[H1 H2] H3] H4]. apply Z.eqb_neq in H1, H2, H3, H4. tauto. }
  split.
  { intros s pre suf H. apply (amp_ok_spec (escapeHtml s) pre); [| exact H].
    rewrite escapeHtml_flat_map. apply amp_ok_flat_map. }
  split; [reflexivity |].
  split.
  { intros p q Hp Hq Hl. unfold renderArticleCard. cbv zeta.
    rewrite !markup_app, !markup_escapeHtml, (markup_tags_html pf site p Hp),
      (markup_tags_html pf site q Hq), Hl. reflexivity. }
  split.
  { intros p q. unfold renderRelatedCard. rewrite !markup_app, !markup_escapeHtml. reflexivity. }
  split.
  { intros e1 e2. unfold tag_card. rewrite !markup_app, !markup_escapeHtml. reflexivity. }
  split.
  { intros a b. unfold category_option, tag_option.
    rewrite !markup_app, !markup_escapeHtml. split; reflexivity. }
  split.
  { intros p q Hd. unfold rss_item, escapeXml.
    rewrite !markup_app, !markup_escapeHtml, Hd. reflexivity. }
  exact (load_post_safe_slugs pf site).
Qed.

Lemma escapeHtml_safe_and_applied_witness :
  markup (renderArticleCard test_platform test_site post_A)
  = markup (renderArticleCard test_platform test_site post_current)
  /\ exists e, In e entities /\ starts_with e (lit "amp;") = true.
Proof.
  pose proof (escapeHtml_safe_and_applied test_platform test_site) as
    [_ [Hamp [_ [Hcard _]]]].
  split.
  - apply Hcard.
    + intros k v H. vm_compute in H. discriminate H.
    + intros k v H. vm_compute in H. discriminate H.
    + vm_compute. reflexivity.
  - apply (Hamp (lit "&") []). vm_compute. reflexivity.
Defined.

(** ** Trimming and edge stripping *)

Lemma drop_spaces_leading s : drop_spaces s = drop_leading is_js_space s.
Proof. induction s as [| c s IH]; simpl; [reflexivity | destruct (is_js_space c); auto]. Qed.

Lemma drop_leading_not_starting p s : not_starting p (drop_leading p s).
Proof.
  induction s as [| c s IH]; simpl; [exact I |].
  destruct (p c) eqn:Hc; [exact IH | exact Hc].
Qed.

Lemma drop_leading_id p s : not_starting p s -> drop_leading p s = s.
Proof. destruct s as [| c s]; simpl; [reflexivity | intro H; rewrite H; reflexivity]. Qed.

Lemma drop_leading_idem p s : drop_leading p (drop_leading p s) = drop_leading p s.
Proof. apply drop_leading_id, drop_leading_not_starting. Qed.

Lemma drop_leading_snoc p l c :
  p c = false -> exists l', drop_leading p (l ++ [c]) = l' ++ [c].
Proof.
  intro Hc. induction l as [| d l IH]; simpl.
  - rewrite Hc. exists []. reflexivity.
  - destruct (p d); [exact IH | exists (d :: l); reflexivity].
Qed.

(** Stripping the end keeps a head that is not stripped. *)
Lemma strip_end_not_starting p s :
  not_starting p s -> not_starting p (rev (drop_leading p (rev s))).
Proof.
  destruct s as [| c m]; [intros _; exact I |]. simpl. intro Hc.
  destruct (drop_leading_snoc p (rev m) c Hc) as [l' ->].
  rewrite rev_app_distr. simpl. exact Hc.
Qed.

Lemma strip_end_not_starting_rev p s :
  not_starting p (rev (rev (drop_leading p (rev s)))).
Proof. rewrite rev_involutive. apply drop_leading_not_starting. Qed.

Lemma trim_leading s : trim s = rev (drop_leading is_js_space (rev (drop_leading is_js_space s))).
Proof. unfold trim. rewrite !drop_spaces_leading. reflexivity. Qed.

Lemma trim_not_starting s :
  not_starting is_js_space (trim s) /\ not_starting is_js_space (rev (trim s)).
Proof.
  rewrite trim_leading. split.
  - apply strip_end_not_starting, drop_leading_not_starting.
  - apply strip_end_not_starting_rev.
Qed.

Lemma trim_id s :
  not_starting is_js_space s -> not_starting is_js_space (rev s) -> trim s = s.
Proof.
  intros H1 H2. rewrite trim_leading, (drop_leading_id _ s H1), (drop_leading_id _ _ H2).
  apply rev_involutive.
Qed.

Lemma trim_idem s : trim (trim s) = trim s.
Proof. destruct (trim_not_starting s) as [H1 H2]. apply trim_id; assumption. Qed.

Lemma not_starting_rev_cons p c s :
  s <> [] -> not_starting p (rev s) -> not_starting p (rev (c :: s)).
Proof.
  intros Hs H. simpl. destruct (rev s) as [| d r] eqn:E.
  - apply (f_equal (@rev Z)) in E. rewrite rev_involutive in E. contradiction.
  - exact H.
Qed.

(** ** URL paths *)

Lemma str_eqb_slash_cons c s : s <> [] -> str_eqb (c :: s) (lit "/") = false.
Proof.
  intro Hs. destruct (str_eqb _ _) eqn:E; [| reflexivity].
  apply str_eqb_eq in E. injection E as _ E. contradiction.
Qed.

Lemma normalizePath_props (pf : platform) (rawPath : yval) :
  starts_with (lit "/") (normalizePath pf rawPath) = true
  /\ normalizePath pf (YStr (normalizePath pf rawPath)) = normalizePath pf rawPath.
Proof.
  remember (normalizePath pf rawPath) as out eqn:Hout.
  unfold normalizePath in Hout. cbv zeta in Hout.
  set (value := trim (if truthy rawPath then js_String pf rawPath else [])) in Hout.
  assert (Hv : trim value = value) by apply trim_idem.
  assert (Hns := trim_not_starting (if truthy rawPath then js_String pf rawPath else [])).
  fold value in Hns. destruct Hns as [_ Hrev].
  destruct (is_empty value || str_eqb value (lit "/")) eqn:E1.
  { subst out. split; vm_compute; reflexivity. }
  apply orb_false_iff in E1 as [Hne Hnsl].
  assert (Hvne : value <> []) by (intro H; rewrite H in Hne; discriminate).
  destruct (starts_with (lit "/") value) eqn:E2; subst out.
  - split; [exact E2 |]. unfold normalizePath. cbn [truthy js_String].
    rewrite Hne. cbn [negb]. rewrite Hv, Hne, Hnsl, E2. reflexivity.
  - split; [reflexivity |]. unfold normalizePath. cbn [truthy js_String is_empty negb].
    rewrite trim_id; [| reflexivity | apply not_starting_rev_cons; assumption].
    rewrite (str_eqb_slash_cons 47 value Hvne). reflexivity.
Qed.

(** [normalizePath] always returns a path starting with a slash, and
    normalizing its result again changes nothing. *)
Theorem normalizePath_slash_idempotent (pf : platform) (rawPath : yval) :
  starts_with (lit "/") (normalizePath pf rawPath) = true
  /\ normalizePath pf (YStr (normalizePath pf rawPath)) = normalizePath pf rawPath.
Proof. exact (normalizePath_props pf rawPath). Qed.

(** ** Site configuration *)

Lemma rev_snoc_hd (l : jsstr) : l <> [] -> exists r, rev l = last l 0 :: r.
Proof.
  intro Hl. destruct (exists_last Hl) as [l' [a ->]].
  rewrite rev_unit, last_last. exists (rev l'). reflexivity.
Qed.

Lemma last_not_slash (l : jsstr) :
  l <> [] -> not_starting is_slash (rev l) -> last l 0 <> 47.
Proof.
  intros Hl H. destruct (rev_snoc_hd l Hl) as [r Hr]. rewrite Hr in H. simpl in H.
  apply Z.eqb_neq. exact H.
Qed.

Lemma normalizeBasePath_props (basePath : jsstr) :
  base_path_shape (normalizeBasePath basePath)
  /\ (strip_edge_slashes (trim basePath) = [] -> normalizeBasePath basePath = []).
Proof.
  unfold normalizeBasePath, base_path_shape.
  destruct (is_empty basePath || str_eqb basePath (lit "/")); [split; [left |]; reflexivity |].
  cbv zeta.
  assert (Hhead : not_starting is_slash (strip_edge_slashes (trim basePath)))
    by (apply strip_end_not_starting, drop_leading_not_starting).
  assert (Htail : not_starting is_slash (rev (strip_edge_slashes (trim basePath))))
    by (unfold strip_edge_slashes; apply strip_end_not_starting_rev).
  destruct (strip_edge_slashes (trim basePath)) as [| c r] eqn:Et.
  - split; [left |]; reflexivity.
  - rewrite str_eqb_slash_cons by discriminate.
    split; [| discriminate]. right. exists c, r. split; [reflexivity |].
    split; [apply Z.eqb_neq; exact Hhead |].
    apply last_not_slash; [discriminate | exact Htail].
Qed.

(** [normalizeBasePath] returns the empty string or a slash followed by
    a non-empty text that neither starts nor ends with a slash; it
    returns the empty string for [''], ['/'] and any string of slashes
    and blanks. *)
Theorem normalizeBasePath_shape (basePath : jsstr) :
  base_path_shape (normalizeBasePath basePath)
  /\ (strip_edge_slashes (trim basePath) = [] -> normalizeBasePath basePath = []).
Proof. exact (normalizeBasePath_props basePath). Qed.

Lemma normalizeOrigin_props (o : jsstr) :
  normalizeOrigin o <> [] /\ last (normalizeOrigin o) 0 <> 47
  /\ (o <> [] -> last o 0 <> 47 -> normalizeOrigin o = o).
Proof.
  unfold normalizeOrigin. cbv zeta.
  assert (Hs := strip_end_not_starting_rev is_slash o).
  split; [| split].
  - destruct (is_empty _) eqn:E; [discriminate |].
    intro H. rewrite H in E. discriminate.
  - destruct (is_empty _) eqn:E; [vm_compute; discriminate |].
    apply last_not_slash; [intro H; rewrite H in E; discriminate | exact Hs].
  - intros Hne Hl. destruct (rev_snoc_hd o Hne) as [r Hr]. rewrite Hr. simpl.
    apply Z.eqb_neq in Hl. unfold is_slash. rewrite Hl. rewrite <- Hr, rev_involutive.
    destruct o; [contradiction | reflexivity].
Qed.

(** [normalizeOrigin] never returns an empty string or one ending with a
    slash, and returns a non-empty origin that does not end with a slash
    unchanged. *)
Theorem normalizeOrigin_no_trailing_slash (o : jsstr) :
  normalizeOrigin o <> [] /\ last (normalizeOrigin o) 0 <> 47
  /\ (o <> [] -> last o 0 <> 47 -> normalizeOrigin o = o).
Proof. exact (normalizeOrigin_props o). Qed.

Lemma normalizeBasePath_shape_witness :
  normalizeBasePath (lit " /// ") = [].
Proof. apply (proj2 (normalizeBasePath_shape (lit " /// "))). vm_compute. reflexivity. Defined.

Lemma normalizeOrigin_no_trailing_slash_witness :
  normalizeOrigin (lit "https://example.org") = lit "https://example.org".
Proof.
  apply (proj2 (proj2 (normalizeOrigin_no_trailing_slash (lit "https://example.org"))));
    vm_compute; discriminate.
Defined.

Lemma normalizePath_nonempty pf v : normalizePath pf v <> [].
Proof.
  intro H. pose proof (proj1 (normalizePath_props pf v)) as Hs.
  rewrite H in Hs. discriminate.
Qed.

(** Whatever the environment, [SITE.origin] is non-empty without a
    trailing slash and [SITE.basePath] has the normalized shape; then
    [toPublicUrl] of any path that is not an http(s) URL is the base path
    followed by the normalized path, and starts with a slash. *)
Theorem site_public_urls (pf : platform) (site_url base_path repository owner : jsstr) :
  origin (site_of pf site_url base_path repository owner) <> []
  /\ last (origin (site_of pf site_url base_path repository owner)) 0 <> 47
  /\ base_path_shape (basePath (site_of pf site_url base_path repository owner))
  /\ (forall rawPath, http_prefix (js_String pf rawPath) = false ->
        toPublicUrl pf (site_of pf site_url base_path repository owner) rawPath
        = basePath (site_of pf site_url base_path repository owner) ++ normalizePath pf rawPath
        /\ starts_with (lit "/")
             (toPublicUrl pf (site_of pf site_url base_path repository owner) rawPath) = true).
Proof.
  destruct (normalizeOrigin_props
              (if is_empty site_url then inferDefaultOrigin owner else site_url)) as [Ho1 [Ho2 _]].
  assert (Hb := proj1 (normalizeBasePath_props
              (if is_empty base_path then inferBasePathFromRepository pf repository else base_path))).
  split; [exact Ho1 | split; [exact Ho2 | split; [exact Hb |]]].
  intros rawPath Hh. unfold toPublicUrl. rewrite Hh. cbv zeta.
  change (basePath (site_of pf site_url base_path repository owner)) with
    (normalizeBasePath (if is_empty base_path then inferBasePathFromRepository pf repository else base_path)).
  set (b := normalizeBasePath (if is_empty base_path then inferBasePathFromRepository pf repository else base_path)) in *.
  assert (Hne : is_empty (b ++ normalizePath pf rawPath) = false).
  { destruct (b ++ normalizePath pf rawPath) eqn:E; [| reflexivity].
    apply app_eq_nil in E as [_ E]. exfalso. exact (normalizePath_nonempty pf rawPath E). }
  rewrite Hne. split; [reflexivity |].
  destruct Hb as [Hb | [c [r [Hb _]]]]; rewrite Hb; [| reflexivity].
  apply (proj1 (normalizePath_props pf rawPath)).
Qed.

Lemma site_public_urls_witness :
  toPublicUrl test_platform (site_of test_platform [] [] (lit "alice/blog") (lit "alice"))
    (YStr (lit "assets/a.png"))
  = lit "/blog/assets/a.png".
Proof.
  refine (eq_trans (proj1 (proj2 (proj2 (proj2
    (site_public_urls test_platform [] [] (lit "alice/blog") (lit "alice")))) _ _)) _);
    vm_compute; reflexivity.
Defined.

Lemma last_in (l : jsstr) d : l <> [] -> In (last l d) l.
Proof.
  intro Hl. destruct (exists_last Hl) as [l' [a ->]]. rewrite last_last.
  apply in_or_app. right. left. reflexivity.
Qed.

Lemma split_slash_app owner rest :
  ~ In 47 owner -> split_slash (owner ++ 47 :: rest) = owner :: split_slash rest.
Proof.
  induction owner as [| c o IH]; intro Hn; simpl; [reflexivity |].
  destruct (Z.eqb_spec c 47) as [-> | Hc]; [exfalso; apply Hn; left; reflexivity |].
  rewrite IH; [reflexivity | intro H; apply Hn; right; exact H].
Qed.

Lemma split_slash_none s : ~ In 47 s -> split_slash s = [s].
Proof.
  induction s as [| c s IH]; intro Hn; simpl; [reflexivity |].
  destruct (Z.eqb_spec c 47) as [-> | Hc]; [exfalso; apply Hn; left; reflexivity |].
  rewrite IH; [reflexivity | intro H; apply Hn; right; exact H].
Qed.

(** Without [BASE_PATH], a repository [owner/repo] (neither part empty
    or containing a slash, [repo] not ending in a blank) gives the base
    path [/repo], except for the user site [owner.github.io] (compared in
    lower case), which gives the empty base path. *)
Theorem site_basePath_from_repository (pf : platform) (site_url owner repo owner_env : jsstr) :
  owner <> [] -> repo <> [] -> ~ In 47 owner -> ~ In 47 repo ->
  not_starting is_js_space (rev repo) ->
  basePath (site_of pf site_url [] (owner ++ 47 :: repo) owner_env)
  = if str_eqb (to_lower pf repo) (to_lower pf owner ++ lit ".github.io") then [] else 47 :: repo.
Proof.
  intros Ho Hr Hno Hnr Hsp. cbn [site_of basePath is_empty].
  unfold inferBasePathFromRepository.
  rewrite split_slash_app by exact Hno. rewrite split_slash_none by exact Hnr.
  destruct owner as [| co owner]; [contradiction |]. destruct repo as [| cr repo]; [contradiction |].
  cbn [is_empty orb].
  destruct (str_eqb _ _); [reflexivity |].
  unfold normalizeBasePath. cbn [is_empty orb]. rewrite str_eqb_slash_cons by discriminate.
  cbv zeta.
  rewrite trim_id; [| reflexivity | apply not_starting_rev_cons; [discriminate | exact Hsp]].
  assert (Hstrip : strip_edge_slashes (47 :: cr :: repo) = cr :: repo).
  { unfold strip_edge_slashes.
    change (drop_leading is_slash (47 :: cr :: repo)) with (drop_leading is_slash (cr :: repo)).
    assert (Hc : cr <> 47) by (intro H; apply Hnr; left; exact H).
    rewrite (drop_leading_id is_slash (cr :: repo))
      by (unfold not_starting, is_slash; apply Z.eqb_neq; exact Hc).
    rewrite drop_leading_id; [apply rev_involutive |].
    destruct (rev_snoc_hd (cr :: repo) ltac:(discriminate)) as [r' Hr'].
    rewrite Hr'. unfold not_starting, is_slash. apply Z.eqb_neq. intro H.
    apply Hnr. rewrite <- H. apply last_in. discriminate. }
  rewrite Hstrip. rewrite str_eqb_slash_cons by discriminate. reflexivity.
Qed.

Lemma site_basePath_from_repository_witness :
  basePath (site_of test_platform [] [] (lit "alice/blog") (lit "alice")) = lit "/blog".
Proof.
  refine (eq_trans (site_basePath_from_repository test_platform [] (lit "alice") (lit "blog")
                      (lit "alice") _ _ _ _ _) _);
    first [discriminate | vm_compute; reflexivity | simpl; intuition lia].
Defined.

(** ** [stripHtml] *)

Lemma collapse_spaces_blank b s : Forall space_is_blank (collapse_spaces b s).
Proof.
  revert b. induction s as [| c s IH]; intro b; simpl; [constructor |].
  destruct (is_js_space c) eqn:Ec; [destruct b |].
  - apply IH.
  - constructor; [intros _; reflexivity | apply IH].
  - constructor; [intro H; rewrite Ec in H; discriminate | apply IH].
Qed.

Lemma collapse_spaces_run s : not_starting is_js_space (collapse_spaces true s).
Proof.
  induction s as [| c s IH]; simpl; [exact I |].
  destruct (is_js_space c) eqn:Ec; [exact IH | exact Ec].
Qed.

Lemma collapse_spaces_single b s : is_infix [32; 32] (collapse_spaces b s) = false.
Proof.
  revert b. induction s as [| c s IH]; intro b; simpl; [reflexivity |].
  destruct (is_js_space c) eqn:Ec; [destruct b |].
  - apply IH.
  - change (is_infix [32; 32] (32 :: collapse_spaces true s))
      with (starts_with [32; 32] (32 :: collapse_spaces true s) || is_infix [32; 32] (collapse_spaces true s)).
    rewrite IH, orb_false_r. pose proof (collapse_spaces_run s) as Hr.
    destruct (collapse_spaces true s) as [| d r]; [reflexivity |].
    cbn [starts_with]. simpl in Hr. destruct (Z.eqb_spec 32 d) as [<- | _]; [discriminate | reflexivity].
  - change (is_infix [32; 32] (c :: collapse_spaces false s))
      with (starts_with [32; 32] (c :: collapse_spaces false s) || is_infix [32; 32] (collapse_spaces false s)).
    rewrite IH, orb_false_r. cbn [starts_with].
    destruct (Z.eqb_spec 32 c) as [<- | _]; [discriminate | reflexivity].
Qed.

Lemma drop_leading_suffix p s : exists l, s = l ++ drop_leading p s.
Proof.
  induction s as [| c s [l IH]]; simpl; [exists []; reflexivity |].
  destruct (p c); [exists (c :: l); rewrite IH at 1; reflexivity | exists []; reflexivity].
Qed.

Lemma trim_infix s : exists l r, s = l ++ trim s ++ r.
Proof.
  rewrite trim_leading.
  destruct (drop_leading_suffix is_js_space s) as [l Hl].
  destruct (drop_leading_suffix is_js_space (rev (drop_leading is_js_space s))) as [l' Hl'].
  exists l, (rev l'). rewrite <- rev_app_distr, <- Hl', rev_involutive. exact Hl.
Qed.

Lemma is_infix_mid p a m b : is_infix p (a ++ m ++ b) = false -> is_infix p m = false.
Proof.
  intro H. destruct (is_infix p m) eqn:E; [| reflexivity].
  rewrite (is_infix_app_r p a _ (is_infix_app_l p m b E)) in H. discriminate.
Qed.

(** [stripHtml] returns text without whitespace at either end in which
    every whitespace character is a plain space and no two spaces are
    adjacent. *)
Theorem stripHtml_normal_form (html : jsstr) :
  not_starting is_js_space (stripHtml html)
  /\ not_starting is_js_space (rev (stripHtml html))
  /\ Forall space_is_blank (stripHtml html)
  /\ is_infix [32; 32] (stripHtml html) = false.
Proof.
  unfold stripHtml. set (t := collapse_spaces false (tags_go (length html) html)).
  destruct (trim_not_starting t) as [H1 H2].
  destruct (trim_infix t) as [l [r Hlr]].
  split; [exact H1 | split; [exact H2 | split]].
  - pose proof (collapse_spaces_blank false (tags_go (length html) html)) as Hb. fold t in Hb.
    rewrite Hlr in Hb. apply Forall_app in Hb as [_ Hb]. apply Forall_app in Hb as [Hb _]. exact Hb.
  - pose proof (collapse_spaces_single false (tags_go (length html) html)) as Hs. fold t in Hs.
    rewrite Hlr in Hs. exact (is_infix_mid _ _ _ _ Hs).
Qed.

(** ** [escapeHtml]: injectivity and fixed points *)

Lemma esc_char_cases c :
  (c = 38 /\ esc_char c = lit "&amp;") \/ (c = 60 /\ esc_char c = lit "&lt;")
  \/ (c = 62 /\ esc_char c = lit "&gt;") \/ (c = 34 /\ esc_char c = lit "&quot;")
  \/ (c = 39 /\ esc_char c = lit "&#39;")
  \/ (c <> 38 /\ c <> 60 /\ c <> 62 /\ c <> 34 /\ c <> 39 /\ esc_char c = [c]).
Proof.
  unfold esc_char.
  destruct (Z.eqb_spec c 38); [left; split; auto |].
  destruct (Z.eqb_spec c 60); [right; left; split; auto |].
  destruct (Z.eqb_spec c 62); [right; right; left; split; auto |].
  destruct (Z.eqb_spec c 34); [right; right; right; left; split; auto |].
  destruct (Z.eqb_spec c 39); [right; right; right; right; left; split; auto |].
  right; right; right; right; right; repeat split; auto.
Qed.

Lemma esc_char_prefix c d (x y : jsstr) :
  esc_char c ++ x = esc_char d ++ y -> c = d /\ x = y.
Proof.
  intro H.
  destruct (esc_char_cases c) as [[-> Ec] | [[-> Ec] | [[-> Ec] | [[-> Ec] | [[-> Ec] | [Hc1 [Hc2 [Hc3 [Hc4 [Hc5 Ec]]]]]]]]]];
  destruct (esc_char_cases d) as [[-> Ed] | [[-> Ed] | [[-> Ed] | [[-> Ed] | [[-> Ed] | [Hd1 [Hd2 [Hd3 [Hd4 [Hd5 Ed]]]]]]]]]];
  rewrite ?Ec, ?Ed in H; cbn in H; inversion H; subst; auto; congruence.
Qed.

Lemma esc_char_nonempty c : esc_char c <> [].
Proof.
  destruct (esc_char_cases c) as [[_ E] | [[_ E] | [[_ E] | [[_ E] | [[_ E] | [_ [_ [_ [_ [_ E]]]]]]]]]];
    rewrite E; discriminate.
Qed.

Lemma esc_flat_map_length s : (length s <= length (flat_map esc_char s))%nat.
Proof.
  induction s as [| c s IH]; simpl; [lia |]. rewrite length_app.
  pose proof (esc_char_nonempty c). destruct (esc_char c); [contradiction | simpl; lia].
Qed.

(** [escapeHtml] is injective, and it leaves a string unchanged exactly
    when the string contains none of the characters [&], [<], [>], the
    double quote and the single quote. *)
Theorem escapeHtml_injective_fixed (a b s : jsstr) :
  (escapeHtml a = escapeHtml b -> a = b)
  /\ (escapeHtml s = s
      <-> forallb (fun c => negb (is_markup c) && negb (c =? 38)) s = true).
Proof.
  rewrite !escapeHtml_flat_map. split.
  - revert b. induction a as [| c a IH]; intros [| d b] H; simpl in H.
    + reflexivity.
    + exfalso. symmetry in H. apply app_eq_nil in H as [H _]. exact (esc_char_nonempty d H).
    + exfalso. apply app_eq_nil in H as [H _]. exact (esc_char_nonempty c H).
    + apply esc_char_prefix in H as [-> H]. rewrite (IH b H). reflexivity.
  - induction s as [| c s IH]; [split; reflexivity |]. simpl. split.
    + intro H.
      destruct (esc_char_cases c) as [[-> E] | [[-> E] | [[-> E] | [[-> E] | [[-> E] | [H1 [H2 [H3 [H4 [H5 E]]]]]]]]]];
        rewrite E in H;
        try (exfalso; pose proof (esc_flat_map_length s) as Hl;
             apply (f_equal (@length Z)) in H; rewrite length_app in H; simpl in H; lia).
      cbn [app] in H. injection H as H. apply IH in H. rewrite H, andb_true_r.
      unfold is_markup. apply Z.eqb_neq in H1, H2, H3, H4, H5.
      rewrite H1, H2, H3, H4, H5. reflexivity.
    + intro H. apply andb_prop in H as [Hc Hs]. rewrite (proj2 IH Hs).
      unfold is_markup in Hc.
      destruct (esc_char_cases c) as [[-> E] | [[-> E] | [[-> E] | [[-> E] | [[-> E] | [_ [_ [_ [_ [_ E]]]]]]]]]];
        [discriminate Hc .. | rewrite E; reflexivity].
Qed.

Lemma escapeHtml_injective_fixed_witness :
  lit "a<b" = lit "a<b" /\ escapeHtml (lit "plain text") = lit "plain text".
Proof.
  split.
  - apply (proj1 (escapeHtml_injective_fixed (lit "a<b") (lit "a<b") [])). reflexivity.
  - apply (proj2 (proj2 (escapeHtml_injective_fixed [] [] (lit "plain text")))).
    vm_compute. reflexivity.
Defined.

(** ** [renderTemplate] *)

Lemma length_drop_spaces s : (length (drop_spaces s) <= length s)%nat.
Proof. induction s as [| c s IH]; simpl; [lia | destruct (is_js_space c); simpl; lia]. Qed.

Lemma starts_with_length p s : starts_with p s = true -> (length p <= length s)%nat.
Proof.
  revert s. induction p as [| c p IH]; intros s H; [simpl; lia |].
  destruct s as [| d s]; simpl in H; [discriminate |].
  apply andb_prop in H as [_ H]. apply IH in H. simpl. lia.
Qed.

Lemma match_placeholder_shorter s k rest :
  match_placeholder s = Some (k, rest) -> (length rest + 4 <= length s)%nat.
Proof.
  unfold match_placeholder.
  destruct (starts_with (lit "{{") s) eqn:E1; [| discriminate].
  cbv zeta. destruct (is_empty _) eqn:E2; [discriminate |].
  set (r2 := drop_spaces (skipn 2 s)).
  set (key := take_while is_name_char r2) in *.
  set (r4 := drop_spaces (skipn (length key) r2)).
  destruct (starts_with (lit "}}") r4) eqn:E3; [| discriminate].
  intro H. injection H as _ <-.
  assert (Hs : (2 <= length s)%nat) by (apply starts_with_length in E1; exact E1).
  assert (Hr4 : (2 <= length r4)%nat) by (apply starts_with_length in E3; exact E3).
  assert (H2 : (length r2 <= length s - 2)%nat).
  { unfold r2. pose proof (length_drop_spaces (skipn 2 s)). rewrite length_skipn in H. lia. }
  assert (H4 : (length r4 <= length r2 - length key)%nat).
  { unfold r4. pose proof (length_drop_spaces (skipn (length key) r2)). rewrite length_skipn in H. lia. }
  assert (Hkr : (length key <= length r2)%nat).
  { unfold key. clear. induction r2 as [| c r IH]; simpl; [lia | destruct (is_name_char c); simpl; lia]. }
  clearbody r4. destruct r4 as [| a [| b r']]; simpl in Hr4, H4 |- *; lia.
Qed.

Lemma render_go_nil params n : render_go params n [] = [].
Proof. destruct n; reflexivity. Qed.

Lemma render_go_fuel params n m s :
  (length s <= n)%nat -> (length s <= m)%nat -> render_go params n s = render_go params m s.
Proof.
  revert m s. induction n as [| n IH]; intros m s Hn Hm.
  - destruct s; [rewrite !render_go_nil; reflexivity | simpl in Hn; lia].
  - destruct s as [| c s']; [rewrite !render_go_nil; reflexivity |].
    destruct m as [| m]; [simpl in Hm; lia |]. cbn [render_go].
    destruct (match_placeholder (c :: s')) as [[key rest] |] eqn:E.
    + apply match_placeholder_shorter in E. simpl in E, Hn, Hm.
      rewrite (IH m rest) by lia. reflexivity.
    + simpl in Hn, Hm. rewrite (IH m s') by lia. reflexivity.
Qed.

Lemma render_go_plain params s n :
  is_infix (lit "{{") s = false -> (length s <= n)%nat -> render_go params n s = s.
Proof.
  revert n. induction s as [| c s IH]; intros n Hi Hn; [apply render_go_nil |].
  destruct n as [| n]; [simpl in Hn; lia |].
  change (is_infix (lit "{{") (c :: s)) with (starts_with (lit "{{") (c :: s) || is_infix (lit "{{") s) in Hi.
  apply orb_false_iff in Hi as [H1 H2].
  cbn [render_go]. unfold match_placeholder at 1. rewrite H1.
  rewrite IH by (simpl in Hn; lia || assumption). reflexivity.
Qed.

Lemma name_char_not_space c : is_name_char c = true -> is_js_space c = false.
Proof.
  unfold is_name_char. intro H.
  assert (Hr : 48 <= c <= 122).
  { repeat match goal with
           | H : (_ || _) = true |- _ => apply orb_prop in H as [H | H]
           | H : (_ && _) = true |- _ => apply andb_prop in H as [? ?]
           | H : (_ <=? _) = true |- _ => apply Z.leb_le in H
           | H : (_ =? _) = true |- _ => apply Z.eqb_eq in H
           end; lia. }
  unfold is_js_space.
  repeat rewrite (proj2 (Z.eqb_neq c _)) by lia.
  rewrite (proj2 (Z.leb_gt 8192 c)) by lia. reflexivity.
Qed.

Lemma take_while_names k r :
  forallb is_name_char k = true -> take_while is_name_char (k ++ 125 :: r) = k.
Proof.
  intros Hk. induction k as [| c k IH]; simpl; [reflexivity |].
  simpl in Hk. apply andb_prop in Hk as [Hc Hk]. rewrite Hc, IH by exact Hk. reflexivity.
Qed.

Lemma match_placeholder_at k r :
  k <> [] -> forallb is_name_char k = true ->
  match_placeholder (lit "{{" ++ k ++ lit "}}" ++ r) = Some (k, r).
Proof.
  intros Hne Hk. unfold match_placeholder.
  change (lit "{{" ++ k ++ lit "}}" ++ r) with (123 :: 123 :: k ++ 125 :: 125 :: r).
  cbn [starts_with lit Z.eqb Pos.eqb andb]. change (Z.of_nat (nat_of_ascii "{"%char)) with 123.
  rewrite Z.eqb_refl. cbn [andb skipn].
  destruct k as [| c k']; [contradiction |].
  assert (Hc : is_name_char c = true) by (simpl in Hk; apply andb_prop in Hk as [H _]; exact H).
  cbn [drop_spaces app]. rewrite (name_char_not_space c Hc).
  change (c :: k' ++ 125 :: 125 :: r) with ((c :: k') ++ 125 :: 125 :: r).
  rewrite take_while_names by exact Hk.
  cbv zeta. cbn [is_empty].
  rewrite skipn_app, Nat.sub_diag, skipn_all. cbn [skipn app drop_spaces].
  change (is_js_space 125) with false. cbv iota.
  change (starts_with (lit "}}") (125 :: 125 :: r)) with true. reflexivity.
Qed.

Lemma starts_two_brace_snoc c l x :
  starts_with (lit "{{") (c :: l ++ 123 :: x) = starts_with (lit "{{") (c :: l ++ [123]).
Proof. destruct l; reflexivity. Qed.

Lemma render_go_prefix params l x n :
  is_infix (lit "{{") (l ++ [123]) = false -> Nat.le (length (l ++ 123 :: x)) n ->
  render_go params n (l ++ 123 :: x) = l ++ render_go params (n - length l) (123 :: x).
Proof.
  revert n. induction l as [| c l IH]; intros n Hi Hn.
  - rewrite Nat.sub_0_r. reflexivity.
  - destruct n as [| n]; [simpl in Hn; lia |].
    change ((c :: l) ++ [123]) with (c :: l ++ [123]) in Hi.
    change (is_infix (lit "{{") (c :: l ++ [123]))
      with (starts_with (lit "{{") (c :: l ++ [123]) || is_infix (lit "{{") (l ++ [123])) in Hi.
    apply orb_false_iff in Hi as [H1 H2].
    change ((c :: l) ++ 123 :: x) with (c :: l ++ 123 :: x). cbn [render_go].
    unfold match_placeholder at 1. rewrite starts_two_brace_snoc, H1.
    rewrite IH by (exact H2 || (simpl in Hn; lia)). reflexivity.
Qed.

(** [renderTemplate] returns a template without the opening [{{] of a
    placeholder unchanged. *)
Theorem renderTemplate_plain (template : jsstr) (params : obj jsval) :
  is_infix (lit "{{") template = false -> renderTemplate template params = template.
Proof. intro H. apply render_go_plain; [exact H | lia]. Qed.

Lemma renderTemplate_plain_witness :
  renderTemplate (lit "<p>{x} }}</p>") [] = lit "<p>{x} }}</p>".
Proof. apply renderTemplate_plain. vm_compute. reflexivity. Defined.

(** A placeholder [{{key}}] with a non-empty name made of letters, digits
    and underscores is replaced by [params[key]] as a string (the text
    before it containing no [{{], even together with the first brace),
    and rendering continues after it. *)
Theorem renderTemplate_placeholder (before key after : jsstr) (params : obj jsval) :
  is_infix (lit "{{") (before ++ [123]) = false ->
  key <> [] -> forallb is_name_char key = true ->
  renderTemplate (before ++ lit "{{" ++ key ++ lit "}}" ++ after) params
  = before ++ param_string params key ++ renderTemplate after params.
Proof.
  intros Hb Hk Hn. unfold renderTemplate.
  change (lit "{{" ++ key ++ lit "}}" ++ after) with (123 :: (123 :: key ++ lit "}}" ++ after)).
  rewrite render_go_prefix by (exact Hb || lia). f_equal.
  rewrite length_app, Nat.add_comm, Nat.add_sub.
  change (123 :: 123 :: key ++ lit "}}" ++ after) with (lit "{{" ++ key ++ lit "}}" ++ after).
  pose proof (match_placeholder_at key after Hk Hn) as Hm.
  remember (lit "{{" ++ key ++ lit "}}" ++ after) as t eqn:Et.
  assert (Hlen : length t = S (S (length key + 2 + length after))).
  { subst t. rewrite !length_app. simpl. lia. }
  rewrite Hlen. remember (S (length key + 2 + length after)) as m eqn:Em.
  destruct t as [| c s]; [discriminate |].
  cbn [render_go]. rewrite Hm. f_equal. apply render_go_fuel; lia.
Qed.

Lemma renderTemplate_placeholder_witness :
  renderTemplate (lit "<h1>{{title}}</h1>") [(lit "title", JString (lit "Hi"))]
  = lit "<h1>Hi</h1>".
Proof.
  refine (eq_trans (renderTemplate_placeholder (lit "<h1>") (lit "title") (lit "</h1>")
                      [(lit "title", JString (lit "Hi"))] _ _ _) _);
    first [vm_compute; reflexivity | discriminate].
Defined.

(** ** [buildTagsMap] *)

Lemma assoc_obj_set_eq {V} (o : obj V) k v t :
  assoc t (obj_set o k v) = if str_eqb t k then Some v else assoc t o.
Proof.
  induction o as [| [k' v'] o IH]; simpl; [reflexivity |].
  destruct (str_eqb k k') eqn:E.
  - apply str_eqb_eq in E. subst k'. simpl. destruct (str_eqb t k); reflexivity.
  - simpl. rewrite IH.
    destruct (str_eqb t k') eqn:E2; destruct (str_eqb t k) eqn:E3; try reflexivity.
    apply str_eqb_eq in E2, E3. subst. rewrite str_eqb_refl in E. discriminate.
Qed.

Lemma obj_set_fst_in {V} (o : obj V) k v x :
  In x (map fst (obj_set o k v)) <-> x = k \/ In x (map fst o).
Proof.
  induction o as [| [k' v'] o IH]; simpl; [intuition congruence |].
  destruct (str_eqb k k') eqn:E; simpl.
  - apply str_eqb_eq in E. subst. intuition congruence.
  - rewrite IH. intuition congruence.
Qed.

Lemma obj_set_nodup {V} (o : obj V) k v : NoDup (map fst o) -> NoDup (map fst (obj_set o k v)).
Proof.
  induction o as [| [k' v'] o IH]; simpl; intro H; [repeat constructor; auto |].
  inversion H as [| ? ? Hn Hd]; subst.
  destruct (str_eqb k k') eqn:E; simpl.
  - constructor; assumption.
  - constructor; [| apply IH; exact Hd].
    rewrite obj_set_fst_in. intros [Hk | Hk]; [| contradiction].
    subst. rewrite str_eqb_refl in E. discriminate.
Qed.

Lemma assoc_none_iff {V} (o : obj V) t : assoc t o = None <-> ~ In t (map fst o).
Proof.
  induction o as [| [k v] o IH]; simpl; [intuition congruence |].
  destruct (str_eqb t k) eqn:E.
  - apply str_eqb_eq in E. subst. split; [discriminate | intuition congruence].
  - rewrite IH. split; [| intuition congruence]. intros H [Hk | Hk]; [| contradiction].
    subst. rewrite str_eqb_refl in E. discriminate.
Qed.

Lemma own_keys_in {V} (o : obj V) x : In x (own_keys o) <-> In x (map fst o).
Proof.
  unfold own_keys. rewrite in_app_iff. split.
  - intros [H | H].
    + apply (Permutation_in _ (sort_by_perm _ _)) in H. apply filter_In in H. tauto.
    + apply filter_In in H. tauto.
  - intro H. destruct (array_index x) eqn:E.
    + left. apply (Permutation_in _ (Permutation_sym (sort_by_perm _ _))).
      apply filter_In. rewrite E. auto.
    + right. apply filter_In. rewrite E. auto.
Qed.

Lemma includes_cons t tag ts : includes (tag :: ts) t = str_eqb t tag || includes ts t.
Proof. reflexivity. Qed.

Lemma tag_count_cons t tag ts :
  tag_count t (tag :: ts) = if str_eqb t tag then S (tag_count t ts) else tag_count t ts.
Proof. unfold tag_count. simpl. destruct (str_eqb t tag); reflexivity. Qed.

Lemma tag_count_zero t ts : includes ts t = false -> tag_count t ts = O.
Proof.
  induction ts as [| tag ts IH]; intro H; [reflexivity |].
  rewrite includes_cons in H. apply orb_false_iff in H as [H1 H2].
  rewrite tag_count_cons, H1. apply IH, H2.
Qed.

Lemma add_post_tags_cons m p tag ts :
  is_proto_key tag = false ->
  exists m2, add_post_tags m p (tag :: ts) = add_post_tags m2 p ts
    /\ (NoDup (map fst m) -> NoDup (map fst m2))
    /\ forall t, assoc t m2 = if str_eqb t tag then Some (entries_or_nil m tag ++ [tag_entry_of p])
                             else assoc t m.
Proof.
  intro Hp. cbn [add_post_tags]. unfold entries_or_nil.
  destruct (assoc tag m) as [l |] eqn:Ea.
  - assert (Hg : obj_get m tag = Own l) by (unfold obj_get; rewrite Ea; reflexivity).
    rewrite Hg, Hg. exists (obj_set m tag (l ++ [tag_entry_of p])).
    split; [reflexivity | split; [apply obj_set_nodup |]].
    intro t. apply assoc_obj_set_eq.
  - assert (Hg : obj_get m tag = Absent).
    { unfold obj_get. rewrite Ea. change (existsb (str_eqb tag) object_prototype_keys) with (is_proto_key tag).
      rewrite Hp. reflexivity. }
    rewrite Hg.
    assert (Hg1 : obj_get (obj_set m tag []) tag = Own []).
    { unfold obj_get. rewrite assoc_obj_set_eq, str_eqb_refl. reflexivity. }
    rewrite Hg1. exists (obj_set (obj_set m tag []) tag ([] ++ [tag_entry_of p])).
    split; [reflexivity | split; [intro H; apply obj_set_nodup, obj_set_nodup, H |]].
    intro t. rewrite !assoc_obj_set_eq. destruct (str_eqb t tag); reflexivity.
Qed.

Lemma add_post_tags_ok p ts m :
  existsb is_proto_key ts = false -> NoDup (map fst m) ->
  exists m', add_post_tags m p ts = Some m' /\ NoDup (map fst m')
    /\ forall t, assoc t m' = if includes ts t
                             then Some (entries_or_nil m t ++ repeat (tag_entry_of p) (tag_count t ts))
                             else assoc t m.
Proof.
  revert m. induction ts as [| tag ts IH]; intros m Hp Hd.
  - exists m. split; [reflexivity | split; [exact Hd | reflexivity]].
  - simpl in Hp. apply orb_false_iff in Hp as [Htag Hts].
    destruct (add_post_tags_cons m p tag ts Htag) as [m2 [Heq [Hd2 Ha2]]].
    destruct (IH m2 Hts (Hd2 Hd)) as [m' [Hm' [Hd' Ha']]].
    exists m'. rewrite Heq. split; [exact Hm' | split; [exact Hd' |]].
    intro t. rewrite Ha', includes_cons, tag_count_cons.
    unfold entries_or_nil at 1. rewrite Ha2.
    destruct (str_eqb t tag) eqn:Et.
    + apply str_eqb_eq in Et. subst t. unfold entries_or_nil at 2.
      destruct (includes ts tag) eqn:Ei; simpl.
      * rewrite <- app_assoc. reflexivity.
      * rewrite (tag_count_zero _ _ Ei). reflexivity.
    + simpl. destruct (includes ts t); reflexivity.
Qed.

Lemma add_post_tags_fail p ts m :
  (forall t, is_proto_key t = true -> assoc t m = None) ->
  existsb is_proto_key ts = true -> add_post_tags m p ts = None.
Proof.
  revert m. induction ts as [| tag ts IH]; intros m Hm Hp; [discriminate |].
  destruct (is_proto_key tag) eqn:Et.
  - cbn [add_post_tags].
    assert (Hg : obj_get m tag = Proto tag).
    { unfold obj_get. rewrite (Hm tag Et).
      change (existsb (str_eqb tag) object_prototype_keys) with (is_proto_key tag). rewrite Et. reflexivity. }
    rewrite Hg, Hg. reflexivity.
  - simpl in Hp. rewrite Et in Hp.
    destruct (add_post_tags_cons m p tag ts Et) as [m2 [Heq [_ Ha2]]].
    rewrite Heq. apply IH; [| exact Hp].
    intros t Ht. rewrite Ha2. destruct (str_eqb t tag) eqn:E.
    + apply str_eqb_eq in E. subst. rewrite Et in Ht. discriminate.
    + apply Hm, Ht.
Qed.

Lemma includes_proto ts t : existsb is_proto_key ts = false -> is_proto_key t = true -> includes ts t = false.
Proof.
  induction ts as [| tag ts IH]; intros H Ht; [reflexivity |].
  simpl in H. apply orb_false_iff in H as [H1 H2]. rewrite includes_cons, IH by assumption.
  destruct (str_eqb t tag) eqn:E; [| reflexivity].
  apply str_eqb_eq in E. subst. rewrite Ht in H1. discriminate.
Qed.

Lemma tag_entries_untagged ps t : tagged ps t = false -> tag_entries ps t = [].
Proof.
  induction ps as [| p ps IH]; intro H; [reflexivity |].
  unfold tagged in H. simpl in H. apply orb_false_iff in H as [H1 H2].
  unfold tag_entries. simpl. rewrite (tag_count_zero _ _ H1). apply IH, H2.
Qed.

Lemma tags_loop_ok ps m :
  existsb (fun p => existsb is_proto_key (tags p)) ps = false -> NoDup (map fst m) ->
  exists m', tags_loop m ps = Some m' /\ NoDup (map fst m')
    /\ forall t, assoc t m' = if tagged ps t then Some (entries_or_nil m t ++ tag_entries ps t)
                             else assoc t m.
Proof.
  revert m. induction ps as [| p ps IH]; intros m Hp Hd.
  - exists m. split; [reflexivity | split; [exact Hd | reflexivity]].
  - simpl in Hp. apply orb_false_iff in Hp as [Hp1 Hps].
    destruct (add_post_tags_ok p (tags p) m Hp1 Hd) as [m1 [Hm1 [Hd1 Ha1]]].
    destruct (IH m1 Hps Hd1) as [m' [Hm' [Hd' Ha']]].
    exists m'. cbn [tags_loop]. rewrite Hm1. split; [exact Hm' | split; [exact Hd' |]].
    intro t. rewrite Ha'. unfold tagged, tag_entries. cbn [existsb flat_map].
    fold (tagged ps t). fold (tag_entries ps t).
    unfold entries_or_nil at 1. rewrite Ha1.
    destruct (includes (tags p) t) eqn:Ei; simpl.
    + destruct (tagged ps t) eqn:Et; [rewrite <- app_assoc; reflexivity |].
      rewrite (tag_entries_untagged _ _ Et), app_nil_r. reflexivity.
    + rewrite (tag_count_zero _ _ Ei). reflexivity.
Qed.

Lemma tags_loop_fail ps m :
  NoDup (map fst m) -> (forall t, is_proto_key t = true -> assoc t m = None) ->
  existsb (fun p => existsb is_proto_key (tags p)) ps = true -> tags_loop m ps = None.
Proof.
  revert m. induction ps as [| p ps IH]; intros m Hd Hm Hp; [discriminate |].
  cbn [tags_loop]. simpl in Hp.
  destruct (existsb is_proto_key (tags p)) eqn:E1.
  - rewrite (add_post_tags_fail p (tags p) m Hm E1). reflexivity.
  - destruct (add_post_tags_ok p (tags p) m E1 Hd) as [m1 [Hm1 [Hd1 Ha1]]].
    rewrite Hm1. apply IH; [exact Hd1 | | exact Hp].
    intros t Ht. rewrite Ha1, (includes_proto _ _ E1 Ht). apply Hm, Ht.
Qed.

Lemma fold_obj_set_assoc {V} (f : jsstr -> V) keys acc t :
  assoc t (fold_left (fun o k => obj_set o k (f k)) keys acc)
  = if includes keys t then Some (f t) else assoc t acc.
Proof.
  revert acc. induction keys as [| k keys IH]; intro acc; [reflexivity |].
  cbn [fold_left]. rewrite IH, includes_cons, assoc_obj_set_eq.
  destruct (str_eqb t k) eqn:E; simpl; [| reflexivity].
  apply str_eqb_eq in E. subst. destruct (includes keys k); reflexivity.
Qed.

Lemma fold_obj_set_nodup {V} (f : jsstr -> V) keys acc :
  NoDup (map fst acc) -> NoDup (map fst (fold_left (fun o k => obj_set o k (f k)) keys acc)).
Proof.
  revert acc. induction keys as [| k keys IH]; intros acc H; [exact H |].
  simpl. apply IH, obj_set_nodup, H.
Qed.

Lemma buildTagsMap_props (pf : platform) (posts : list post) :
  (buildTagsMap pf posts = None
   <-> existsb (fun p => existsb is_proto_key (tags p)) posts = true)
  /\ (forall m, buildTagsMap pf posts = Some m ->
       NoDup (map fst m)
       /\ forall t, assoc t m = if tagged posts t then Some (tag_entries posts t) else None).
Proof.
  unfold buildTagsMap.
  destruct (existsb (fun p => existsb is_proto_key (tags p)) posts) eqn:E.
  - rewrite (tags_loop_fail posts [] (NoDup_nil _) (fun _ _ => eq_refl) E).
    split; [tauto | discriminate].
  - destruct (tags_loop_ok posts [] E (NoDup_nil _)) as [m' [Hm' [_ Ha']]].
    rewrite Hm'. split; [split; discriminate |].
    intros m Hm. injection Hm as <-.
    change (fun sorted tag => obj_set sorted tag (match assoc tag m' with Some l => l | None => [] end))
      with (fun sorted tag => obj_set sorted tag (entries_or_nil m' tag)).
    split; [apply fold_obj_set_nodup, NoDup_nil |].
    intro t. rewrite fold_obj_set_assoc. cbn [assoc].
    assert (Hk : includes (sort_by (locale_compare pf) (own_keys m')) t = true
                 <-> In t (map fst m')).
    { rewrite includes_In. split; intro H.
      - apply own_keys_in. exact (Permutation_in _ (sort_by_perm _ _) H).
      - apply (Permutation_in _ (Permutation_sym (sort_by_perm _ _))). apply own_keys_in, H. }
    specialize (Ha' t). unfold entries_or_nil at 1 in Ha'. cbn [assoc app] in Ha'.
    destruct (tagged posts t).
    + assert (Hin : In t (map fst m')).
      { destruct (in_dec (list_eq_dec Z.eq_dec) t (map fst m')) as [H | H]; [exact H |].
        apply assoc_none_iff in H. rewrite H in Ha'. discriminate. }
      rewrite (proj2 Hk Hin). unfold entries_or_nil. rewrite Ha'. reflexivity.
    + destruct (includes _ t) eqn:Ei; [| reflexivity].
      exfalso. apply (proj1 (assoc_none_iff m' t) Ha'). apply Hk; reflexivity.
Qed.

(** [buildTagsMap] throws exactly when some post carries a tag named
    like a member of [Object.prototype]; otherwise the map has one key
    per distinct tag, and the list of a tag holds the summary of every
    post carrying it, in the order of the posts and once per occurrence
    of the tag in the post's tag list. *)
Theorem buildTagsMap_contents (pf : platform) (posts : list post) :
  (buildTagsMap pf posts = None
   <-> existsb (fun p => existsb is_proto_key (tags p)) posts = true)
  /\ (forall m, buildTagsMap pf posts = Some m ->
       NoDup (map fst m)
       /\ forall t, assoc t m = if tagged posts t then Some (tag_entries posts t) else None).
Proof. exact (buildTagsMap_props pf posts). Qed.

Lemma buildTagsMap_contents_witness :
  assoc (lit "x") (match buildTagsMap test_platform [post_A; post_B] with Some m => m | None => [] end)
  = Some (tag_entries [post_A; post_B] (lit "x")).
Proof.
  exact (proj2 (proj2 (buildTagsMap_contents test_platform [post_A; post_B]) _ eq_refl) (lit "x")).
Defined.

(** ** [main] *)

(** *** Runs of the build monad *)

Lemma bindB_liftR_ok {A B} (r : result A) (a : A) (k : A -> build B) out :
  r = Ok a -> bindB (liftR r) k out = k a out.
Proof. intros ->. reflexivity. Qed.

Lemma bindB_ok_at {A B} (m : build A) (k : A -> build B) out a out' :
  m out = (Ok a, out') -> bindB m k out = k a out'.
Proof. intro H. unfold bindB. rewrite H. reflexivity. Qed.

Lemma bindB_err_at {A B} (m : build A) (k : A -> build B) out e out' :
  m out = (Err e, out') -> bindB m k out = (Err e, out').
Proof. intro H. unfold bindB. rewrite H. reflexivity. Qed.

(** [m] succeeds from any log, appending [ws]. *)
Definition writes {A} (m : build A) (ws : list jsstr) : Prop :=
  forall out, exists a, m out = (Ok a, out ++ ws).

Lemma writes_ret {A} (a : A) : writes (ret a) [].
Proof. intro out. exists a. rewrite app_nil_r. reflexivity. Qed.

Lemma writes_liftR {A} (r : result A) : (exists a, r = Ok a) -> writes (liftR r) [].
Proof. intros [a ->]. apply writes_ret. Qed.

Lemma writes_write p : writes (write p) [p].
Proof. intro out. exists tt. reflexivity. Qed.

Lemma writes_writeFile p c : writes (writeFile p c) [p].
Proof. apply writes_write. Qed.

Lemma writes_bind {A B} (m : build A) (k : A -> build B) ws1 ws2 :
  writes m ws1 -> (forall a, writes (k a) ws2) -> writes (bindB m k) (ws1 ++ ws2).
Proof.
  intros Hm Hk out. destruct (Hm out) as [a Ha]. destruct (Hk a (out ++ ws1)) as [b Hb].
  exists b. unfold bindB. rewrite Ha, Hb, app_assoc. reflexivity.
Qed.

Lemma writes_eq {A} (m : build A) ws ws' : writes m ws -> ws = ws' -> writes m ws'.
Proof. intros H <-. exact H. Qed.

Lemma writes_for_each {A B} (body : A -> build B) (f : A -> list jsstr) l :
  (forall x, In x l -> writes (body x) (f x)) -> writes (for_each body l) (flat_map f l).
Proof.
  induction l as [| x l IH]; intro H; [apply writes_ret |].
  cbn [for_each flat_map].
  apply (writes_eq _ (f x ++ (flat_map f l ++ []))); [| rewrite app_nil_r; reflexivity].
  apply writes_bind; [apply H; left; reflexivity |].
  intro b. apply writes_bind.
  - apply IH. intros y Hy. apply H. right. exact Hy.
  - intro bs. apply writes_ret.
Qed.

Lemma writes_copyAssets : writes (copyAssets true) [lit "assets"].
Proof. apply writes_write. Qed.

Lemma writes_copyAdsFile ads : writes (copyAdsFile ads) (if ads then [lit "ads.txt"] else []).
Proof. destruct ads; [apply writes_write | apply writes_ret]. Qed.

Lemma writes_writeHtml pf p h :
  (forall h', exists m, minify pf h' = Ok m) -> writes (writeHtml pf p h) [p].
Proof.
  intro Hmin. unfold writeHtml. apply (writes_bind _ _ [] [p]).
  - apply writes_liftR, Hmin.
  - intro m. apply writes_writeFile.
Qed.

Lemma flat_map_single {A} (f : A -> jsstr) l : flat_map (fun x => [f x]) l = map f l.
Proof. induction l as [| x l IH]; simpl; [reflexivity | rewrite IH; reflexivity]. Qed.

(** *** Absolute URLs *)

Lemma toAbsoluteUrl_path pf site s :
  http_prefix s = false -> trim s = s -> starts_with (lit "/") s = true ->
  str_eqb s (lit "/") = false ->
  toAbsoluteUrl pf site (YStr s)
  = match url_href pf (basePath site ++ s) (origin site) with
    | Some h => Ok h
    | None => Err msg_invalid_url
    end.
Proof.
  intros Hh Ht Hs He. unfold toAbsoluteUrl, normalizePath. cbn [js_String truthy].
  rewrite Hh. destruct s as [| c s']; [discriminate Hs |].
  cbn [is_empty negb]. cbv zeta. rewrite Ht, He, Hs. cbn [is_empty orb].
  destruct (basePath site) as [| b bs]; reflexivity.
Qed.

(** With a [new URL] that accepts every path against the origin, every
    absolute URL is computed. *)
Lemma toAbsoluteUrl_total pf site :
  (forall p, url_href pf p (origin site) <> None) ->
  forall v, exists u, toAbsoluteUrl pf site v = Ok u.
Proof.
  intros Hu v. unfold toAbsoluteUrl.
  destruct (http_prefix _); [eexists; reflexivity |].
  cbv zeta. destruct (url_href pf _ (origin site)) as [h |] eqn:E; [eexists; reflexivity |].
  exfalso. exact (Hu _ E).
Qed.

Lemma renderLayout_total pf site baseTemplate params :
  (forall v, exists u, toAbsoluteUrl pf site v = Ok u) ->
  exists h, renderLayout pf site baseTemplate params = Ok h.
Proof.
  intro Ht. unfold renderLayout, defaultParams.
  destruct (Ht (YStr (lit "/index.html"))) as [u1 E1].
  destruct (Ht (YStr (lit "/assets/images/about-profile.png"))) as [u2 E2].
  rewrite E1. cbn [bind]. rewrite E2. cbn [bind]. eexists; reflexivity.
Qed.

Lemma map_result_total {A B} (f : A -> result B) l :
  (forall x, exists y, f x = Ok y) -> exists ys, map_result f l = Ok ys.
Proof.
  intro Hf. induction l as [| x l IH]; [exists []; reflexivity |].
  destruct (Hf x) as [y Hy]. destruct IH as [ys Hys].
  exists (y :: ys). cbn [map_result]. rewrite Hy. cbn [bind]. rewrite Hys. reflexivity.
Qed.

Lemma sitemap_xml_total pf site pages :
  (forall v, exists u, toAbsoluteUrl pf site v = Ok u) ->
  exists c, sitemap_xml pf site pages = Ok c.
Proof.
  intro Ht. unfold sitemap_xml.
  destruct (map_result_total (sitemap_url pf site) (unique_pages [] pages)) as [us Hus].
  - intro pg. unfold sitemap_url. destruct (Ht (YStr (file pg))) as [u Hu].
    rewrite Hu. eexists; reflexivity.
  - rewrite Hus. eexists; reflexivity.
Qed.

(** Each stage of [main] succeeds, appending the files it writes, when
    every URL and every minification is computed. *)
Ltac writes_step Ht Hmin :=
  first
    [ apply writes_ret
    | apply writes_write
    | apply writes_writeFile
    | apply writes_writeHtml; exact Hmin
    | apply writes_liftR; first [ apply Ht | apply renderLayout_total; exact Ht ]
    | eapply writes_bind; [ | intro; cbv beta zeta ] ].

Section Stages.
Variables (pf : platform) (site : site_config) (templates : obj jsstr).
Hypothesis Ht : forall v, exists u, toAbsoluteUrl pf site v = Ok u.
Hypothesis Hmin : forall h, exists m, minify pf h = Ok m.

Lemma writes_buildHomePage posts :
  writes (buildHomePage pf site templates posts) [lit "index.html"].
Proof.
  eapply writes_eq; [unfold buildHomePage; cbv zeta; repeat writes_step Ht Hmin | reflexivity].
Qed.

Lemma writes_buildBlogPage posts categories tagsMap :
  writes (buildBlogPage pf site templates posts categories tagsMap) [lit "blog.html"].
Proof.
  eapply writes_eq; [unfold buildBlogPage; cbv zeta; repeat writes_step Ht Hmin | reflexivity].
Qed.

Lemma writes_buildProjectsPage :
  writes (buildProjectsPage pf site templates) [lit "projects.html"].
Proof.
  eapply writes_eq; [unfold buildProjectsPage; cbv zeta; repeat writes_step Ht Hmin | reflexivity].
Qed.

Lemma writes_buildAboutPage :
  writes (buildAboutPage pf site templates) [lit "about.html"].
Proof.
  eapply writes_eq; [unfold buildAboutPage; cbv zeta; repeat writes_step Ht Hmin | reflexivity].
Qed.

Lemma writes_buildPostPages posts :
  writes (buildPostPages pf site templates posts)
         (map (fun p => lit "posts/" ++ slug p ++ lit ".html") posts).
Proof.
  unfold buildPostPages. rewrite <- flat_map_single. apply writes_for_each.
  intros p _. eapply writes_eq;
    [unfold buildPostPage; cbv zeta; repeat writes_step Ht Hmin | reflexivity].
Qed.

Lemma writes_buildTagPages now tagsMap :
  writes (buildTagPages pf site templates now tagsMap)
         (map (fun t => lit "tags/" ++ slugify pf t ++ lit ".html") (own_keys tagsMap)).
Proof.
  unfold buildTagPages. rewrite <- flat_map_single. apply writes_for_each.
  intros t _. eapply writes_eq;
    [unfold buildTagPage; cbv zeta; repeat writes_step Ht Hmin | reflexivity].
Qed.

Lemma writes_writeSitemap pages : writes (writeSitemap pf site pages) [lit "sitemap.xml"].
Proof.
  eapply writes_eq; [unfold writeSitemap; eapply writes_bind;
    [apply writes_liftR, sitemap_xml_total, Ht | intro; apply writes_writeFile] | reflexivity].
Qed.

Lemma writes_writeRobots : writes (writeRobots pf site) [lit "robots.txt"].
Proof.
  eapply writes_eq; [unfold writeRobots; cbv zeta; repeat writes_step Ht Hmin | reflexivity].
Qed.

Lemma writes_writeRss now posts : writes (writeRss pf site now posts) [lit "rss.xml"].
Proof.
  eapply writes_eq; [unfold writeRss; cbv zeta; repeat writes_step Ht Hmin | reflexivity].
Qed.
End Stages.

Lemma buildHomePage_index_err pf site templates posts out :
  url_href pf (basePath site ++ lit "/index.html") (origin site) = None ->
  buildHomePage pf site templates posts out = (Err msg_invalid_url, out).
Proof.
  intro Hn. unfold buildHomePage. cbv zeta.
  rewrite (toAbsoluteUrl_path pf site (lit "/index.html")) by reflexivity.
  rewrite Hn. reflexivity.
Qed.

Lemma in_tags_tagged p posts t : In p posts -> In t (tags p) -> tagged posts t = true.
Proof.
  intros Hp Ht. unfold tagged. apply existsb_exists. exists p. split; [exact Hp |].
  apply includes_In, Ht.
Qed.

(** [main] once the templates and the posts are loaded and [src/assets]
    exists. A tag named like a member of [Object.prototype] stops the
    build after the copies. Otherwise, when [new URL] rejects the page
    URL [/index.html] against the origin (an [SITE_URL] without a
    scheme, say), the home page throws and the build stops there; and
    when [new URL] accepts every path and [minify] resolves, the build
    succeeds, writing the four fixed pages, the page of every post, the
    page of every key of the tag map (among them every tag of every
    post) and the five data files, in this order. *)
Theorem main_writes_post_and_tag_pages (pf : platform) (site : site_config)
  (tmpl_fs : obj jsstr) (ads : bool) (now : Z) (files : list source_file)
  (templates : obj jsstr) (posts : list post) :
  loadTemplates tmpl_fs = Ok templates -> loadPosts pf site files = Ok posts ->
  let copied := lit "assets" :: (if ads then [lit "ads.txt"] else []) in
  (existsb (fun p => existsb is_proto_key (tags p)) posts = true ->
     main pf site tmpl_fs true ads now files = (Err msg_push_type_error, copied))
  /\ (existsb (fun p => existsb is_proto_key (tags p)) posts = false ->
      url_href pf (basePath site ++ lit "/index.html") (origin site) = None ->
      main pf site tmpl_fs true ads now files = (Err msg_invalid_url, copied))
  /\ (existsb (fun p => existsb is_proto_key (tags p)) posts = false ->
      (forall p, url_href pf p (origin site) <> None) ->
      (forall h, exists m, minify pf h = Ok m) ->
      exists tagsMap out,
        buildTagsMap pf posts = Some tagsMap
        /\ main pf site tmpl_fs true ads now files = (Ok tt, out)
        /\ out = copied
                 ++ [lit "index.html"; lit "blog.html"; lit "projects.html"; lit "about.html"]
                 ++ map (fun p => lit "posts/" ++ slug p ++ lit ".html") posts
                 ++ map (fun t => lit "tags/" ++ slugify pf t ++ lit ".html") (own_keys tagsMap)
                 ++ [lit "search-index.json"; lit "tags.json"; lit "sitemap.xml";
                     lit "robots.txt"; lit "rss.xml"]
        /\ (forall p, In p posts -> In (lit "posts/" ++ slug p ++ lit ".html") out)
        /\ (forall p t, In p posts -> In t (tags p) ->
              In (lit "tags/" ++ slugify pf t ++ lit ".html") out)).
Proof.
  intros Htm Hps copied.
  destruct (buildTagsMap_props pf posts) as [Hnone Hsome].
  assert (Hcopy : forall k : unit -> build unit,
             bindB (copyAssets true) (fun _ => bindB (copyAdsFile ads) k) []
             = k tt copied).
  { intro k. unfold copied. destruct ads; reflexivity. }
  unfold main. erewrite bindB_liftR_ok by exact Htm. cbv beta.
  erewrite bindB_liftR_ok by exact Hps. cbv beta zeta.
  rewrite Hcopy. split; [| split].
  - intro E. apply bindB_err_at. unfold tags_map_result. rewrite (proj2 Hnone E). reflexivity.
  - intros E Hn. destruct (buildTagsMap pf posts) as [m |] eqn:Eb.
    2: { rewrite (proj1 Hnone eq_refl) in E. discriminate E. }
    erewrite bindB_liftR_ok by (unfold tags_map_result; rewrite Eb; reflexivity). cbv beta.
    apply bindB_err_at, buildHomePage_index_err, Hn.
  - intros E Hu Hmin. destruct (buildTagsMap pf posts) as [m |] eqn:Eb.
    2: { rewrite (proj1 Hnone eq_refl) in E. discriminate E. }
    pose proof (toAbsoluteUrl_total pf site Hu) as Ht.
    erewrite bindB_liftR_ok by (unfold tags_map_result; rewrite Eb; reflexivity). cbv beta.
    match goal with
    | |- context [bindB (buildHomePage ?a ?b ?c ?d) ?k copied] =>
        assert (Hw : writes (bindB (buildHomePage a b c d) k)
                       ([lit "index.html"; lit "blog.html"; lit "projects.html"; lit "about.html"]
                        ++ map (fun p => lit "posts/" ++ slug p ++ lit ".html") posts
                        ++ map (fun t => lit "tags/" ++ slugify pf t ++ lit ".html") (own_keys m)
                        ++ [lit "search-index.json"; lit "tags.json"; lit "sitemap.xml";
                            lit "robots.txt"; lit "rss.xml"]))
    end.
    { eapply writes_eq.
      - eapply writes_bind; [apply writes_buildHomePage; assumption | intro; cbv beta].
        eapply writes_bind; [apply writes_buildBlogPage; assumption | intro; cbv beta].
        eapply writes_bind; [apply writes_buildProjectsPage; assumption | intro; cbv beta].
        eapply writes_bind; [apply writes_buildAboutPage; assumption | intro; cbv beta].
        eapply writes_bind; [apply writes_buildPostPages; assumption | intro; cbv beta].
        eapply writes_bind; [apply writes_buildTagPages; assumption | intro; cbv beta].
        eapply writes_bind; [apply writes_write | intro; cbv beta].
        eapply writes_bind; [apply writes_write | intro; cbv beta].
        eapply writes_bind; [apply writes_writeSitemap; assumption | intro; cbv beta].
        eapply writes_bind; [apply writes_writeRobots; assumption | intro; cbv beta].
        apply writes_writeRss; assumption.
      - reflexivity. }
    destruct (Hw copied) as [[] Hm]. rewrite Hm. eexists m, _.
    split; [reflexivity | split; [reflexivity | split; [reflexivity |]]].
    split.
    + intros p Hin. apply in_app_iff. right. apply in_app_iff. right.
      apply in_app_iff. left. apply in_map_iff. exists p. split; [reflexivity | exact Hin].
    + intros p t Hin Htg. apply in_app_iff. right. apply in_app_iff. right.
      apply in_app_iff. right. apply in_app_iff. left. apply in_map_iff.
      exists t. split; [reflexivity |]. apply own_keys_in.
      destruct (Hsome m eq_refl) as [_ Ha]. specialize (Ha t).
      rewrite (in_tags_tagged p posts t Hin Htg) in Ha.
      destruct (in_dec (list_eq_dec Z.eq_dec) t (map fst m)) as [H | H]; [exact H |].
      apply assoc_none_iff in H. rewrite H in Ha. discriminate.
Qed.

Lemma main_writes_post_and_tag_pages_witness :
  main test_platform test_site test_templates true false 0 same_day_files
  = (Ok tt, [lit "assets"; lit "index.html"; lit "blog.html"; lit "projects.html";
             lit "about.html"; lit "posts/first.html"; lit "posts/second.html";
             lit "tags/angular.html"; lit "search-index.json"; lit "tags.json";
             lit "sitemap.xml"; lit "robots.txt"; lit "rss.xml"])
  /\ main test_platform {| origin := lit "example.com"; basePath := [] |} test_templates
       true false 0 [] = (Err msg_invalid_url, [lit "assets"]).
Proof.
  split.
  - destruct (proj2 (proj2 (main_writes_post_and_tag_pages test_platform test_site test_templates
                              false 0 same_day_files
                              (match loadTemplates test_templates with Ok t => t | Err _ => [] end)
                              loaded_same_day
                              ltac:(vm_compute; reflexivity) ltac:(vm_compute; reflexivity)))
                ltac:(vm_compute; reflexivity)
                ltac:(intros p; vm_compute; discriminate)
                ltac:(intros h; exists h; reflexivity))
      as [m [out [Hb [Hm [Hout _]]]]].
    rewrite Hm, Hout. vm_compute in Hb. injection Hb as <-. vm_compute. reflexivity.
  - exact (proj1 (proj2 (main_writes_post_and_tag_pages test_platform
             {| origin := lit "example.com"; basePath := [] |} test_templates false 0 []
             (match loadTemplates test_templates with Ok t => t | Err _ => [] end) []
             ltac:(vm_compute; reflexivity) ltac:(vm_compute; reflexivity)))
             ltac:(vm_compute; reflexivity) ltac:(vm_compute; reflexivity)).
Defined.

(** ** [loadPosts] *)

Lemma trim_post_path v : trim (lit "/posts/" ++ v ++ lit ".html") = lit "/posts/" ++ v ++ lit ".html".
Proof.
  unfold trim.
  assert (H1 : drop_spaces (lit "/posts/" ++ v ++ lit ".html") = lit "/posts/" ++ v ++ lit ".html")
    by reflexivity.
  rewrite H1, app_assoc, rev_app_distr.
  assert (H2 : forall r, drop_spaces (rev (lit ".html") ++ r) = rev (lit ".html") ++ r)
    by reflexivity.
  rewrite H2, rev_app_distr, !rev_involutive, <- app_assoc. reflexivity.
Qed.

Lemma toPublicUrl_post_path pf site v :
  toPublicUrl pf site (YStr (post_path v)) = basePath site ++ post_path v.
Proof.
  unfold toPublicUrl, normalizePath, post_path. cbn [js_String truthy]. cbv zeta.
  assert (Hh : http_prefix (lit "/posts/" ++ v ++ lit ".html") = false) by reflexivity.
  assert (Hn : is_empty (lit "/posts/" ++ v ++ lit ".html") = false) by reflexivity.
  rewrite Hh, Hn. cbn [negb]. rewrite trim_post_path.
  assert (He : str_eqb (lit "/posts/" ++ v ++ lit ".html") (lit "/") = false).
  { destruct (str_eqb _ _) eqn:E; [apply str_eqb_eq in E; discriminate E | reflexivity]. }
  rewrite He. simpl is_empty. simpl starts_with. cbv iota.
  destruct (basePath site ++ _) eqn:E; [| reflexivity].
  apply app_eq_nil in E as [_ E]. discriminate E.
Qed.

Lemma fold_left_map_comp {A B C} (f : A -> B -> A) (g : C -> B) l a :
  fold_left f (map g l) a = fold_left (fun a x => f a (g x)) l a.
Proof. revert a. induction l as [| x l IH]; intro a; simpl; [reflexivity | apply IH]. Qed.

Lemma assoc_from_entries_map {V} (f : jsstr -> V) ks t :
  assoc t (from_entries (map (fun k => (k, f k)) ks)) = if includes ks t then Some (f t) else None.
Proof.
  unfold from_entries. rewrite fold_left_map_comp. cbn [fst snd].
  apply (fold_obj_set_assoc f ks [] t).
Qed.

(** A post that loads has passed the front-matter validation and has a
    valid date; its slug is the slugified file name, its URL is the base
    path followed by [/posts/<slug>.html], and each of its tags is
    non-empty, trimmed and linked through [tagSlugs] to its own slug. *)
Theorem load_post_ok (pf : platform) (site : site_config) (f : source_file) (p : post) :
  load_post pf site f = Ok p ->
  validateFrontmatter (file_name f) (fm_data f) = Ok tt
  /\ date_time pf (fm_get (fm_data f) (lit "date")) = Some (date p)
  /\ slug p = slugify pf (basename_md (file_name f))
  /\ url p = basePath site ++ post_path (slug p)
  /\ forall t, In t (tags p) -> t <> [] /\ trim t = t /\ slug_lookup (tagSlugs p) t = slugify pf t.
Proof.
  intro H. invert_load_post H. cbn [slug url tags tagSlugs date].
  split; [reflexivity | split; [reflexivity | split; [reflexivity | split]]].
  - apply toPublicUrl_post_path.
  - intros t Ht. pose proof Ht as Ht0. apply filter_In in Ht as [Ht Hne].
    apply in_map_iff in Ht as [x [Hx _]].
    split; [intro E; rewrite E in Hne; discriminate |].
    split; [rewrite <- Hx; apply trim_idem |].
    unfold slug_lookup, obj_get. rewrite assoc_from_entries_map, (proj2 (includes_In _ _) Ht0).
    reflexivity.
Qed.

Lemma load_post_ok_witness :
  slug_lookup (tagSlugs (match load_post test_platform test_site
                                 (hd {| file_name := []; fm_data := []; fm_content := [] |}
                                     same_day_files) with
                         | Ok p => p | Err _ => post_A end)) (lit "Angular")
  = slugify test_platform (lit "Angular").
Proof.
  refine (proj2 (proj2 (proj2 (proj2 (proj2 (proj2
            (load_post_ok test_platform test_site
               (hd {| file_name := []; fm_data := []; fm_content := [] |} same_day_files)
               (match load_post test_platform test_site
                        (hd {| file_name := []; fm_data := []; fm_content := [] |}
                            same_day_files) with
                | Ok p => p | Err _ => post_A end) _)))) _ _))).
  - vm_compute. reflexivity.
  - vm_compute. left. reflexivity.
Defined.

Lemma load_all_total pf site fs :
  (forall f, In f fs -> exists p, load_post pf site f = Ok p) -> exists ps, load_all pf site fs = Ok ps.
Proof.
  induction fs as [| f fs IH]; intro H; [exists []; reflexivity |].
  destruct (H f (or_introl eq_refl)) as [p Hp].
  destruct IH as [ps Hps]; [intros g Hg; apply H; right; exact Hg |].
  exists (p :: ps). simpl. rewrite Hp, Hps. reflexivity.
Qed.

Lemma Forall2_in_l {A B} (R : A -> B -> Prop) l1 l2 y :
  Forall2 R l1 l2 -> In y l2 -> exists x, In x l1 /\ R x y.
Proof.
  induction 1 as [| x y' l1 l2 Hxy _ IH]; intro Hy; [destruct Hy |].
  destruct Hy as [<- | Hy]; [exists x; split; [left; reflexivity | exact Hxy] |].
  destruct (IH Hy) as [x' [Hx' Hr]]. exists x'. split; [right; exact Hx' | exact Hr].
Qed.

(** [loadPosts] ignores the directory entries whose name does not end in
    [.md]; it succeeds when every [.md] entry loads, and then returns one
    post per [.md] entry, each loaded from one of them: a permutation of
    the posts loaded from the [.md] entries in directory order. An
    [.md] entry that does not load makes [loadPosts] fail. *)
Theorem loadPosts_md_entries (pf : platform) (site : site_config) (files : list source_file) :
  (forall pre g rest, is_md g = false ->
     loadPosts pf site (pre ++ g :: rest) = loadPosts pf site (pre ++ rest))
  /\ ((forall f, In f files -> is_md f = true -> exists p, load_post pf site f = Ok p) ->
      exists posts, loadPosts pf site files = Ok posts)
  /\ (forall posts, loadPosts pf site files = Ok posts ->
      length posts = length (filter is_md files)
      /\ (forall p, In p posts -> exists f, In f files /\ is_md f = true /\ load_post pf site f = Ok p)
      /\ exists loaded, Forall2 (fun f p => load_post pf site f = Ok p) (filter is_md files) loaded
                       /\ Permutation posts loaded)
  /\ (forall f e, In f files -> is_md f = true -> load_post pf site f = Err e ->
      exists e', loadPosts pf site files = Err e').
Proof.
  split; [| split; [| split]].
  - intros pre g rest Hg. unfold loadPosts. f_equal.
    change (fun f => ends_with (lit ".md") (file_name f)) with is_md.
    rewrite !filter_app. cbn [filter]. rewrite Hg. reflexivity.
  - intro H. unfold loadPosts.
    destruct (load_all_total pf site (filter is_md files)) as [ps Hps].
    + intros f Hf. apply filter_In in Hf as [Hf Hm]. apply H; assumption.
    + change (fun f => ends_with (lit ".md") (file_name f)) with is_md. rewrite Hps.
      eexists. reflexivity.
  - intros posts H. unfold loadPosts in H.
    change (fun f => ends_with (lit ".md") (file_name f)) with is_md in H.
    destruct (load_all pf site (filter is_md files)) as [ps | e] eqn:Eps; simpl in H; [| discriminate].
    injection H as <-. apply load_all_forall2 in Eps.
    split; [| split].
    + rewrite (Permutation_length (sort_by_perm _ _)). symmetry. exact (Forall2_length Eps).
    + intros p Hp. apply (Permutation_in _ (sort_by_perm _ _)) in Hp.
      destruct (Forall2_in_l _ _ _ _ Eps Hp) as [f [Hf Hl]].
      apply filter_In in Hf as [Hf Hm]. exists f. auto.
    + exists ps. split; [exact Eps | apply sort_by_perm].
  - intros f e Hf Hmd He. unfold loadPosts. fold is_md.
    assert (Hin : In f (filter is_md files)) by (apply filter_In; auto).
    apply in_split in Hin as [pre [rest Hsplit]]. rewrite Hsplit.
    destruct (load_all_err_somewhere pf site pre f rest e He) as [e' He'].
    rewrite He'. exists e'. reflexivity.
Qed.

Lemma loadPosts_md_entries_witness :
  loadPosts test_platform test_site
    (same_day_files ++ {| file_name := lit "notes.txt"; fm_data := []; fm_content := [] |} :: [])
  = loadPosts test_platform test_site (same_day_files ++ [])
  /\ exists posts, loadPosts test_platform test_site same_day_files = Ok posts.
Proof.
  split.
  - apply (proj1 (loadPosts_md_entries test_platform test_site [])). vm_compute. reflexivity.
  - apply (proj1 (proj2 (loadPosts_md_entries test_platform test_site same_day_files))).
    intros f Hf _. simpl in Hf.
    destruct Hf as [<- | [<- | []]]; eexists; vm_compute; reflexivity.
Defined.

(** ** [slugify] *)

Lemma is_infix_cons p c s : is_infix p (c :: s) = starts_with p (c :: s) || is_infix p s.
Proof. reflexivity. Qed.

Lemma collapse_true_head s : not_starting is_hyphen (collapse_non_slug true s).
Proof.
  induction s as [| c s IH]; simpl; [exact I |].
  destruct (is_slug_char c) eqn:E; [| exact IH].
  simpl. unfold is_hyphen, hyphen. apply Z.eqb_neq. intro H. subst. discriminate E.
Qed.

Lemma collapse_no_double b s : is_infix [hyphen; hyphen] (collapse_non_slug b s) = false.
Proof.
  revert b. induction s as [| c s IH]; intro b; simpl; [reflexivity |].
  destruct (is_slug_char c) eqn:E; [| destruct b].
  - rewrite is_infix_cons, IH, orb_false_r. cbn [starts_with].
    destruct (Z.eqb_spec hyphen c) as [<- | _]; [discriminate E | reflexivity].
  - apply IH.
  - rewrite is_infix_cons, IH, orb_false_r. cbn [starts_with]. rewrite Z.eqb_refl. cbn [andb].
    pose proof (collapse_true_head s) as Hh.
    destruct (collapse_non_slug true s) as [| d r]; [reflexivity |].
    cbn [not_starting] in Hh. unfold is_hyphen in Hh. cbn [starts_with].
    rewrite Z.eqb_sym, Hh. reflexivity.
Qed.

Lemma strip_false_prefix s : exists r, s = strip_edge_hyphens false s ++ r.
Proof.
  induction s as [| c s [r IH]]; [exists []; reflexivity |].
  cbn [strip_edge_hyphens orb].
  destruct ((c =? hyphen) && is_empty s) eqn:E.
  - apply andb_prop in E as [_ E]. destruct s; [| discriminate]. exists [c]. reflexivity.
  - exists r. simpl. rewrite <- IH. reflexivity.
Qed.

Lemma strip_infix s : exists l r, s = l ++ strip_edge_hyphens true s ++ r.
Proof.
  destruct s as [| c s]; [exists [], []; reflexivity |].
  destruct (strip_false_prefix s) as [r Hr].
  cbn [strip_edge_hyphens orb andb]. destruct (c =? hyphen).
  - exists [c], r. simpl. rewrite <- Hr. reflexivity.
  - exists [], r. simpl. rewrite <- Hr. reflexivity.
Qed.

Lemma strip_head s :
  is_infix [hyphen; hyphen] s = false -> not_starting is_hyphen (strip_edge_hyphens true s).
Proof.
  destruct s as [| c s]; intro H; [exact I |].
  cbn [strip_edge_hyphens orb]. rewrite andb_true_r.
  destruct (c =? hyphen) eqn:Ec.
  - destruct s as [| d s]; [exact I |].
    rewrite is_infix_cons in H. apply orb_false_iff in H as [H _].
    cbn [starts_with] in H. apply Z.eqb_eq in Ec. subst c. rewrite Z.eqb_refl in H.
    cbn [andb] in H. rewrite andb_true_r in H.
    cbn [strip_edge_hyphens orb]. rewrite Z.eqb_sym, H. cbn [andb]. simpl. unfold is_hyphen.
    rewrite Z.eqb_sym. exact H.
  - simpl. exact Ec.
Qed.

(** [slugify] returns at most 80 characters, all of them [a-z], [0-9] or
    hyphens, never starting with a hyphen and never with two hyphens in
    a row. *)
Theorem slugify_shape (pf : platform) (text : jsstr) :
  (List.length (slugify pf text) <= 80)%nat
  /\ Forall slug_or_hyphen (slugify pf text)
  /\ not_starting is_hyphen (slugify pf text)
  /\ is_infix [hyphen; hyphen] (slugify pf text) = false.
Proof.
  split; [unfold slugify; apply firstn_le_length |].
  split; [apply slugify_chars |].
  unfold slugify.
  set (c := collapse_non_slug false (to_lower pf (filter (fun c => negb (is_combining_mark c)) (nfd pf text)))).
  assert (Hc : is_infix [hyphen; hyphen] c = false) by apply collapse_no_double.
  set (st := strip_edge_hyphens true c).
  assert (Hst : is_infix [hyphen; hyphen] st = false).
  { destruct (strip_infix c) as [l [r Hlr]]. fold st in Hlr. rewrite Hlr in Hc.
    exact (is_infix_mid _ _ _ _ Hc). }
  split.
  - pose proof (strip_head c Hc) as Hh. fold st in Hh.
    destruct st as [| x st']; [exact I |]. exact Hh.
  - rewrite <- (firstn_skipn 80 st) in Hst.
    exact (is_infix_mid _ [] _ _ Hst).
Qed.

(** ** [findRelatedPosts] *)

Lemma collect_scored_in current posts p s :
  In (p, s) (collect_scored current posts) -> In p posts /\ str_eqb (slug p) (slug current) = false.
Proof.
  induction posts as [| q ps IH]; simpl; [tauto |].
  destruct (str_eqb (slug q) (slug current)) eqn:E.
  - intro H. destruct (IH H). auto.
  - destruct (0 <? score current q).
    + intros [H | H]; [injection H as -> _; auto | destruct (IH H); auto].
    + intro H. destruct (IH H). auto.
Qed.

(** [findRelatedPosts] returns at most three posts, all taken from the
    collection and none with the slug of the current post. *)
Theorem findRelatedPosts_bounds (current : post) (posts : list post) :
  (List.length (findRelatedPosts current posts) <= 3)%nat
  /\ forall p, In p (findRelatedPosts current posts) -> In p posts /\ slug p <> slug current.
Proof.
  unfold findRelatedPosts.
  destruct (Nat.ltb 0 _); split.
  - apply firstn_le_length.
  - intros p Hp. apply in_firstn in Hp. apply in_map_iff in Hp as [[q s] [Eq Hq]]. cbn [fst] in Eq. subst q.
    apply (Permutation_in _ (sort_by_perm _ _)) in Hq.
    destruct (collect_scored_in _ _ _ _ Hq) as [H1 H2]. split; [exact H1 |].
    intro E. rewrite E, str_eqb_refl in H2. discriminate.
  - apply firstn_le_length.
  - intros p Hp. apply in_firstn in Hp. apply filter_In in Hp as [H1 H2]. split; [exact H1 |].
    intro E. rewrite E, str_eqb_refl in H2. discriminate.
Qed.

(** ** [renderLayout] *)












(** ** Posts with the same date *)

Lemma filter_insert_date d x l :
  filter (fun p => date p =? d) (insert_by date_desc x l)
  = filter (fun p => date p =? d) (x :: l).
Proof.
  induction l as [| y l IH]; [reflexivity |].
  cbn [insert_by]. destruct (date_desc x y <=? 0) eqn:E; [reflexivity |].
  apply Z.leb_gt in E. unfold date_desc in E.
  cbn [filter]. rewrite IH. cbn [filter].
  destruct (date x =? d) eqn:Ex, (date y =? d) eqn:Ey; try reflexivity.
  apply Z.eqb_eq in Ex, Ey. lia.
Qed.

Lemma filter_sort_date d l :
  filter (fun p => date p =? d) (sort_by date_desc l) = filter (fun p => date p =? d) l.
Proof.
  induction l as [| x l IH]; [reflexivity |].
  cbn [sort_by]. rewrite filter_insert_date. cbn [filter]. rewrite IH. reflexivity.
Qed.

(** [loadPosts] sorts with [b.date - a.date] and [Array.prototype.sort]
    is stable: the posts of any one date come out in the order of their
    files in the directory listing. *)
Theorem loadPosts_same_date_order (pf : platform) (site : site_config)
  (files : list source_file) (posts : list post) :
  loadPosts pf site files = Ok posts ->
  exists loaded,
    Forall2 (fun f p => load_post pf site f = Ok p) (filter is_md files) loaded
    /\ forall d, filter (fun p => date p =? d) posts = filter (fun p => date p =? d) loaded.
Proof.
  unfold loadPosts, bind. fold is_md.
  destruct (load_all pf site (filter is_md files)) as [loaded | e] eqn:E; [| discriminate].
  intro H. injection H as <-. exists loaded. split.
  - exact (load_all_forall2 pf site _ _ E).
  - intro d. apply filter_sort_date.
Qed.

Lemma loadPosts_same_date_order_witness :
  exists loaded,
    Forall2 (fun f p => load_post test_platform test_site f = Ok p) (filter is_md same_day_files) loaded
    /\ forall d, filter (fun p => date p =? d) loaded_same_day = filter (fun p => date p =? d) loaded.
Proof.
  apply (loadPosts_same_date_order test_platform test_site same_day_files loaded_same_day).
  vm_compute. reflexivity.
Defined.

(** ** [SITE.origin] *)

Lemma normalizeOrigin_github owner :
  normalizeOrigin (lit "https://" ++ owner ++ lit ".github.io") = lit "https://" ++ owner ++ lit ".github.io".
Proof.
  unfold normalizeOrigin.
  assert (Hr : rev (lit "https://" ++ owner ++ lit ".github.io")
               = rev (lit ".github.io") ++ rev owner ++ rev (lit "https://")).
  { rewrite !rev_app_distr, app_assoc. reflexivity. }
  rewrite (drop_leading_id is_slash (rev _)) by (rewrite Hr; reflexivity).
  rewrite rev_involutive. cbv zeta.
  change (is_empty (lit "https://" ++ owner ++ lit ".github.io")) with false. reflexivity.
Qed.

(** Without [SITE_URL] the origin is [https://<owner>.github.io] for the
    repository owner, or the fixed default origin when no owner is known;
    with [SITE_URL] it is that value without its trailing slashes (the
    default when nothing else remains). *)
Theorem site_origin (pf : platform) (site_url base_path repository owner : jsstr) :
  origin (site_of pf site_url base_path repository owner)
  = if is_empty site_url
    then (if is_empty owner then lit "https://miguel-br-dl.github.io"
          else lit "https://" ++ owner ++ lit ".github.io")
    else let stripped := rev (drop_leading is_slash (rev site_url)) in
         if is_empty stripped then lit "https://miguel-br-dl.github.io" else stripped.
Proof.
  unfold site_of. cbn [origin]. destruct (is_empty site_url); [| reflexivity].
  unfold inferDefaultOrigin. destruct (is_empty owner); [reflexivity |].
  apply normalizeOrigin_github.
Qed.

(** ** [addLazyLoadingToImages] *)

Lemma match_img_shorter s rest : match_img s = Some rest -> (length rest + 5 <= length s)%nat.
Proof.
  unfold match_img. intro H.
  destruct (skipn 4 s) as [| c r] eqn:E; [discriminate |].
  destruct (starts_with (lit "<img") s && is_js_space c); [| discriminate].
  injection H as <-.
  assert (Hl : length (skipn 4 s) = (length s - 4)%nat) by apply length_skipn.
  rewrite E in Hl. simpl in Hl. pose proof (length_drop_spaces r). lia.
Qed.

Lemma lazy_go_nil n : lazy_go n [] = [].
Proof. destruct n; reflexivity. Qed.

Lemma lazy_go_fuel n m s :
  (length s <= n)%nat -> (length s <= m)%nat -> lazy_go n s = lazy_go m s.
Proof.
  revert m s. induction n as [| n IH]; intros m s Hn Hm.
  - destruct s; [rewrite !lazy_go_nil; reflexivity | simpl in Hn; lia].
  - destruct s as [| c s']; [rewrite !lazy_go_nil; reflexivity |].
    destruct m as [| m]; [simpl in Hm; lia |]. cbn [lazy_go].
    destruct (match_img (c :: s')) as [rest |] eqn:E.
    + apply match_img_shorter in E. simpl in E, Hn, Hm.
      rewrite (IH m rest) by lia. reflexivity.
    + simpl in Hn, Hm. rewrite (IH m s') by lia. reflexivity.
Qed.

Lemma lazy_go_plain s n :
  is_infix (lit "<img") s = false -> (length s <= n)%nat -> lazy_go n s = s.
Proof.
  revert n. induction s as [| c s IH]; intros n Hi Hn; [apply lazy_go_nil |].
  destruct n as [| n]; [simpl in Hn; lia |].
  change (is_infix (lit "<img") (c :: s)) with (starts_with (lit "<img") (c :: s) || is_infix (lit "<img") s) in Hi.
  apply orb_false_iff in Hi as [H1 H2].
  cbn [lazy_go].
  assert (Hm : match_img (c :: s) = None).
  { unfold match_img. destruct (skipn 4 (c :: s)); [reflexivity |]. rewrite H1. reflexivity. }
  rewrite Hm, IH by (simpl in Hn; lia || assumption). reflexivity.
Qed.

Lemma drop_spaces_app ws rest :
  forallb is_js_space ws = true -> not_starting is_js_space rest -> drop_spaces (ws ++ rest) = rest.
Proof.
  intros Hw Hr. induction ws as [| w ws IH].
  - destruct rest as [| c r]; [reflexivity |]. cbn [app drop_spaces]. cbn [not_starting] in Hr.
    rewrite Hr. reflexivity.
  - cbn [forallb] in Hw. apply andb_true_iff in Hw as [H1 H2].
    cbn [app drop_spaces]. rewrite H1. exact (IH H2).
Qed.

Lemma match_img_at ws rest :
  ws <> [] -> forallb is_js_space ws = true -> not_starting is_js_space rest ->
  match_img (lit "<img" ++ ws ++ rest) = Some rest.
Proof.
  intros Hne Hw Hr. destruct ws as [| w ws]; [contradiction |].
  cbn [forallb] in Hw. apply andb_true_iff in Hw as [H1 H2].
  unfold match_img. cbn [skipn lit app]. cbn. rewrite H1.
  exact (f_equal Some (drop_spaces_app ws rest H2 Hr)).
Qed.

(** [<img] does not overlap itself: text without [<img] followed by
    [<img] does not start with [<img]. *)
Lemma starts_img_before c b x :
  is_infix (lit "<img") (c :: b) = false -> starts_with (lit "<img") ((c :: b) ++ lit "<img" ++ x) = false.
Proof.
  intro H. apply orb_false_iff in H as [H _].
  destruct b as [| b1 [| b2 [| b3 r]]]; simpl in H |- *;
    [rewrite !andb_false_r; reflexivity .. | exact H].
Qed.

Lemma match_img_before c b x :
  is_infix (lit "<img") (c :: b) = false -> match_img (c :: b ++ lit "<img" ++ x) = None.
Proof.
  intro H. pose proof (starts_img_before c b x H) as Hs. cbn [app] in Hs.
  unfold match_img. destruct (skipn 4 _); [reflexivity |]. rewrite Hs. reflexivity.
Qed.

Lemma lazy_go_before before y n :
  is_infix (lit "<img") before = false -> (length (before ++ lit "<img" ++ y) <= n)%nat ->
  lazy_go n (before ++ lit "<img" ++ y) = before ++ lazy_go (n - length before) (lit "<img" ++ y).
Proof.
  revert n. induction before as [| c b IH]; intros n Hi Hn.
  - rewrite Nat.sub_0_r. reflexivity.
  - destruct n as [| n]; [simpl in Hn; lia |].
    cbn [app lazy_go]. rewrite (match_img_before c b y Hi).
    cbn [length]. rewrite Nat.sub_succ. f_equal. apply IH.
    + apply orb_false_iff in Hi as [_ Hi]. exact Hi.
    + cbn [app length] in Hn. lia.
Qed.

(** [addLazyLoadingToImages] leaves HTML without [<img] unchanged, and
    at the first [<img] followed by whitespace (spaces, tabs, newlines
    or any other [\s] character) it writes [<img loading="lazy" ] in
    place of the tag name and all that whitespace, keeps the text before
    it and goes on with the rest, whatever follows: an image that
    already has a [loading] attribute gets a second one. *)
Theorem addLazyLoadingToImages_rewrite (html : jsstr) :
  (is_infix (lit "<img") html = false -> addLazyLoadingToImages html = html)
  /\ (forall before ws rest,
        is_infix (lit "<img") before = false -> ws <> [] -> forallb is_js_space ws = true ->
        not_starting is_js_space rest ->
        addLazyLoadingToImages (before ++ lit "<img" ++ ws ++ rest)
        = before ++ lit "<img loading=" ++ dq ++ lit "lazy" ++ dq ++ lit " "
          ++ addLazyLoadingToImages rest).
Proof.
  split; [intro H; apply lazy_go_plain; [exact H | lia] |].
  intros before ws rest Hb Hne Hw Hr. unfold addLazyLoadingToImages.
  rewrite lazy_go_before; [| exact Hb | lia].
  f_equal. rewrite !length_app.
  assert (Hws : (1 <= length ws)%nat) by (destruct ws; [contradiction | simpl; lia]).
  remember (length before + (length (lit "<img") + (length ws + length rest)) - length before)%nat
    as k eqn:Ek.
  replace k with (S (k - 1)) by (rewrite Ek; cbn [length lit]; lia).
  remember (lit "<img" ++ ws ++ rest) as t eqn:Et.
  destruct t as [| c t']; [discriminate |]. cbn [lazy_go]. rewrite Et, (match_img_at ws rest Hne Hw Hr).
  f_equal. f_equal. f_equal. f_equal. f_equal. apply lazy_go_fuel; [| lia].
  rewrite Ek. cbn [length lit]. lia.
Qed.

Lemma addLazyLoadingToImages_rewrite_witness :
  addLazyLoadingToImages (lit "<p>" ++ lit "<img" ++ [9; 10] ++ lit "src=x></p>")
  = lit "<p><img loading=" ++ dq ++ lit "lazy" ++ dq ++ lit " src=x></p>".
Proof.
  rewrite (proj2 (addLazyLoadingToImages_rewrite []) (lit "<p>") [9; 10] (lit "src=x></p>")
             ltac:(vm_compute; reflexivity) ltac:(discriminate) ltac:(vm_compute; reflexivity)
             ltac:(vm_compute; reflexivity)).
  vm_compute. reflexivity.
Defined.
